(** * A shallow embedding of the HTTP server core

    The development follows the C++ sources class by class:
    - [HttpRequest]  (src/http_request.cpp): the request parser and
      percent-decoder;
    - [HttpResponse] (http_response.cpp): the response builder and its
      serializer;
    - [HttpServer]   (http_server.cpp): route matching, the request
      pipeline with its error boundary, and the connection handler;
    - [SocketServer] (socket_server.cpp): the life of the listening socket
      and the accept loop, with the results of the system calls as inputs;
    - [ThreadPool]   (thread_pool.cpp): the worker pool, as a transition
      system over the pool object and its worker threads.

    [std::string] is [string] (a sequence of bytes), [std::unordered_map]
    is a [gmap] that is read in an iteration order of which nothing is
    known but that it lists every entry once, C++ exceptions are explicit
    outcomes.  The definitions come first, the properties after them. *)

From Stdlib Require Import ZArith Ascii String List Bool Lia.
From stdpp Require Import base tactics option list gmap strings pretty.

Local Open Scope string_scope.

(** ** Bytes and [std::string] helpers *)

Definition byte_val (c : ascii) : Z := Z.of_N (N_of_ascii c).

(** [static_cast<char>(int)]: the low eight bits. *)
Definition char_of_int (v : Z) : ascii := ascii_of_N (Z.to_N (v mod 256)).

(** [isspace] in the "C" locale: space, and \t \n \v \f \r. *)
Definition isspace (c : ascii) : bool :=
  let n := byte_val c in
  ((n =? 32) || ((9 <=? n) && (n <=? 13)))%Z.

(** [::toupper] in the "C" locale. *)
Definition toupper (c : ascii) : ascii :=
  let n := byte_val c in
  if ((97 <=? n) && (n <=? 122))%Z then char_of_int (n - 32) else c.

Fixpoint string_map (f : ascii -> ascii) (s : string) : string :=
  match s with
  | EmptyString => EmptyString
  | String c s' => String (f c) (string_map f s')
  end.

Fixpoint string_forall (f : ascii -> bool) (s : string) : bool :=
  match s with
  | EmptyString => true
  | String c s' => f c && string_forall f s'
  end.

(** [s.find(c) != npos] *)
Fixpoint contains (c : ascii) (s : string) : bool :=
  match s with
  | EmptyString => false
  | String a s' => if Ascii.eqb a c then true else contains c s'
  end.

(** [pos = s.find(c)] together with [s.substr(0, pos)] and
    [s.substr(pos + 1)]; [None] is [npos]. *)
Fixpoint split_first (c : ascii) (s : string) : option (string * string) :=
  match s with
  | EmptyString => None
  | String a s' =>
      if Ascii.eqb a c then Some (EmptyString, s')
      else match split_first c s' with
           | Some (l, r) => Some (String a l, r)
           | None => None
           end
  end.

(** [if (!s.empty() && s.back() == c) s.pop_back();] *)
Fixpoint pop_back_if (c : ascii) (s : string) : string :=
  match s with
  | EmptyString => EmptyString
  | String a EmptyString => if Ascii.eqb a c then EmptyString else s
  | String a s' => String a (pop_back_if c s')
  end.

(** [s.find(p) == 0] *)
Definition starts_with (p s : string) : bool := String.prefix p s.

(** [s.find(t) != npos] for a text [t] *)
Fixpoint occurs (t s : string) : bool :=
  starts_with t s
  || match s with
     | EmptyString => false
     | String _ s' => occurs t s'
     end.

(** *** [std::istringstream]

    A stream is the text not yet consumed.  [getline] fails exactly when
    nothing is left; otherwise it yields the text before the next delimiter
    and drops the delimiter. *)

Fixpoint read_until (delim : ascii) (s : string) : string * string :=
  match s with
  | EmptyString => (EmptyString, EmptyString)
  | String c s' =>
      if Ascii.eqb c delim then (EmptyString, s')
      else let '(l, r) := read_until delim s' in (String c l, r)
  end.

Definition getline (delim : ascii) (stream : string) : option (string * string) :=
  match stream with
  | EmptyString => None
  | _ => Some (read_until delim stream)
  end.

(** The lines that successive calls of [getline] deliver until it fails. *)
Fixpoint getlines (delim : ascii) (stream : string) : list string :=
  match stream with
  | EmptyString => []
  | String c s' =>
      if Ascii.eqb c delim then EmptyString :: getlines delim s'
      else match getlines delim s' with
           | [] => [String c EmptyString]
           | l :: ls => String c l :: ls
           end
  end.

Fixpoint skip_space (s : string) : string :=
  match s with
  | EmptyString => EmptyString
  | String c s' => if isspace c then skip_space s' else s
  end.

Fixpoint read_token (s : string) : string * string :=
  match s with
  | EmptyString => (EmptyString, EmptyString)
  | String c s' =>
      if isspace c then (EmptyString, s)
      else let '(t, r) := read_token s' in (String c t, r)
  end.

(** [stream >> token]: skip white space, read up to the next white space;
    extracting nothing sets the fail bit ([None]). *)
Definition extract (stream : string) : option (string * string) :=
  match read_token (skip_space stream) with
  | (EmptyString, _) => None
  | (tok, rest) => Some (tok, rest)
  end.

(** The tokens that successive extractions deliver until one fails. *)
Fixpoint tokens_upto (fuel : nat) (stream : string) : list string :=
  match fuel with
  | O => []
  | S fuel' =>
      match extract stream with
      | None => []
      | Some (tok, rest) => tok :: tokens_upto fuel' rest
      end
  end.

Definition tokens (stream : string) : list string :=
  tokens_upto (String.length stream) stream.

(** The request line as [parse] reads it: the first line of the input
    without its carriage return. *)
Definition first_line (raw_request : string) : string :=
  match getlines "010" raw_request with
  | l :: _ => pop_back_if "013" l
  | [] => EmptyString
  end.

(** *** [std::stoi(s, nullptr, 16)]

    Leading white space, an optional sign, an optional [0x] prefix, then the
    longest run of hexadecimal digits.  [None] stands for the exception
    ([std::invalid_argument] when there is no digit, [std::out_of_range]
    when the value does not fit an [int]). *)

Definition hex_digit (c : ascii) : option Z :=
  let n := byte_val c in
  if ((48 <=? n) && (n <=? 57))%Z then Some (n - 48)%Z
  else if ((65 <=? n) && (n <=? 70))%Z then Some (n - 55)%Z
  else if ((97 <=? n) && (n <=? 102))%Z then Some (n - 87)%Z
  else None.

Fixpoint hex_digits (acc : option Z) (s : string) : option Z :=
  match s with
  | EmptyString => acc
  | String c s' =>
      match hex_digit c with
      | Some d => hex_digits (Some (16 * default 0 acc + d)%Z) s'
      | None => acc
      end
  end.

Definition strip_0x (s : string) : string :=
  match s with
  | String z (String x (String h rest)) =>
      if Ascii.eqb z "0" && (Ascii.eqb x "x" || Ascii.eqb x "X")
         && bool_decide (is_Some (hex_digit h))
      then String h rest else s
  | _ => s
  end.

Definition stoi16 (s : string) : option Z :=
  let s1 := skip_space s in
  let '(neg, s2) :=
    match s1 with
    | String c r =>
        if Ascii.eqb c "-" then (true, r)
        else if Ascii.eqb c "+" then (false, r)
        else (false, s1)
    | EmptyString => (false, s1)
    end in
  match hex_digits None (strip_0x s2) with
  | Some v =>
      let v' := (if neg then - v else v)%Z in
      if ((- 2147483648 <=? v') && (v' <=? 2147483647))%Z then Some v' else None
  | None => None
  end.

(** *** [std::stoull(s)]

    Leading white space, an optional sign, then the longest run of decimal
    digits.  [None] stands for the exception ([std::invalid_argument] when
    there is no digit, [std::out_of_range] when the digits exceed 64 bits).
    A minus sign negates the value in 64-bit unsigned arithmetic. *)

Definition dec_digit (c : ascii) : option Z :=
  let n := byte_val c in
  if ((48 <=? n) && (n <=? 57))%Z then Some (n - 48)%Z else None.

Fixpoint dec_digits (acc : option Z) (s : string) : option Z :=
  match s with
  | EmptyString => acc
  | String c s' =>
      match dec_digit c with
      | Some d => dec_digits (Some (10 * default 0 acc + d)%Z) s'
      | None => acc
      end
  end.

Definition stoull (s : string) : option Z :=
  let s1 := skip_space s in
  let '(neg, s2) :=
    match s1 with
    | String c r =>
        if Ascii.eqb c "-" then (true, r)
        else if Ascii.eqb c "+" then (false, r)
        else (false, s1)
    | EmptyString => (false, s1)
    end in
  match dec_digits None s2 with
  | Some v =>
      if (v <=? 18446744073709551615)%Z
      then Some (if neg then (- v) mod 18446744073709551616 else v)%Z
      else None
  | None => None
  end.

(** ** HttpRequest *)

Module HttpRequest.

Inductive Method := GET | POST | PUT | DELETE | HEAD | OPTIONS | PATCH | UNKNOWN.

Global Instance Method_eq_dec : EqDecision Method.
Proof. solve_decision. Defined.

Record t := mk {
  method_ : Method;
  path_ : string;
  version_ : string;
  body_ : string;
  headers_ : gmap string string;
  query_params_ : gmap string string;
  is_valid_ : bool
}.

(** [HttpRequest::HttpRequest()] *)
Definition init : t :=
  {| method_ := UNKNOWN; path_ := ""; version_ := "HTTP/1.1"; body_ := "";
     headers_ := ∅; query_params_ := ∅; is_valid_ := false |}.

Definition getMethod (r : t) : Method := method_ r.
Definition getPath (r : t) : string := path_ r.
Definition getVersion (r : t) : string := version_ r.
Definition getBody (r : t) : string := body_ r.
Definition isValid (r : t) : bool := is_valid_ r.

Definition getHeader (name : string) (r : t) : string := default "" (headers_ r !! name).
Definition getQueryParam (name : string) (r : t) : string :=
  default "" (query_params_ r !! name).

Definition stringToMethod (method_str : string) : Method :=
  let upper_method := string_map toupper method_str in
  if String.eqb upper_method "GET" then GET
  else if String.eqb upper_method "POST" then POST
  else if String.eqb upper_method "PUT" then PUT
  else if String.eqb upper_method "DELETE" then DELETE
  else if String.eqb upper_method "HEAD" then HEAD
  else if String.eqb upper_method "OPTIONS" then OPTIONS
  else if String.eqb upper_method "PATCH" then PATCH
  else UNKNOWN.

(** [HttpRequest::urlDecode].  The loop index [i] is the position of the
    head of [encoded]; [i + 2 < encoded.length()] holds exactly when two
    more characters follow it. *)
Fixpoint urlDecode (encoded : string) : string :=
  match encoded with
  | EmptyString => EmptyString
  | String c rest =>
      if Ascii.eqb c "%" then
        match rest with
        | String a (String b rest') =>
            match stoi16 (String a (String b EmptyString)) with
            | Some v => String (char_of_int v) (urlDecode rest')
            | None => String c (urlDecode rest)
            end
        | _ => String c (urlDecode rest)
        end
      else if Ascii.eqb c "+" then String " " (urlDecode rest)
      else String c (urlDecode rest)
  end.

(** The texts in which [urlDecode] finds nothing to decode: no plus sign,
    and no percent sign followed by two characters from which [std::stoi]
    reads a number in base 16. *)
Fixpoint is_decoded (s : string) : bool :=
  match s with
  | EmptyString => true
  | String c rest =>
      negb (Ascii.eqb c "+")
      && match rest with
         | String a (String b _) =>
             negb (Ascii.eqb c "%")
             || match stoi16 (String a (String b EmptyString)) with
                | Some _ => false
                | None => true
                end
         | _ => true
         end
      && is_decoded rest
  end.

(** [HttpRequest::parseQueryParams], one [getline(stream, pair, '&')] per
    element of [pairs]. *)
Definition add_query_pair (qp : gmap string string) (pair : string) : gmap string string :=
  match split_first "=" pair with
  | Some (k, v) => <[urlDecode k := urlDecode v]> qp
  | None => <[urlDecode pair := ""]> qp
  end.

Definition parseQueryParams (query_string : string) (qp : gmap string string)
  : gmap string string :=
  foldl add_query_pair qp (getlines "&" query_string).

(** The two [erase] calls that trim blanks and tabs. *)
Definition is_blank (c : ascii) : bool := Ascii.eqb c " " || Ascii.eqb c "009".

Fixpoint ltrim (s : string) : string :=
  match s with
  | EmptyString => EmptyString
  | String c s' => if is_blank c then ltrim s' else s
  end.

Fixpoint rtrim (s : string) : string :=
  match s with
  | EmptyString => EmptyString
  | String c s' =>
      match rtrim s' with
      | EmptyString => if is_blank c then EmptyString else String c EmptyString
      | r => String c r
      end
  end.

Definition trim (s : string) : string := rtrim (ltrim s).

(** [HttpRequest::parseHeaders] *)
Definition add_header_line (hs : gmap string string) (line : string) : gmap string string :=
  match split_first ":" line with
  | Some (name, value) => <[trim name := trim value]> hs
  | None => hs
  end.

Definition parseHeaders (header_lines : list string) (hs : gmap string string)
  : gmap string string :=
  foldl add_header_line hs header_lines.

(** The header loop: lines up to (and consuming) the first empty one. *)
Fixpoint read_header_lines (lines : list string) : list string * list string :=
  match lines with
  | [] => ([], [])
  | l :: ls =>
      let line := pop_back_if "013" l in
      if String.eqb line "" then ([], ls)
      else let '(hs, rest) := read_header_lines ls in (line :: hs, rest)
  end.

(** The body loop and the removal of one trailing newline. *)
Definition read_body (lines : list string) : string :=
  pop_back_if "010" (String.concat "" (map (fun l => l ++ String "010" "") lines)).

Definition invalid (r : t) : bool * t :=
  (false, {| method_ := method_ r; path_ := path_ r; version_ := version_ r;
             body_ := body_ r; headers_ := headers_ r;
             query_params_ := query_params_ r; is_valid_ := false |}).

(** [HttpRequest::parse], as a function from the object before the call to
    the returned flag and the object after it. *)
Definition parse (raw_request : string) (r : t) : bool * t :=
  if String.eqb raw_request "" then invalid r
  else
    match getlines "010" raw_request with
    | [] => invalid r
    | line0 :: lines =>
        let line := pop_back_if "013" line0 in
        match extract line with
        | None => invalid r
        | Some (method_str, s1) =>
        match extract s1 with
        | None => invalid r
        | Some (path_with_query, s2) =>
        match extract s2 with
        | None => invalid r
        | Some (version, _) =>
            if String.eqb method_str "" || String.eqb path_with_query ""
               || String.eqb version ""
            then invalid r
            else if negb (starts_with "HTTP/" version) then invalid r
            else
              let '(path, qp) :=
                match split_first "?" path_with_query with
                | Some (p, query_string) =>
                    (p, parseQueryParams query_string (query_params_ r))
                | None => (path_with_query, query_params_ r)
                end in
              let '(header_lines, body_lines) := read_header_lines lines in
              (true,
               {| method_ := stringToMethod method_str;
                  path_ := urlDecode path;
                  version_ := version;
                  body_ := read_body body_lines;
                  headers_ := parseHeaders header_lines (headers_ r);
                  query_params_ := qp;
                  is_valid_ := true |})
        end end end
    end.

(** [HttpRequest::HttpRequest(const std::string&)] *)
Definition of_raw (raw_request : string) : t := snd (parse raw_request init).

(** [HttpRequest::setHeader] *)
Definition setHeader (name value : string) (r : t) : t :=
  {| method_ := method_ r; path_ := path_ r; version_ := version_ r;
     body_ := body_ r; headers_ := <[name := value]> (headers_ r);
     query_params_ := query_params_ r; is_valid_ := is_valid_ r |}.

(** [HttpRequest::methodToString], on the method itself. *)
Definition methodToString (m : Method) : string :=
  match m with
  | GET => "GET" | POST => "POST" | PUT => "PUT" | DELETE => "DELETE"
  | HEAD => "HEAD" | OPTIONS => "OPTIONS" | PATCH => "PATCH"
  | UNKNOWN => "UNKNOWN"
  end.

(** [HttpRequest::getContentLength]: 0 without the header and when
    [std::stoull] throws. *)
Definition getContentLength (r : t) : Z :=
  let length_str := getHeader "Content-Length" r in
  if String.eqb length_str "" then 0%Z
  else match stoull length_str with
       | Some n => n
       | None => 0%Z
       end.

(** [HttpRequest::getContentType] *)
Definition getContentType (r : t) : string := getHeader "Content-Type" r.

End HttpRequest.

(** ** Iteration over a [std::unordered_map]

    An iteration visits every entry of the map once, in an order that the
    container chooses and the source does not determine.  The maps are
    [gmap]s; an [iteration] says in which order the entries of a map come,
    and it is [faithful] when it gives exactly the entries.  [map_to_list]
    is one such order. *)

Definition iteration : Type := gmap string string -> list (string * string).

Definition faithful (iterate : iteration) : Prop :=
  ∀ m, iterate m ≡ₚ map_to_list m.

(** ** HttpResponse *)

Definition CRLF : string := String "013" (String "010" EmptyString).

Module HttpResponse.

Inductive StatusCode :=
  | OK | CREATED | NO_CONTENT
  | BAD_REQUEST | UNAUTHORIZED | FORBIDDEN | NOT_FOUND | METHOD_NOT_ALLOWED
  | INTERNAL_SERVER_ERROR | NOT_IMPLEMENTED | SERVICE_UNAVAILABLE.

Global Instance StatusCode_eq_dec : EqDecision StatusCode.
Proof. solve_decision. Defined.

(** [static_cast<int>(code)] *)
Definition code_value (code : StatusCode) : nat :=
  match code with
  | OK => 200 | CREATED => 201 | NO_CONTENT => 204
  | BAD_REQUEST => 400 | UNAUTHORIZED => 401 | FORBIDDEN => 403
  | NOT_FOUND => 404 | METHOD_NOT_ALLOWED => 405
  | INTERNAL_SERVER_ERROR => 500 | NOT_IMPLEMENTED => 501
  | SERVICE_UNAVAILABLE => 503
  end.

Record t := mk {
  status_code_ : StatusCode;
  headers_ : gmap string string;
  body_ : string;
  version_ : string
}.

(** [HttpResponse::HttpResponse()] *)
Definition init : t :=
  {| status_code_ := OK; headers_ := ∅; body_ := ""; version_ := "HTTP/1.1" |}.

Definition setStatusCode (code : StatusCode) (r : t) : t :=
  {| status_code_ := code; headers_ := headers_ r; body_ := body_ r;
     version_ := version_ r |}.

Definition getStatusCode (r : t) : StatusCode := status_code_ r.
Definition getBody (r : t) : string := body_ r.

Definition setHeader (name value : string) (r : t) : t :=
  {| status_code_ := status_code_ r; headers_ := <[name := value]> (headers_ r);
     body_ := body_ r; version_ := version_ r |}.

Definition getHeader (name : string) (r : t) : string := default "" (headers_ r !! name).

(** [std::to_string] of a [size_t] is its decimal representation. *)
Definition setContentLength (r : t) : t :=
  setHeader "Content-Length" (pretty (String.length (body_ r))) r.

Definition setBody (body : string) (r : t) : t :=
  setContentLength
    {| status_code_ := status_code_ r; headers_ := headers_ r; body_ := body;
       version_ := version_ r |}.

Definition setJsonContent (json : string) (r : t) : t :=
  setBody json (setHeader "Content-Type" "application/json; charset=utf-8" r).

Definition setHtmlContent (html : string) (r : t) : t :=
  setBody html (setHeader "Content-Type" "text/html; charset=utf-8" r).

Definition setTextContent (text : string) (r : t) : t :=
  setBody text (setHeader "Content-Type" "text/plain; charset=utf-8" r).

Definition enableCors (origin : string) (r : t) : t :=
  setHeader "Access-Control-Allow-Headers" "Content-Type, Authorization"
    (setHeader "Access-Control-Allow-Methods" "GET, POST, PUT, DELETE, OPTIONS"
       (setHeader "Access-Control-Allow-Origin" origin r)).

Definition statusCodeToString (code : StatusCode) : string :=
  match code with
  | OK => "OK" | CREATED => "Created" | NO_CONTENT => "No Content"
  | BAD_REQUEST => "Bad Request" | UNAUTHORIZED => "Unauthorized"
  | FORBIDDEN => "Forbidden" | NOT_FOUND => "Not Found"
  | METHOD_NOT_ALLOWED => "Method Not Allowed"
  | INTERNAL_SERVER_ERROR => "Internal Server Error"
  | NOT_IMPLEMENTED => "Not Implemented"
  | SERVICE_UNAVAILABLE => "Service Unavailable"
  end.

Definition getStatusText (r : t) : string := statusCodeToString (status_code_ r).

Definition isError (r : t) : bool := bool_decide (400 <= code_value (status_code_ r)).

Definition mime_types : gmap string string :=
  list_to_map
    [("html", "text/html"); ("htm", "text/html"); ("css", "text/css");
     ("js", "application/javascript"); ("json", "application/json");
     ("xml", "application/xml"); ("txt", "text/plain"); ("png", "image/png");
     ("jpg", "image/jpeg"); ("jpeg", "image/jpeg"); ("gif", "image/gif");
     ("svg", "image/svg+xml"); ("ico", "image/x-icon");
     ("pdf", "application/pdf"); ("zip", "application/zip");
     ("mp4", "video/mp4"); ("mp3", "audio/mpeg"); ("wav", "audio/wav");
     ("wasm", "application/wasm")].

Definition getMimeType (file_extension : string) : string :=
  default "application/octet-stream" (mime_types !! file_extension).

(** [file_path.substr(file_path.find_last_of('.') + 1)], or the empty
    string when there is no dot. *)
Fixpoint after_last_dot (s : string) : option string :=
  match s with
  | EmptyString => None
  | String a s' =>
      match after_last_dot s' with
      | Some e => Some e
      | None => if Ascii.eqb a "." then Some s' else None
      end
  end.

(** [HttpResponse::setFileContent]; [fs path] is the content of the file
    when it can be opened. *)
Definition setFileContent (fs : string -> option string) (file_path : string) (r : t) : t :=
  match fs file_path with
  | None => setTextContent "File not found" (setStatusCode NOT_FOUND r)
  | Some content =>
      let extension := default "" (after_last_dot file_path) in
      setBody content (setHeader "Content-Type" (getMimeType extension) r)
  end.

Definition header_line (h : string * string) : string := h.1 ++ ": " ++ h.2 ++ CRLF.

Definition status_line (r : t) : string :=
  version_ r ++ " " ++ pretty (code_value (status_code_ r)) ++ " "
    ++ getStatusText r ++ CRLF.

(** [HttpResponse::toString]; [iterate] is the order in which the loop
    over [headers_] comes to the entries. *)
Definition toString (iterate : iteration) (r : t) : string :=
  status_line r
    ++ String.concat "" (header_line <$> iterate (headers_ r))
    ++ CRLF ++ body_ r.

(** The calls that build a response, and a sequence of them applied in
    order to the one response object. *)
Inductive call :=
  | SetStatusCode (code : StatusCode)
  | SetHeader (name value : string)
  | SetBody (body : string)
  | SetJsonContent (json : string)
  | SetHtmlContent (html : string)
  | SetTextContent (text : string)
  | SetFileContent (file_path : string)
  | EnableCors (origin : string)
  | SetContentLength.

Definition apply_call (fs : string -> option string) (r : t) (c : call) : t :=
  match c with
  | SetStatusCode code => setStatusCode code r
  | SetHeader name value => setHeader name value r
  | SetBody body => setBody body r
  | SetJsonContent json => setJsonContent json r
  | SetHtmlContent html => setHtmlContent html r
  | SetTextContent text => setTextContent text r
  | SetFileContent file_path => setFileContent fs file_path r
  | EnableCors origin => enableCors origin r
  | SetContentLength => setContentLength r
  end.

(** The calls that end in [setContentLength]. *)
Definition sets_length (c : call) : bool :=
  match c with
  | SetBody _ | SetJsonContent _ | SetHtmlContent _ | SetTextContent _
  | SetFileContent _ | SetContentLength => true
  | _ => false
  end.

(** The calls other than a [setHeader] of Content-Length itself. *)
Definition leaves_length (c : call) : bool :=
  match c with
  | SetHeader name _ => negb (String.eqb name "Content-Length")
  | _ => true
  end.

(** The Content-Length header states the length of the body. *)
Definition length_declared (r : t) : Prop :=
  headers_ r !! "Content-Length" = Some (pretty (String.length (body_ r))).

End HttpResponse.

(** ** A fragment of [std::regex]

    [matchRoute] hands a translated pattern to [std::regex] (ECMAScript
    grammar) and asks for a match of the whole subject.  The fragment below
    covers what the translation of a wildcard pattern over ordinary
    characters produces: ordinary characters, [.] (any character but a line
    terminator) and a postfix [*].  [regex_match] answers [None] for every
    other expression, among them the malformed ones for which [std::regex]
    throws. *)

Module Regex.

Inductive atom := AnyChar | Lit (c : ascii).
Inductive item := One (a : atom) | Star (a : atom).

Definition metachars : string := "^$\.*+?()[]{}|".

Definition atom_of (c : ascii) : option atom :=
  if Ascii.eqb c "." then Some AnyChar
  else if contains c metachars then None
  else Some (Lit c).

Fixpoint parse_items (re : string) : option (list item) :=
  match re with
  | EmptyString => Some []
  | String c re' =>
      match atom_of c with
      | None => None
      | Some a =>
          match re' with
          | String q re'' =>
              if Ascii.eqb q "*" then cons (Star a) <$> parse_items re''
              else cons (One a) <$> parse_items re'
          | EmptyString => Some [One a]
          end
      end
  end.

Definition atom_ok (a : atom) (c : ascii) : bool :=
  match a with
  | AnyChar => negb (Ascii.eqb c "010" || Ascii.eqb c "013")
  | Lit c' => Ascii.eqb c c'
  end.

(** [a*] followed by the continuation [k]. *)
Fixpoint star (a : atom) (k : string -> bool) (s : string) : bool :=
  k s || match s with
         | String c s' => atom_ok a c && star a k s'
         | EmptyString => false
         end.

Fixpoint matches (r : list item) (s : string) : bool :=
  match r with
  | [] => String.eqb s ""
  | One a :: r' =>
      match s with
      | String c s' => atom_ok a c && matches r' s'
      | EmptyString => false
      end
  | Star a :: r' => star a (matches r') s
  end.

(** [std::regex_match(subject, std::regex(re))] *)
Definition regex_match (re subject : string) : option bool :=
  (fun r => matches r subject) <$> parse_items re.

(** A character with no meaning of its own in an expression. *)
Definition ordinary (c : ascii) : bool := negb (contains c metachars).

End Regex.

(** ** HttpServer *)

Fixpoint string_drop (n : nat) (s : string) : string :=
  match n, s with
  | O, _ => s
  | S n', String _ s' => string_drop n' s'
  | S _, EmptyString => EmptyString
  end.

Module HttpServer.

(** What a handler can throw: an object derived from [std::exception],
    carrying its [what()], or a value of any other type. *)
Inductive thrown := StdException (what : string) | NonStdException.

(** Handlers work on the one response object of the request.  A call either
    returns or throws, and in both cases leaves the response as mutated so
    far. *)
Inductive result (A : Type) :=
  | Done (a : A) (res : HttpResponse.t)
  | Raise (e : thrown) (res : HttpResponse.t).
Arguments Done {A} a res.
Arguments Raise {A} e res.

Definition action (A : Type) : Type := HttpResponse.t -> result A.

Definition ret {A} (a : A) : action A := fun res => Done a res.

Definition bind {A B} (m : action A) (k : A -> action B) : action B :=
  fun res =>
    match m res with
    | Done a res' => k a res'
    | Raise e res' => Raise e res'
    end.

(** A call that only mutates the response. *)
Definition lift (f : HttpResponse.t -> HttpResponse.t) : action unit :=
  fun res => Done tt (f res).

(** [try { m } catch (const std::exception& e) { h(e) }] *)
Definition try_catch {A} (m : action A) (h : string -> action A) : action A :=
  fun res =>
    match m res with
    | Raise (StdException what) res' => h what res'
    | r => r
    end.

Notation "'do' x <- m ; k" := (bind m (fun x => k))
  (at level 10, x name, m at level 100, k at level 200).

Definition RequestHandler : Type := HttpRequest.t -> action unit.
Definition MiddlewareFunction : Type := HttpRequest.t -> action bool.
Definition ErrorHandler : Type := string -> HttpRequest.t -> action unit.

Record Route := mkRoute {
  method : HttpRequest.Method;
  path : string;
  handler : RequestHandler;
  is_regex : bool
}.

(** The members of [HttpServer] that request processing reads. *)
Record t := mk {
  routes_ : list Route;
  middlewares_ : list MiddlewareFunction;
  static_paths_ : gmap string string;
  not_found_handler_ : RequestHandler;
  error_handler_ : ErrorHandler
}.

Definition defaultNotFoundHandler : RequestHandler :=
  fun request =>
    lift (fun res =>
      HttpResponse.setTextContent ("404 Not Found: " ++ HttpRequest.getPath request)
        (HttpResponse.setStatusCode HttpResponse.NOT_FOUND res)).

(** The log line goes to the logger and leaves the response alone. *)
Definition defaultErrorHandler : ErrorHandler :=
  fun what request =>
    lift (fun res =>
      HttpResponse.setTextContent "Internal Server Error"
        (HttpResponse.setStatusCode HttpResponse.INTERNAL_SERVER_ERROR res)).

(** [HttpServer::HttpServer()] *)
Definition init : t :=
  {| routes_ := []; middlewares_ := []; static_paths_ := ∅;
     not_found_handler_ := defaultNotFoundHandler;
     error_handler_ := defaultErrorHandler |}.

Definition route (m : HttpRequest.Method) (p : string) (h : RequestHandler) (srv : t) : t :=
  {| routes_ := routes_ srv ++
       [{| method := m; path := p; handler := h;
           is_regex := contains "*" p || contains "(" p |}];
     middlewares_ := middlewares_ srv; static_paths_ := static_paths_ srv;
     not_found_handler_ := not_found_handler_ srv;
     error_handler_ := error_handler_ srv |}.

Definition get := route HttpRequest.GET.
Definition post := route HttpRequest.POST.
Definition put := route HttpRequest.PUT.
Definition del := route HttpRequest.DELETE.
Definition head := route HttpRequest.HEAD.
Definition options := route HttpRequest.OPTIONS.
Definition patch := route HttpRequest.PATCH.

Definition use (middleware : MiddlewareFunction) (srv : t) : t :=
  {| routes_ := routes_ srv; middlewares_ := middlewares_ srv ++ [middleware];
     static_paths_ := static_paths_ srv;
     not_found_handler_ := not_found_handler_ srv;
     error_handler_ := error_handler_ srv |}.

Definition serveStatic (p directory : string) (srv : t) : t :=
  {| routes_ := routes_ srv; middlewares_ := middlewares_ srv;
     static_paths_ := <[p := directory]> (static_paths_ srv);
     not_found_handler_ := not_found_handler_ srv;
     error_handler_ := error_handler_ srv |}.

Definition setNotFoundHandler (h : RequestHandler) (srv : t) : t :=
  {| routes_ := routes_ srv; middlewares_ := middlewares_ srv;
     static_paths_ := static_paths_ srv; not_found_handler_ := h;
     error_handler_ := error_handler_ srv |}.

Definition setErrorHandler (h : ErrorHandler) (srv : t) : t :=
  {| routes_ := routes_ srv; middlewares_ := middlewares_ srv;
     static_paths_ := static_paths_ srv;
     not_found_handler_ := not_found_handler_ srv; error_handler_ := h |}.

(** The method test as the specification words it: equal methods, or an
    OPTIONS route whose path pattern also carries a route for the method of
    the request. *)
Definition registered (routes : list Route) (m : HttpRequest.Method) (pattern : string) : Prop :=
  ∃ r, r ∈ routes ∧ method r = m ∧ path r = pattern.

Definition considered_as_specified
    (routes : list Route) (r : Route) (request : HttpRequest.t) : Prop :=
  method r = HttpRequest.getMethod request
  ∨ (method r = HttpRequest.OPTIONS
     ∧ registered routes (HttpRequest.getMethod request) (path r)).

(** A call that throws nothing but objects derived from [std::exception],
    and a call that throws nothing. *)
Definition raises_std_only {A} (m : action A) : Prop :=
  ∀ res e res', m res = Raise e res' → ∃ what, e = StdException what.

Definition never_raises {A} (m : action A) : Prop :=
  ∀ res, ∃ a res', m res = Done a res'.

Section Processing.

(** The collaborators of request processing: [std::regex] ([None] when
    constructing the expression throws), the file system ([None] when the
    file cannot be opened), and the order in which the loops over
    [static_paths_] and over the headers of the response come to the
    entries. *)
Variable regex_match : string -> string -> option bool.
Variable fs : string -> option string.
Variable iterate : iteration.

Definition wildcard_to_regex (pattern : string) : string :=
  string_map (fun c => if Ascii.eqb c "*" then "."%char else c) pattern ++ "*".

(** [HttpServer::matchRoute] *)
Definition matchRoute (pattern p : string) : bool :=
  if String.eqb pattern p then true
  else if contains "*" pattern then
    match regex_match (wildcard_to_regex pattern) p with
    | Some b => b
    | None => false
    end
  else false.

(** [HttpServer::runMiddlewares] *)
Fixpoint runMiddlewares (ms : list MiddlewareFunction) (request : HttpRequest.t)
  : action bool :=
  match ms with
  | [] => ret true
  | middleware :: ms' =>
      do ok <- middleware request;
      if ok then runMiddlewares ms' request else ret false
  end.

(** [HttpServer::handleStaticFile] *)
Definition handleStaticFile (file_path : string) : action unit :=
  lift (fun res =>
    match fs file_path with
    | None =>
        HttpResponse.setTextContent "File not found"
          (HttpResponse.setStatusCode HttpResponse.NOT_FOUND res)
    | Some _ => HttpResponse.setFileContent fs file_path res
    end).

(** The condition of the outer [if] of the route loop. *)
Definition considered (r : Route) (request : HttpRequest.t) : bool :=
  bool_decide (method r = HttpRequest.getMethod request)
  || bool_decide (method r = HttpRequest.OPTIONS).

(** The route loop; the result is [route_found]. *)
Fixpoint dispatch (routes : list Route) (request : HttpRequest.t) : action bool :=
  match routes with
  | [] => ret false
  | r :: routes' =>
      if considered r request then
        if matchRoute (path r) (HttpRequest.getPath request) then
          do _ <- handler r request; ret true
        else dispatch routes' request
      else dispatch routes' request
  end.

(** The body of the [try] block of [processHttpRequest]. *)
Definition pipeline (srv : t) (request : HttpRequest.t) : action unit :=
  do continue <- runMiddlewares (middlewares_ srv) request;
  if negb continue then ret tt
  else
    match
      List.find (fun sp => starts_with sp.1 (HttpRequest.getPath request))
                (iterate (static_paths_ srv))
    with
    | Some static_path =>
        handleStaticFile
          (static_path.2
             ++ string_drop (String.length static_path.1) (HttpRequest.getPath request))
    | None =>
        do route_found <- dispatch (routes_ srv) request;
        if route_found then ret tt else not_found_handler_ srv request
    end.

(** The route whose handler the loop runs: the first one that passes both
    tests. *)
Definition first_match (routes : list Route) (request : HttpRequest.t) : option Route :=
  List.find
    (fun r => considered r request && matchRoute (path r) (HttpRequest.getPath request))
    routes.

(** [HttpServer::processHttpRequest] *)
Definition processHttpRequest (srv : t) (request : HttpRequest.t) : action unit :=
  try_catch (pipeline srv request) (fun what => error_handler_ srv what request).

(** A callback that [processHttpRequest] runs on [request] throws [e] and
    leaves the response as [res']: a middleware that the chain comes to,
    or, when the middlewares let the request pass and no static prefix
    applies, the handler of the matched route or, without a match, the
    not-found handler. *)
Definition raised_while_processing
    (srv : t) (request : HttpRequest.t) (res : HttpResponse.t)
    (e : thrown) (res' : HttpResponse.t) : Prop :=
  (∃ ms1 mw ms2 res1,
     middlewares_ srv = (ms1 ++ mw :: ms2)%list
     ∧ runMiddlewares ms1 request res = Done true res1
     ∧ mw request res1 = Raise e res')
  ∨ (∃ res1,
       runMiddlewares (middlewares_ srv) request res = Done true res1
       ∧ List.find (fun sp => starts_with sp.1 (HttpRequest.getPath request))
                   (iterate (static_paths_ srv)) = None
       ∧ match first_match (routes_ srv) request with
         | Some r => handler r request res1 = Raise e res'
         | None => not_found_handler_ srv request res1 = Raise e res'
         end).

(** [HttpServer::handleRequest]: parse, process, serialize.  The result
    is the text handed back to the connection, or what escaped. *)
Definition handleRequest (srv : t) (raw_request : string) : thrown + string :=
  match processHttpRequest srv (HttpRequest.of_raw raw_request) HttpResponse.init with
  | Done _ response => inr (HttpResponse.toString iterate response)
  | Raise e _ => inl e
  end.

End Processing.

(** *** [HttpServer::handleConnection] *)

Section Connection.

Variable regex_match : string -> string -> option bool.
Variable fs : string -> option string.
Variable iterate : iteration.

(** [buffer[bytes_read] = 0; raw_request += buffer;] appends the buffer as a
    C string: what was received up to its first zero byte. *)
Fixpoint c_str (buffer : string) : string :=
  match buffer with
  | EmptyString => EmptyString
  | String c rest => if Ascii.eqb c "000" then EmptyString else String c (c_str rest)
  end.

(** The read loop.  [incoming] lists what the successive calls of [recv]
    deliver (at most 8191 bytes each, the size handed to [recv]); the empty
    string stands for a result of 0 or less, and once the list is used up
    [recv] delivers nothing more. *)
Fixpoint read_request (incoming : list string) (raw_request : string) : string :=
  match incoming with
  | [] => raw_request
  | EmptyString :: _ => raw_request
  | buffer :: incoming' =>
      let raw_request := raw_request ++ c_str buffer in
      if occurs (CRLF ++ CRLF) raw_request then raw_request
      else read_request incoming' raw_request
  end.

(** What a call of [handleConnection] does to its socket: the text handed
    to [send], if any, whether [close] was called, and whether the call
    returned (it does not when an exception leaves it). *)
Record connection := mkConnection {
  sent : option string;
  closed : bool;
  returned : bool
}.

Definition handleConnection (srv : t) (incoming : list string) : connection :=
  match read_request incoming "" with
  | EmptyString => {| sent := None; closed := true; returned := true |}
  | raw_request =>
      match
        processHttpRequest regex_match fs iterate srv (HttpRequest.of_raw raw_request)
          HttpResponse.init
      with
      | Done _ response =>
          {| sent := Some (HttpResponse.toString iterate response); closed := true;
             returned := true |}
      | Raise (StdException _) _ =>
          {| sent := None; closed := true; returned := true |}
      | Raise NonStdException _ =>
          {| sent := None; closed := false; returned := false |}
      end
  end.

End Connection.

End HttpServer.

(** ** socket_server.cpp

    The results of the system calls are arguments of the operations.  The
    field [open_] is not in the source: it records the descriptors that
    [socket] returned and [close] has not been called on. *)

Module SocketServer.

Record t := mk {
  server_socket_ : Z;
  port_ : Z;
  host_ : string;
  is_running_ : bool;
  open_ : list Z
}.

(** [SocketServer::SocketServer()] *)
Definition init : t :=
  {| server_socket_ := -1; port_ := 0; host_ := ""; is_running_ := false; open_ := [] |}.

Definition isRunning (s : t) : bool := is_running_ s.
Definition getPort (s : t) : Z := port_ s.
Definition getHost (s : t) : string := host_ s.

(** [SocketServer::closeSocket] *)
Definition closeSocket (s : t) : t :=
  if (0 <=? server_socket_ s)%Z then
    {| server_socket_ := -1; port_ := port_ s; host_ := host_ s;
       is_running_ := is_running_ s;
       open_ := filter (fun fd => fd ≠ server_socket_ s) (open_ s) |}
  else s.

(** [SocketServer::createSocket]; [fd] is the result of [socket]. *)
Definition createSocket (fd : Z) (s : t) : bool * t :=
  let s1 :=
    {| server_socket_ := fd; port_ := port_ s; host_ := host_ s;
       is_running_ := is_running_ s;
       open_ := if (0 <=? fd)%Z then fd :: open_ s else open_ s |} in
  if (fd <? 0)%Z then (false, s1) else (true, s1).

(** [SocketServer::bind]; [fd], [pton] and [bound] are the results of
    [socket], [inet_pton] and [::bind]. *)
Definition bind (fd pton bound : Z) (port : Z) (host : string) (s : t) : bool * t :=
  let '(created, s1) := createSocket fd s in
  if negb created then (false, s1)
  else
    let s2 :=
      {| server_socket_ := server_socket_ s1; port_ := port; host_ := host;
         is_running_ := is_running_ s1; open_ := open_ s1 |} in
    if negb (String.eqb host "0.0.0.0" || String.eqb host "") && (pton <=? 0)%Z
    then (false, closeSocket s2)
    else if (bound <? 0)%Z then (false, closeSocket s2)
    else (true, s2).

(** [SocketServer::listen]; [listened] is the result of [::listen]. *)
Definition listen (listened : Z) (s : t) : bool * t :=
  if (server_socket_ s <? 0)%Z then (false, s)
  else if (listened <? 0)%Z then (false, s)
  else
    (true,
     {| server_socket_ := server_socket_ s; port_ := port_ s; host_ := host_ s;
        is_running_ := true; open_ := open_ s |}).

(** [SocketServer::stop] *)
Definition stop (s : t) : t :=
  closeSocket
    {| server_socket_ := server_socket_ s; port_ := port_ s; host_ := host_ s;
       is_running_ := false; open_ := open_ s |}.

(** One turn of the loop of [accept], as the thread in the loop sees it:
    the flag as read in the loop condition, the result of [::accept], and
    the flag as read after [::accept] has returned.  Another thread may
    call [stop] at any time, so the reads need not agree. *)
Record turn := mkTurn {
  at_head : bool;
  client_socket : Z;
  after_accept : bool
}.

Inductive step := Handle (client : Z) | Close (client : Z).

(** The loop of [accept]: what it does with the connections, in order. *)
Fixpoint accept_loop (turns : list turn) : list step :=
  match turns with
  | [] => []
  | tn :: turns' =>
      if negb (at_head tn) then []
      else if (client_socket tn <? 0)%Z then
        if after_accept tn then accept_loop turns' else []
      else if after_accept tn then Handle (client_socket tn) :: accept_loop turns'
      else [Close (client_socket tn)]
  end.

(** [SocketServer::accept] *)
Definition accept (s : t) (turns : list turn) : list step :=
  if negb (is_running_ s) || (server_socket_ s <? 0)%Z then []
  else accept_loop turns.

End SocketServer.

(** *** Handlers and requests used in the examples *)

Module Scenario.

Import HttpServer.

Definition say (text : string) : RequestHandler :=
  fun _ => lift (HttpResponse.setTextContent text).

(** [throw std::runtime_error(what);] after setting a header. *)
Definition throw_std (what : string) : RequestHandler :=
  fun _ res => Raise (StdException what) (HttpResponse.setHeader "X-Step" "1" res).

(** [throw 42;] *)
Definition throw_other : RequestHandler :=
  fun _ res => Raise NonStdException res.

Definition no_files : string -> option string := fun _ => None.

Definition get_x : HttpRequest.t :=
  HttpRequest.of_raw ("GET /x HTTP/1.1" ++ CRLF ++ CRLF).

Definition options_x : Route :=
  {| method := HttpRequest.OPTIONS; path := "/x"; handler := say "from OPTIONS";
     is_regex := false |}.

Definition failing_server : t := get "/x" (throw_std "boom") init.

Definition escaping_server : t := get "/x" throw_other init.

End Scenario.

(** ** ThreadPool

    The pool object, the position of each worker thread in [workerLoop],
    and the position of the thread that calls the operations of the pool.
    One client thread calls the operations, one after the other; the worker
    threads run beside it, and a trace lists the steps of all of them in
    the order in which they happen.

    A worker takes a step either under [queue_mutex_] (test the predicate
    of [wait], the flag, pop a task: one step) or outside it (enter
    [wait], run the task it holds, leave the loop).  Between finding the
    predicate false and blocking inside [wait] a worker still holds the
    mutex, and [stop] writes the flag and notifies without taking it: this
    position is a state of its own.  Of the operations only [stop] waits
    for the workers; its joins are steps of the client, one per slot.

    Three fields are not members of the class.  [executed] records the
    calls [task()] that have come to an end, in the order in which they
    did; [terminated]
    says that [std::terminate] was called, which ends the process; and
    [caller_] says where the client thread is.  Sizes are taken within what
    the system provides: the thread vector and the threads can be
    created. *)

Module ThreadPool.

Local Close Scope string_scope.

(** What the call [task()] does, for a [Task], which is a
    [std::function<void()>]. *)
Inductive outcome :=
  | NoTarget      (* the function object is empty: [if (task)] is false *)
  | Returns
  | ThrowsStd     (* throws an object derived from [std::exception] *)
  | ThrowsOther   (* throws anything else, which [workerLoop] does not catch *)
  | Diverges.     (* does not come back: it loops or blocks for ever *)

Class Behaviour (Task : Type) := call : Task -> outcome.

Inductive worker (Task : Type) :=
  | Idle                    (* at the head of the loop, or woken inside [wait] *)
  | Committed               (* found the predicate of [wait] false, about to block;
                               holds [queue_mutex_] *)
  | Blocked                 (* blocked inside [wait] *)
  | Running (task : Task)   (* left the critical section holding [task] *)
  | Finished.               (* [workerLoop] has returned *)
Arguments Idle {Task}.
Arguments Committed {Task}.
Arguments Blocked {Task}.
Arguments Running {Task} task.
Arguments Finished {Task}.

(** The client thread is outside [stop], or inside it and about to join the
    thread in [slot]; [resize_to] is the new size when [resize] made the
    call. *)
Inductive caller := Outside | Joining (slot : nat) (resize_to : option nat).

(** A [std::thread] object is either not joinable ([None]: default
    constructed, or joined) or owns a worker. *)
Record t (Task : Type) := mk {
  threads_ : list (option (worker Task));
  tasks_ : list Task;
  is_running_ : bool;
  executed : list Task;
  terminated : bool;
  caller_ : caller
}.
Arguments mk {Task}.
Arguments threads_ {Task}.
Arguments tasks_ {Task}.
Arguments is_running_ {Task}.
Arguments executed {Task}.
Arguments terminated {Task}.
Arguments caller_ {Task}.

Section Pool.

Context {Task : Type} `{!Behaviour Task}.
Local Abbreviation pool := (t Task).
Local Abbreviation slot := (option (worker Task)).

Definition set_thread (i : nat) (th : slot) (p : pool) : pool :=
  {| threads_ := <[i := th]> (threads_ p); tasks_ := tasks_ p;
     is_running_ := is_running_ p; executed := executed p;
     terminated := terminated p; caller_ := caller_ p |}.

Definition set_threads (l : list slot) (p : pool) : pool :=
  {| threads_ := l; tasks_ := tasks_ p; is_running_ := is_running_ p;
     executed := executed p; terminated := terminated p; caller_ := caller_ p |}.

Definition set_running (b : bool) (p : pool) : pool :=
  {| threads_ := threads_ p; tasks_ := tasks_ p; is_running_ := b;
     executed := executed p; terminated := terminated p; caller_ := caller_ p |}.

Definition set_caller (c : caller) (p : pool) : pool :=
  {| threads_ := threads_ p; tasks_ := tasks_ p; is_running_ := is_running_ p;
     executed := executed p; terminated := terminated p; caller_ := c |}.

(** [std::terminate] *)
Definition terminate (p : pool) : pool :=
  {| threads_ := threads_ p; tasks_ := tasks_ p; is_running_ := is_running_ p;
     executed := executed p; terminated := true; caller_ := caller_ p |}.

Definition isRunning (p : pool) : bool := is_running_ p.
Definition getThreadCount (p : pool) : nat := length (threads_ p).
Definition getQueueSize (p : pool) : nat := length (tasks_ p).

Definition joinable (th : slot) : bool :=
  match th with
  | Some _ => true
  | None => false
  end.

Definition holds_mutex (th : slot) : bool :=
  match th with
  | Some Committed => true
  | _ => false
  end.

(** No worker holds [queue_mutex_]. *)
Definition mutex_free (p : pool) : bool := forallb (fun th => negb (holds_mutex th)) (threads_ p).

(** A worker leaves the critical section with the task at the front of the
    queue. *)
Definition pop_task (i : nat) (p : pool) : option pool :=
  match tasks_ p with
  | task :: rest =>
      Some {| threads_ := <[i := Some (Running task)]> (threads_ p);
              tasks_ := rest; is_running_ := is_running_ p;
              executed := executed p; terminated := terminated p;
              caller_ := caller_ p |}
  | [] => None
  end.

(** The call [task()] is made. *)
Definition record (task : Task) (p : pool) : pool :=
  {| threads_ := threads_ p; tasks_ := tasks_ p; is_running_ := is_running_ p;
     executed := executed p ++ [task]; terminated := terminated p;
     caller_ := caller_ p |}.

(** One step of the thread in slot [i] through [ThreadPool::workerLoop];
    [None] when it cannot move: blocked inside [wait] or on the mutex,
    returned, no thread at all, or the process has ended.

    An idle worker sees the flag cleared and returns, or enters the
    critical section: it pops a task, or finds the predicate false.  A
    blocked worker gets on when the pool is running and a task is queued
    (a notification of [enqueue], or a spurious wake-up, lets it test the
    predicate again); with the flag cleared it gets on only through the
    notification of [stop], which makes it idle.  The worker that holds a
    task calls it: a [std::exception] is swallowed by the [catch], anything
    else that is thrown leaves the thread function, which ends the
    process, and a call that does not come back keeps the worker where it
    is. *)
Definition workerLoop_step (i : nat) (p : pool) : option pool :=
  if terminated p then None
  else
    match threads_ p !! i with
    | Some (Some Idle) =>
        if negb (is_running_ p) then Some (set_thread i (Some Finished) p)
        else if mutex_free p then
          match tasks_ p with
          | _ :: _ => pop_task i p
          | [] => Some (set_thread i (Some Committed) p)
          end
        else None
    | Some (Some Committed) => Some (set_thread i (Some Blocked) p)
    | Some (Some Blocked) =>
        if is_running_ p && mutex_free p then pop_task i p else None
    | Some (Some (Running task)) =>
        match call task with
        | NoTarget => Some (set_thread i (Some Idle) p)
        | Returns | ThrowsStd => Some (set_thread i (Some Idle) (record task p))
        | ThrowsOther => Some (terminate (set_thread i (Some Finished) (record task p)))
        | Diverges => None
        end
    | _ => None
    end.

(** [condition_.notify_all()]: every worker blocked inside [wait] wakes
    up.  A worker that is about to block is not reached. *)
Definition wake (th : slot) : slot :=
  match th with
  | Some Blocked => Some Idle
  | _ => th
  end.

(** [std::lock_guard<std::mutex> lock(queue_mutex_)] waits until the worker
    that holds the mutex, if any, has blocked inside [wait]. *)
Definition settle (th : slot) : slot :=
  match th with
  | Some Committed => Some Blocked
  | _ => th
  end.

(** [ThreadPool::start].  Assigning to a [std::thread] that is joinable
    calls [std::terminate]. *)
Definition start (p : pool) : pool :=
  if is_running_ p then p
  else if existsb joinable (threads_ p) then terminate (set_running true p)
  else set_threads ((fun _ => Some Idle) <$> threads_ p) (set_running true p).

(** [is_running_ = false; condition_.notify_all();], which leaves the
    client in front of the first join. *)
Definition stop_begin (resize_to : option nat) (p : pool) : pool :=
  set_caller (Joining 0 resize_to)
    (set_threads (wake <$> threads_ p) (set_running false p)).

(** [ThreadPool::stop], up to the first join. *)
Definition stop (p : pool) : pool :=
  if negb (is_running_ p) then p else stop_begin None p.

(** [ThreadPool::enqueue] *)
Definition enqueue (task : Task) (p : pool) : pool :=
  if negb (is_running_ p) then p
  else
    {| threads_ := settle <$> threads_ p; tasks_ := tasks_ p ++ [task];
       is_running_ := is_running_ p; executed := executed p;
       terminated := terminated p; caller_ := caller_ p |}.

(** [threads_.clear(); threads_.resize(new_size);].  Destroying a
    [std::thread] that is joinable calls [std::terminate]. *)
Definition reset_threads (new_size : nat) (p : pool) : pool :=
  if existsb joinable (threads_ p) then terminate p
  else set_threads (replicate new_size None) p.

(** [ThreadPool::resize]: on a running pool up to the first join of [stop],
    with the rest to follow when [stop] returns. *)
Definition resize (new_size : nat) (p : pool) : pool :=
  let new_size := if Nat.eqb new_size 0 then 1 else new_size in
  if is_running_ p then stop_begin (Some new_size) p
  else reset_threads new_size p.

(** [stop] returns; inside [resize] the rest of [resize] follows, where
    [was_running] is true. *)
Definition stop_return (resize_to : option nat) (p : pool) : pool :=
  match resize_to with
  | None => set_caller Outside p
  | Some new_size => start (reset_threads new_size (set_caller Outside p))
  end.

(** One step of the client inside the loop of [stop]:
    [if (thread.joinable()) thread.join();] for the next slot, or the
    return from [stop] after the last one.  [join] returns when the
    thread function has returned; until then the client cannot move. *)
Definition join_step (p : pool) : option pool :=
  if terminated p then None
  else
    match caller_ p with
    | Outside => None
    | Joining k resize_to =>
        match threads_ p !! k with
        | None => Some (stop_return resize_to p)
        | Some None => Some (set_caller (Joining (S k) resize_to) p)
        | Some (Some Finished) =>
            Some (set_caller (Joining (S k) resize_to) (set_thread k None p))
        | Some (Some _) => None
        end
    end.

(** [ThreadPool::ThreadPool(size_t num_threads)] *)
Definition create (num_threads : nat) : pool :=
  resize num_threads
    {| threads_ := []; tasks_ := []; is_running_ := false; executed := [];
       terminated := false; caller_ := Outside |}.

(** The tasks that workers hold at the moment. *)
Definition held_task (th : slot) : option Task :=
  match th with
  | Some (Running task) => Some task
  | _ => None
  end.

Definition held (p : pool) : list Task := omap held_task (threads_ p).

(** A thread is live while it is inside [workerLoop]. *)
Definition is_live (th : slot) : bool :=
  match th with
  | Some Idle | Some Committed | Some Blocked | Some (Running _) => true
  | _ => false
  end.

Definition live_workers (p : pool) : nat := length (filter (fun th => is_live th) (threads_ p)).

(** What the client and the workers do, one after the other: the client
    calls an operation, or moves on inside [stop]; a worker takes a
    step. *)
Inductive event :=
  | Start | Stop | Enqueue (task : Task) | Resize (new_size : nat)
  | Join
  | Worker (i : nat).

(** The steps that need no call: those of the workers, and those of the
    client inside [stop]. *)
Definition move (e : event) (p : pool) : option pool :=
  match e with
  | Worker i => workerLoop_step i p
  | Join => join_step p
  | _ => None
  end.

(** A call can be made when the process is alive and the client is not
    inside [stop]; an event that cannot happen leaves the pool as it is. *)
Definition apply_event (p : pool) (e : event) : pool :=
  match e with
  | Worker _ | Join => default p (move e p)
  | _ =>
      if terminated p then p
      else
        match caller_ p with
        | Joining _ _ => p
        | Outside =>
            match e with
            | Start => start p
            | Stop => stop p
            | Enqueue task => enqueue task p
            | Resize n => resize n p
            | _ => p
            end
        end
  end.

Definition run (trace : list event) (p : pool) : pool := foldl apply_event p trace.

(** Nobody can move: no worker, and not the client inside [stop]. *)
Definition quiescent (p : pool) : Prop := ∀ e, move e p = None.

(** [P] is reached on every way the threads can take from [p] without a
    further call: it holds already, or somebody can move and [P] is reached
    after every step that can be taken. *)
Inductive eventually (P : pool → Prop) (p : pool) : Prop :=
  | eventually_now : P p → eventually P p
  | eventually_step :
      (∃ e, is_Some (move e p)) →
      (∀ e p', move e p = Some p' → eventually P p') →
      eventually P p.

(** The tasks that a trace hands to [enqueue]. *)
Definition enqueued (trace : list event) : list Task :=
  omap (fun e => match e with Enqueue task => Some task | _ => None end) trace.

(** Traces of a pool in service: tasks come in and workers move. *)
Definition in_service (trace : list event) : bool :=
  forallb (fun e => match e with Enqueue _ | Worker _ => true | _ => false end) trace.

(** Traces without a call: workers move, and the client moves on inside
    [stop]. *)
Definition no_call (trace : list event) : bool :=
  forallb (fun e => match e with Join | Worker _ => true | _ => false end) trace.

(** The tasks that are called when their turn comes, and those after
    which the worker goes on: there is nothing to call, or the call returns
    or throws a [std::exception]. *)
Definition callable (task : Task) : bool :=
  match call task with
  | NoTarget => false
  | _ => true
  end.

Definition harmless (task : Task) : bool :=
  match call task with
  | ThrowsOther | Diverges => false
  | _ => true
  end.

(** A started pool whose client is outside [stop], with a live worker in
    every slot, and in which every task that is held or queued lets the
    worker go on.  [target] lists the calls made so far together with the held
    and queued tasks that are still to be called. *)
Definition serving (target : list Task) (p : pool) : Prop :=
  is_running_ p = true
  ∧ terminated p = false
  ∧ caller_ p = Outside
  ∧ threads_ p ≠ []
  ∧ Forall (fun th => is_live th = true) (threads_ p)
  ∧ Forall (fun task => harmless task = true) (held p ++ tasks_ p)
  ∧ executed p ++ filter (fun task => callable task = true) (held p ++ tasks_ p)
    ≡ₚ target.

(** [task] is nowhere in the pool. *)
Definition absent (task : Task) (p : pool) : Prop :=
  (task ∉ executed p) ∧ (task ∉ held p) ∧ (task ∉ tasks_ p).

(** The tasks the pool knows of, in the order called, held, queued. *)
Definition accounted (p : pool) : list Task := executed p ++ held p ++ tasks_ p.

(** The same with a single worker, where the order counts. *)
Definition serving_alone (target : list Task) (p : pool) : Prop :=
  is_running_ p = true
  ∧ terminated p = false
  ∧ caller_ p = Outside
  ∧ (∃ w, threads_ p = [Some w] ∧ is_live (Some w) = true)
  ∧ Forall (fun task => harmless task = true) (held p ++ tasks_ p)
  ∧ executed p ++ filter (fun task => callable task = true) (held p ++ tasks_ p)
    = target.

(** Where the client is in a call of [stop] that [resize] did not make:
    the slots before the next join are joined, all of them once [stop] has
    returned. *)
Definition joined (p : pool) : Prop :=
  match caller_ p with
  | Outside => Forall (fun th => th = None) (threads_ p)
  | Joining k None => Forall (fun th => th = None) (take k (threads_ p))
  | Joining _ (Some _) => False
  end.

(** A pool during and after such a call of [stop], with [queue] the tasks
    queued and [n] the number of slots when it was called. *)
Definition stopped (n : nat) (queue : list Task) (p : pool) : Prop :=
  is_running_ p = false ∧ tasks_ p = queue ∧ length (threads_ p) = n ∧ joined p.

(** Moreover the process is alive, no worker sleeps or is about to, and
    every task that is held lets the worker go on; [target] lists the
    calls made so far together with the held tasks that are still to be
    called. *)
Definition stopping (n : nat) (target queue : list Task) (p : pool) : Prop :=
  stopped n queue p
  ∧ terminated p = false
  ∧ Forall (fun th => th ≠ Some Committed ∧ th ≠ Some Blocked) (threads_ p)
  ∧ Forall (fun task => harmless task = true) (held p)
  ∧ executed p ++ filter (fun task => callable task = true) (held p) ≡ₚ target.


(** *** A measure of what is left to do

    Every step of a worker, and every step of the client inside a call of
    [stop] that [resize] did not make, brings the pool closer to rest. *)

Definition slot_weight (th : slot) : nat :=
  match th with
  | None => 0
  | Some Finished => 1
  | Some Blocked => 1
  | Some Committed => 2
  | Some Idle => 3
  | Some (Running _) => 4
  end.

Definition caller_weight (n : nat) (c : caller) : nat :=
  match c with
  | Outside => 0
  | Joining k _ => S (n - k)
  end.

Definition weight (p : pool) : nat :=
  5 * length (tasks_ p) + sum_list_with slot_weight (threads_ p)
  + caller_weight (length (threads_ p)) (caller_ p).

End Pool.

End ThreadPool.

(** *** Pools used in the examples; a task is named by a number *)

Module PoolScenario.

Import ThreadPool.

(** Task 0 is an empty function object, task 100 throws a
    [std::runtime_error], task 101 throws an [int], task 102 waits for
    ever; every other task returns. *)
#[global] Instance numbered : Behaviour nat :=
  fun task =>
    match task with
    | 0 => NoTarget
    | 100 => ThrowsStd
    | 101 => ThrowsOther
    | 102 => Diverges
    | _ => Returns
    end.

(** Ten tasks handed to a pool while its workers are already moving. *)
Definition ten_tasks : list (@event nat) :=
  [Enqueue 1; Enqueue 2; Worker 0; Enqueue 3; Worker 1; Worker 0; Enqueue 4;
   Enqueue 5; Enqueue 6; Worker 3; Worker 0; Enqueue 7; Enqueue 8; Worker 2;
   Enqueue 9; Enqueue 10].

(** Ten tasks handed to a pool of four before [start]. *)
Definition started_late : t nat :=
  start (foldl (fun q task => enqueue task q) (create 4) (seq 1 10)).

(** A pool of two at work: one task held, two queued. *)
Definition busy : t nat :=
  run [Enqueue 1; Enqueue 2; Enqueue 3; Worker 0] (start (create 2)).

(** What may follow a task that was handed over too early. *)
Definition later : list (@event nat) :=
  [Start; Enqueue 1; Worker 0; Worker 0; Stop; Worker 0; Worker 1; Worker 2;
   Worker 3; Join; Join; Join; Join; Join; Resize 2; Start; Enqueue 2; Worker 1;
   Worker 1].

(** A pool of one whose worker has found the queue empty and is about to
    block, and the call of [resize] that follows. *)
Definition about_to_block : t nat := run [Worker 0] (start (create 1)).

Definition resized : t nat := run [Resize 2; Worker 0] about_to_block.

(** A pool of one, stopped with two tasks left in the queue, the first of
    which throws an [int]. *)
Definition left_over : t nat :=
  run [Enqueue 1; Worker 0; Enqueue 101; Enqueue 2; Stop; Worker 0; Worker 0; Join; Join]
      (start (create 1)).

End PoolScenario.

(** *** Files, middlewares and servers used in further examples *)

Module Fixtures.

Import HttpServer.

(** A file system with one file. *)
Definition one_page (file_path : string) : option string :=
  if String.eqb file_path "./public/index.html" then Some "<h1>hello</h1>" else None.

(** [res.enableCors(); return true;] *)
Definition cors : MiddlewareFunction :=
  fun _ res => Done true (HttpResponse.enableCors "*" res).

(** A middleware that refuses every request. *)
Definition deny : MiddlewareFunction :=
  fun _ res =>
    Done false
      (HttpResponse.setTextContent "denied"
         (HttpResponse.setStatusCode HttpResponse.FORBIDDEN res)).

Definition mark : MiddlewareFunction :=
  fun _ res => Done true (HttpResponse.setHeader "X-Late" "1" res).

Definition guarded_server : t :=
  use mark (use deny (use cors (get "/x" (Scenario.say "x") init))).

Definition static_server : t :=
  serveStatic "/static" "./public" (get "/static/index.html" (Scenario.say "route") init).

Definition get_page : HttpRequest.t :=
  HttpRequest.of_raw ("GET /static/index.html HTTP/1.1" ++ CRLF ++ CRLF).

(** A request that arrives in two deliveries: its head, then its body. *)
Definition split_post : list string :=
  ["POST /x HTTP/1.1" ++ CRLF ++ "Content-Length: 5" ++ CRLF ++ CRLF; "hello"].

(** The flag is cleared while the third connection is being accepted. *)
Definition stopped_at_third : list SocketServer.turn :=
  [SocketServer.mkTurn true 7 true; SocketServer.mkTurn true (-1) true;
   SocketServer.mkTurn true 8 false; SocketServer.mkTurn true 9 true].

End Fixtures.

(** * Properties *)

(** ** Strings and streams *)

Section StreamFacts.

Lemma getlines_getline delim stream :
  getlines delim stream =
    match getline delim stream with
    | None => []
    | Some (l, rest) => l :: getlines delim rest
    end.
Proof.
  induction stream as [|c s IH]; [done|].
  cbn [getlines getline read_until].
  destruct (Ascii.eqb c delim); [done|].
  rewrite IH. destruct s as [|c' s']; [done|].
  cbn [getline]. by destruct (read_until delim (String c' s')).
Qed.

Lemma getlines_nonempty delim stream : stream ≠ "" → getlines delim stream ≠ [].
Proof.
  destruct stream as [|c s]; [done|]. intros _. cbn [getlines].
  destruct (Ascii.eqb c delim); [done|]. by destruct (getlines delim s).
Qed.

Lemma skip_space_length s : (String.length (skip_space s) ≤ String.length s)%nat.
Proof.
  induction s as [|c s IH]; cbn [skip_space]; [done|].
  destruct (isspace c); cbn [String.length]; lia.
Qed.

Lemma read_token_length s tok rest :
  read_token s = (tok, rest) →
  String.length s = String.length tok + String.length rest.
Proof.
  revert tok rest. induction s as [|c s IH]; intros tok rest; cbn [read_token].
  - by intros [= <- <-].
  - destruct (isspace c); [by intros [= <- <-]|].
    destruct (read_token s) as [t r]. intros [= <- <-].
    cbn [String.length]. rewrite (IH t r); [lia|done].
Qed.

Lemma extract_shorter stream tok rest :
  extract stream = Some (tok, rest) → String.length rest < String.length stream.
Proof.
  unfold extract. destruct (read_token (skip_space stream)) as [t r] eqn:E.
  apply read_token_length in E. pose proof (skip_space_length stream).
  destruct t as [|c t]; [done|]. intros [= <- <-].
  cbn [String.length] in E. lia.
Qed.

Lemma tokens_upto_enough n m stream :
  (String.length stream ≤ n)%nat → (String.length stream ≤ m)%nat →
  tokens_upto n stream = tokens_upto m stream.
Proof.
  revert m stream. induction n as [|n IH]; intros m stream Hn Hm.
  - destruct stream; [|cbn in Hn; lia]. by destruct m.
  - destruct m as [|m].
    + destruct stream; [done|cbn in Hm; lia].
    + cbn [tokens_upto]. destruct (extract stream) as [[tok rest]|] eqn:E; [|done].
      apply extract_shorter in E. f_equal. apply IH; lia.
Qed.

(** [tokens] follows the extractions one by one. *)
Lemma tokens_extract stream :
  tokens stream =
    match extract stream with
    | None => []
    | Some (tok, rest) => tok :: tokens rest
    end.
Proof.
  unfold tokens. destruct stream as [|c s]; [done|].
  cbn [String.length tokens_upto].
  destruct (extract (String c s)) as [[tok rest]|] eqn:E; [|done].
  apply extract_shorter in E. cbn [String.length] in E.
  f_equal. apply tokens_upto_enough; lia.
Qed.

End StreamFacts.

(** ** HttpRequest: the parser *)

Section RequestFacts.

Import HttpRequest.

Example parse_simple_get :
  let r := of_raw ("GET /search?q=a%20b&page=1 HTTP/1.1" ++ CRLF
                     ++ "Host: localhost:8080" ++ CRLF ++ CRLF) in
  (isValid r, getMethod r, getPath r, getVersion r, getHeader "Host" r,
   getQueryParam "q" r, getQueryParam "page" r, getBody r)
  = (true, GET, "/search", "HTTP/1.1", "localhost:8080", "a b", "1", "").
Proof. vm_compute. reflexivity. Qed.

Example parse_wrong_version : isValid (of_raw "Invalid HTTP Request") = false.
Proof. vm_compute. reflexivity. Qed.

(** A fourth token on the request line is never read: the request is
    accepted. *)
Example parse_four_tokens :
  tokens (first_line "GET / HTTP/1.1 extra") = ["GET"; "/"; "HTTP/1.1"; "extra"]
  ∧ isValid (of_raw "GET / HTTP/1.1 extra") = true.
Proof. vm_compute. done. Qed.

Lemma invalid_init : snd (invalid init) = init.
Proof. reflexivity. Qed.

(** C5, as the code has it.  When the input is empty or its first line
    holds fewer than three white-space separated tokens, [parse] returns
    false and changes nothing but the validity flag, which it clears; a
    request constructed from such an input therefore has the constructor's
    values: method UNKNOWN, version "HTTP/1.1", and an empty path, body,
    header map and query-parameter map. *)
Theorem parse_rejects_short_request_line (raw_request : string) (r : t) :
  raw_request = "" ∨ (length (tokens (first_line raw_request)) < 3)%nat →
  parse raw_request r = invalid r
  ∧ isValid (of_raw raw_request) = false
  ∧ getMethod (of_raw raw_request) = UNKNOWN
  ∧ getVersion (of_raw raw_request) = "HTTP/1.1"
  ∧ getPath (of_raw raw_request) = ""
  ∧ getBody (of_raw raw_request) = ""
  ∧ headers_ (of_raw raw_request) = ∅
  ∧ query_params_ (of_raw raw_request) = ∅.
Proof.
  intros H.
  assert (Hp : ∀ r', parse raw_request r' = invalid r').
  { intros r'. destruct H as [-> | H]; [done|].
    unfold parse. destruct (String.eqb raw_request ""); [done|].
    unfold first_line in H.
    destruct (getlines "010" raw_request) as [|line0 lines]; [done|].
    rewrite tokens_extract in H.
    destruct (extract (pop_back_if "013" line0)) as [[method_str s1]|]; [|done].
    rewrite tokens_extract in H.
    destruct (extract s1) as [[path_with_query s2]|]; [|done].
    rewrite tokens_extract in H.
    destruct (extract s2) as [[version s3]|]; [|done].
    cbn [length] in H. lia. }
  split; [apply Hp|].
  unfold of_raw. rewrite Hp. by rewrite invalid_init.
Qed.

Lemma parse_rejects_short_request_line_witness :
  parse "GET /index.html" init = invalid init
  ∧ isValid (of_raw "GET /index.html") = false
  ∧ getMethod (of_raw "GET /index.html") = UNKNOWN
  ∧ getVersion (of_raw "GET /index.html") = "HTTP/1.1"
  ∧ getPath (of_raw "GET /index.html") = ""
  ∧ getBody (of_raw "GET /index.html") = ""
  ∧ headers_ (of_raw "GET /index.html") = ∅
  ∧ query_params_ (of_raw "GET /index.html") = ∅.
Proof.
  apply (parse_rejects_short_request_line "GET /index.html" init).
  right. vm_compute. lia.
Defined.

(** C5 as stated fails on the empty input: the request is invalid, but its
    version is the constructor's "HTTP/1.1", not the empty string. *)
Lemma parse_empty_input_version :
  isValid (of_raw "") = false
  ∧ getVersion (of_raw "") = "HTTP/1.1"
  ∧ getVersion (of_raw "") ≠ "".
Proof. by vm_compute. Qed.

(** *** Percent-decoding *)

Example urlDecode_malformed :
  urlDecode "%G1" = "%G1" ∧ urlDecode "100%" = "100%" ∧ urlDecode "%4" = "%4".
Proof. by vm_compute. Qed.

(** A first digit is enough for [std::stoi]: the escape is consumed
    whole. *)
Example urlDecode_one_digit : urlDecode "%4Gx" = String "004" "x".
Proof. by vm_compute. Qed.

Lemma urlDecode_plain s :
  contains "%" s = false → contains "+" s = false → urlDecode s = s.
Proof.
  induction s as [|c s IH]; [done|]. cbn [contains urlDecode].
  destruct (Ascii.eqb c "%"); [done|]. destruct (Ascii.eqb c "+"); [done|].
  intros H1 H2. by rewrite IH.
Qed.

Lemma urlDecode_length_upto n s :
  (String.length s ≤ n)%nat → (String.length (urlDecode s) ≤ String.length s)%nat.
Proof.
  revert s. induction n as [|n IH]; intros s Hn.
  - destruct s; [done|]. cbn [String.length] in Hn. lia.
  - destruct s as [|c rest]; [done|]. cbn [String.length] in Hn.
    assert (∀ t, (String.length t ≤ n)%nat →
                 (String.length (String c (urlDecode t)) ≤ S (String.length t))%nat) as Hcopy.
    { intros t Ht. cbn [String.length]. specialize (IH t Ht). lia. }
    cbn [urlDecode]. destruct (Ascii.eqb c "%").
    + destruct rest as [|a [|b rest']];
        [apply Hcopy; cbn [String.length] in *; lia ..|].
      destruct (stoi16 (String a (String b "")));
        [|apply Hcopy; cbn [String.length] in *; lia].
      cbn [String.length] in *. specialize (IH rest'). lia.
    + destruct (Ascii.eqb c "+"); apply Hcopy; lia.
Qed.

Lemma is_decoded_fixed s : is_decoded s = true → urlDecode s = s.
Proof.
  induction s as [|c rest IH]; [done|]. cbn [is_decoded urlDecode].
  intros H. apply andb_true_iff in H as [H Hrest].
  apply andb_true_iff in H as [Hplus Hescape]. specialize (IH Hrest).
  destruct (Ascii.eqb c "%").
  - destruct rest as [|a [|b rest']]; [by rewrite IH..|].
    cbn [negb orb] in Hescape.
    destruct (stoi16 (String a (String b ""))); [done|]. by rewrite IH.
  - destruct (Ascii.eqb c "+"); [done|]. by rewrite IH.
Qed.

Lemma fixed_is_decoded s : urlDecode s = s → is_decoded s = true.
Proof.
  induction s as [|c rest IH]; [done|]. cbn [is_decoded urlDecode].
  destruct (Ascii.eqb_spec c "%") as [->|Hpercent].
  - change (Ascii.eqb "%" "+") with false. cbn [negb andb orb].
    destruct rest as [|a [|b rest']].
    + done.
    + intros [= H]. by rewrite (IH H).
    + destruct (stoi16 (String a (String b ""))) as [v|].
      * intros [= _ H]. apply (f_equal String.length) in H.
        pose proof (urlDecode_length_upto (String.length rest') rest' (le_n _)) as Hle.
        cbn [String.length] in H. lia.
      * intros [= H]. by rewrite (IH H).
  - destruct (Ascii.eqb_spec c "+") as [->|Hplus].
    + by intros [=].
    + intros [= H]. rewrite (IH H). cbn [negb andb orb]. by destruct rest as [|a [|b rest']].
Qed.

(** C6, as the code has it.  The strings that decoding leaves unchanged
    are exactly those without a plus sign and without a percent sign that
    is followed by two characters from which [std::stoi] reads a
    hexadecimal number.  So decoding is idempotent on an input exactly when
    its decoding is such a string: a percent sign that starts no such
    escape is copied through and does no harm.  "%20", "+" and
    "John%20Doe" decode to " ", " " and "John Doe". *)
Theorem urlDecode_fixed_points (s : string) :
  (urlDecode s = s ↔ is_decoded s = true)
  ∧ (urlDecode (urlDecode s) = urlDecode s ↔ is_decoded (urlDecode s) = true)
  ∧ (contains "%" s = false → contains "+" s = false → is_decoded s = true)
  ∧ urlDecode "%20" = " "
  ∧ urlDecode "+" = " "
  ∧ urlDecode "John%20Doe" = "John Doe".
Proof.
  split; [split; [apply fixed_is_decoded|apply is_decoded_fixed]|].
  split; [split; [apply fixed_is_decoded|apply is_decoded_fixed]|].
  split; [|by vm_compute].
  intros H1 H2. apply fixed_is_decoded. by apply urlDecode_plain.
Qed.

(** Decoding can yield a percent sign and still be idempotent. *)
Example urlDecode_idempotent_with_percent :
  urlDecode "100%25" = "100%" ∧ urlDecode (urlDecode "100%25") = urlDecode "100%25"
  ∧ urlDecode "%25zz" = "%zz" ∧ urlDecode (urlDecode "%25zz") = urlDecode "%25zz"
  ∧ is_decoded "100%" = true ∧ is_decoded "%zz" = true ∧ is_decoded "%20" = false.
Proof. by vm_compute. Qed.

(** C6 as stated fails: the decoding of "%2520" is "%20", and decoding
    that once more gives " ". *)
Lemma urlDecode_not_idempotent :
  urlDecode "%2520" = "%20"
  ∧ urlDecode (urlDecode "%2520") = " "
  ∧ urlDecode (urlDecode "%2520") ≠ urlDecode "%2520".
Proof. by vm_compute. Qed.

End RequestFacts.

(** ** HttpResponse: serialization *)

Section ResponseFacts.

Import HttpResponse.

Lemma append_nil_r s : s ++ "" = s.
Proof.
  induction s as [|c s IH]; [done|].
  change (String c (s ++ "") = String c s). by rewrite IH.
Qed.

Lemma append_assoc s1 s2 s3 : (s1 ++ s2) ++ s3 = s1 ++ s2 ++ s3.
Proof.
  induction s1 as [|c s1 IH]; [done|].
  change (String c ((s1 ++ s2) ++ s3) = String c (s1 ++ s2 ++ s3)). by rewrite IH.
Qed.

Lemma length_append s1 s2 :
  String.length (s1 ++ s2) = (String.length s1 + String.length s2)%nat.
Proof.
  induction s1 as [|c s1 IH]; [done|].
  change (S (String.length (s1 ++ s2)) = S (String.length s1 + String.length s2)).
  by rewrite IH.
Qed.

Lemma concat_cons x xs : String.concat "" (x :: xs) = x ++ String.concat "" xs.
Proof. destruct xs; [cbn [String.concat]; by rewrite append_nil_r|done]. Qed.

Lemma concat_app l1 l2 :
  String.concat "" (l1 ++ l2) = String.concat "" l1 ++ String.concat "" l2.
Proof.
  induction l1 as [|x l1 IH]; [done|].
  rewrite <- List.app_comm_cons, !concat_cons, IH. by rewrite append_assoc.
Qed.

Lemma listed_order_faithful : faithful map_to_list.
Proof. by intros m. Qed.

(** Among the entries that an iteration gives, the one for a key is the one
    stored for it, once, or none. *)
Lemma entries_for_key (entries : list (string * string)) (m : gmap string string) name :
  entries ≡ₚ map_to_list m →
  filter (λ h, h.1 = name) entries
  = match m !! name with
    | Some value => [(name, value)]
    | None => []
    end.
Proof.
  intros Hperm.
  assert (NoDup (filter (λ h : string * string, h.1 = name) entries)) as Hnd.
  { apply NoDup_filter. rewrite Hperm. apply NoDup_map_to_list. }
  assert (∀ h, h ∈ filter (λ h : string * string, h.1 = name) entries
               ↔ ∃ value, h = (name, value) ∧ m !! name = Some value) as Hin.
  { intros [k v]. rewrite list_elem_of_filter, Hperm, elem_of_map_to_list. cbn [fst].
    split.
    - intros [-> H]. by exists v.
    - intros (value & [= -> ->] & H). done. }
  destruct (m !! name) as [value|] eqn:E.
  - destruct (filter _ entries) as [|h l] eqn:El.
    + exfalso. eapply not_elem_of_nil. apply Hin. by exists value.
    + assert (h = (name, value)) as ->.
      { destruct (proj1 (Hin h) ltac:(left)) as (v' & -> & [= ->]). done. }
      destruct l as [|h' l]; [done|]. exfalso.
      assert (h' = (name, value)) as ->.
      { destruct (proj1 (Hin h') ltac:(right; left)) as (v' & -> & [= ->]). done. }
      apply NoDup_cons in Hnd as [Hnd _]. apply Hnd. left.
  - destruct (filter _ entries) as [|h l] eqn:El; [done|]. exfalso.
    destruct (proj1 (Hin h) ltac:(left)) as (v' & _ & H). discriminate H.
Qed.

Example toString_default :
  toString map_to_list init = "HTTP/1.1 200 OK" ++ CRLF ++ CRLF.
Proof. by vm_compute. Qed.

Example toString_stale_length :
  toString map_to_list (setHeader "Content-Length" "999" (setBody "Hello" init))
  = "HTTP/1.1 200 OK" ++ CRLF ++ "Content-Length: 999" ++ CRLF ++ CRLF ++ "Hello".
Proof. by vm_compute. Qed.

(** C2.  [toString] writes the status line, one line for each stored
    header and nothing else before the blank line, and then the body: in
    whatever order the loop comes to the headers, the lines are those of
    the stored entries, each once.  So the output carries a Content-Length
    line exactly when a value is stored, once and with that value,
    whatever the body is; and the same response with any other body gives
    the same lines, followed by that body.  The stored value is the one of
    the last call that set it: [setHeader] stores its argument even after
    [setBody], and [setBody] stores the length of the body it is given. *)
Theorem toString_content_length_as_stored (iterate : iteration) (r : t) :
  faithful iterate →
  ∃ entries,
    entries ≡ₚ map_to_list (headers_ r)
    ∧ toString iterate r
      = status_line r ++ String.concat "" (header_line <$> entries) ++ CRLF ++ body_ r
    ∧ (∀ body,
         toString iterate
           {| status_code_ := status_code_ r; headers_ := headers_ r; body_ := body;
              version_ := version_ r |}
         = status_line r ++ String.concat "" (header_line <$> entries) ++ CRLF ++ body)
    ∧ filter (λ h, h.1 = "Content-Length") entries
      = match headers_ r !! "Content-Length" with
        | Some v => [("Content-Length", v)]
        | None => []
        end
    ∧ (∀ body v,
         body_ (setHeader "Content-Length" v (setBody body r)) = body
         ∧ headers_ (setHeader "Content-Length" v (setBody body r)) !! "Content-Length"
           = Some v)
    ∧ (∀ body,
         headers_ (setBody body r) !! "Content-Length"
         = Some (pretty (String.length body))).
Proof.
  intros Hiterate. exists (iterate (headers_ r)).
  split; [apply Hiterate|]. split; [done|]. split; [done|].
  split; [by apply entries_for_key|]. split.
  - intros body v. split; [done|]. apply lookup_insert_eq.
  - intros body. apply lookup_insert_eq.
Qed.

Lemma toString_content_length_as_stored_witness :
  ∃ entries,
    entries
    ≡ₚ map_to_list (headers_ (setHeader "Content-Length" "999" (setBody "Hello" init)))
    ∧ toString map_to_list (setHeader "Content-Length" "999" (setBody "Hello" init))
      = status_line (setHeader "Content-Length" "999" (setBody "Hello" init))
          ++ String.concat "" (header_line <$> entries) ++ CRLF ++ "Hello"
    ∧ filter (λ h, h.1 = "Content-Length") entries = [("Content-Length", "999")].
Proof.
  destruct (toString_content_length_as_stored map_to_list
              (setHeader "Content-Length" "999" (setBody "Hello" init)))
    as (entries & Hperm & Hout & _ & Hlength & _).
  - intros m. reflexivity.
  - exists entries. split; [exact Hperm|]. split; [exact Hout|]. exact Hlength.
Defined.

End ResponseFacts.

(** ** HttpServer: routing and the error boundary *)

Section ServerFacts.

Import HttpServer.

(** *** Wildcard patterns *)

Example matchRoute_trailing_wildcard :
  matchRoute Regex.regex_match "/api/*" "/api/users/42" = true
  ∧ matchRoute Regex.regex_match "/api/*" "/api/" = true
  ∧ matchRoute Regex.regex_match "/api/*" "/api" = false.
Proof. by vm_compute. Qed.

(** C3 on the code.  The pattern "/a/*/b" becomes the expression
    "/a/./b*": the wildcard stands for exactly one character and the
    final "b" may repeat or be absent.  So "/a/xyz/b", which substitutes
    "xyz" for the wildcard, is not matched, while "/a/x/", which no
    substitution produces, is. *)
Theorem matchRoute_interior_wildcard :
  wildcard_to_regex "/a/*/b" = "/a/./b*"
  ∧ matchRoute Regex.regex_match "/a/*/b" "/a/xyz/b" = false
  ∧ matchRoute Regex.regex_match "/a/*/b" "/a/x/b" = true
  ∧ matchRoute Regex.regex_match "/a/*/b" "/a/x/" = true
  ∧ matchRoute Regex.regex_match "/a/*/b" "/a/x/bbb" = true.
Proof. by vm_compute. Qed.

(** A repetition of [a] cannot get past a character that [a] rejects. *)
Lemma star_stops a s1 c s2 :
  Regex.atom_ok a c = false →
  Regex.star a (Regex.matches []) (s1 ++ String c s2) = false.
Proof.
  intros Hc. induction s1 as [|d s1 IH].
  - change ("" ++ String c s2) with (String c s2). cbn [Regex.star].
    by rewrite Hc.
  - change (String d s1 ++ String c s2) with (String d (s1 ++ String c s2)).
    cbn [Regex.star]. rewrite IH. by rewrite andb_false_r.
Qed.

(** No substitution for the wildcard of "/a/*/b" is matched unless it is a
    single character. *)
Lemma interior_wildcard_needs_one_char (w : string) :
  String.length w ≠ 1%nat →
  matchRoute Regex.regex_match "/a/*/b" ("/a/" ++ w ++ "/b") = false.
Proof.
  intros Hw. unfold matchRoute.
  destruct (String.eqb_spec "/a/*/b" ("/a/" ++ w ++ "/b")) as [E|_].
  { apply (f_equal String.length) in E. rewrite !length_append in E.
    cbn [String.length] in E. lia. }
  change (contains "*" "/a/*/b") with true. cbv iota.
  change (wildcard_to_regex "/a/*/b") with "/a/./b*".
  unfold Regex.regex_match.
  change (Regex.parse_items "/a/./b*")
    with (Some [Regex.One (Regex.Lit "/"); Regex.One (Regex.Lit "a");
                Regex.One (Regex.Lit "/"); Regex.One Regex.AnyChar;
                Regex.One (Regex.Lit "/"); Regex.Star (Regex.Lit "b")]).
  cbn [fmap option_fmap option_map].
  destruct w as [|c1 [|c2 w]]; [done|done|].
  change ("/a/" ++ String c1 (String c2 w) ++ "/b")
    with (String "/" (String "a" (String "/" (String c1 (String c2 (w ++ "/b")))))).
  cbn [Regex.matches]. change (w ++ "/b") with (w ++ String "/" "b").
  rewrite star_stops by done. by rewrite !andb_false_r.
Qed.

Context (regex_match : string → string → option bool).
Context (fs : string → option string).
Context (iterate : iteration).

Local Abbreviation matchRoute' := (matchRoute regex_match).
Local Abbreviation dispatch' := (dispatch regex_match).
Local Abbreviation first_match' := (first_match regex_match).
Local Abbreviation pipeline' := (pipeline regex_match fs iterate).
Local Abbreviation processHttpRequest' := (processHttpRequest regex_match fs iterate).
Local Abbreviation raised' := (raised_while_processing regex_match iterate).

(** *** The method test *)

Lemma considered_iff r request :
  considered r request = true
  ↔ method r = HttpRequest.getMethod request ∨ method r = HttpRequest.OPTIONS.
Proof.
  unfold considered. rewrite orb_true_iff, !bool_decide_eq_true. tauto.
Qed.

(** The loop runs the handler of the first route that passes both tests,
    and no other. *)
Lemma dispatch_first_match routes request :
  dispatch' routes request =
    match first_match' routes request with
    | Some r => bind (handler r request) (λ _, ret true)
    | None => ret false
    end.
Proof.
  induction routes as [|r routes IH]; [done|].
  cbn [dispatch first_match List.find].
  fold (first_match regex_match routes request).
  destruct (considered r request); [|done].
  by destruct (matchRoute' (path r) (HttpRequest.getPath request)).
Qed.

Lemma first_match_Some routes request r :
  first_match' routes request = Some r →
  r ∈ routes ∧ considered r request = true
  ∧ matchRoute' (path r) (HttpRequest.getPath request) = true.
Proof.
  intros H. apply List.find_some in H as [Hin H].
  apply andb_true_iff in H. by rewrite list_elem_of_In.
Qed.

(** C4, as the code has it.  A route passes the method test exactly when
    its method is the method of the request or its own method is OPTIONS,
    whatever else is registered.  The loop runs the handler of the first
    route that passes this test and the path test; hence the handler that
    runs belongs to a route of the request's method or to an OPTIONS route,
    a route that is neither never handles the request, and an OPTIONS route
    at the head of the table whose pattern matches the path handles
    requests of every method. *)
Theorem dispatch_method_test (routes : list Route) (request : HttpRequest.t) :
  (∀ r, considered r request = true
        ↔ method r = HttpRequest.getMethod request ∨ method r = HttpRequest.OPTIONS)
  ∧ dispatch' routes request
    = match first_match' routes request with
      | Some r => bind (handler r request) (λ _, ret true)
      | None => ret false
      end
  ∧ (∀ r, first_match' routes request = Some r →
          method r = HttpRequest.getMethod request ∨ method r = HttpRequest.OPTIONS)
  ∧ (∀ r, method r ≠ HttpRequest.OPTIONS →
          method r ≠ HttpRequest.getMethod request →
          first_match' routes request ≠ Some r)
  ∧ (∀ r, method r = HttpRequest.OPTIONS →
          matchRoute' (path r) (HttpRequest.getPath request) = true →
          dispatch' (r :: routes) request
          = bind (handler r request) (λ _, ret true)).
Proof.
  split; [|split; [|split; [|split]]].
  - intros r. apply considered_iff.
  - apply dispatch_first_match.
  - intros r H. apply first_match_Some in H as (_ & H & _).
    by apply considered_iff.
  - intros r H1 H2 H. apply first_match_Some in H as (_ & H & _).
    apply considered_iff in H. tauto.
  - intros r H1 H2. cbn [dispatch]. rewrite H2.
    replace (considered r request) with true; [done|].
    symmetry. apply considered_iff. by right.
Qed.

(** *** The error boundary *)

Lemma bind_std_only {A B} (m : action A) (k : A → action B) :
  raises_std_only m → (∀ a, raises_std_only (k a)) → raises_std_only (bind m k).
Proof.
  intros Hm Hk res e res'. unfold bind.
  destruct (m res) as [a res1 | e1 res1] eqn:E.
  - apply Hk.
  - intros [= <- <-]. by eapply Hm.
Qed.

Lemma ret_std_only {A} (a : A) : raises_std_only (ret a).
Proof. by intros res e res'. Qed.

Lemma lift_std_only f : raises_std_only (lift f).
Proof. by intros res e res'. Qed.

Lemma runMiddlewares_std_only ms request :
  (∀ mw, mw ∈ ms → raises_std_only (mw request)) →
  raises_std_only (runMiddlewares ms request).
Proof.
  induction ms as [|mw ms IH]; intros H; cbn [runMiddlewares].
  - apply ret_std_only.
  - apply bind_std_only; [apply H; left|].
    intros [|]; [|apply ret_std_only].
    apply IH. intros mw' Hin. apply H. by right.
Qed.

Lemma dispatch_std_only routes request :
  (∀ r, r ∈ routes → raises_std_only (handler r request)) →
  raises_std_only (dispatch' routes request).
Proof.
  induction routes as [|r routes IH]; intros H; cbn [dispatch].
  - apply ret_std_only.
  - assert (raises_std_only (dispatch' routes request)) as Hrest.
    { apply IH. intros r' Hin. apply H. by right. }
    destruct (considered r request); [|done].
    destruct (matchRoute' (path r) (HttpRequest.getPath request)); [|done].
    apply bind_std_only; [apply H; left|]. intros _. apply ret_std_only.
Qed.

Lemma pipeline_std_only srv request :
  (∀ mw, mw ∈ middlewares_ srv → raises_std_only (mw request)) →
  (∀ r, r ∈ routes_ srv → raises_std_only (handler r request)) →
  raises_std_only (not_found_handler_ srv request) →
  raises_std_only (pipeline' srv request).
Proof.
  intros Hm Hr Hn. unfold pipeline.
  apply bind_std_only; [by apply runMiddlewares_std_only|].
  intros continue. destruct (negb continue); [apply ret_std_only|].
  destruct (List.find _ _); [apply lift_std_only|].
  apply bind_std_only; [by apply dispatch_std_only|].
  intros [|]; [apply ret_std_only|done].
Qed.

Lemma defaultErrorHandler_response what request res :
  ∃ res',
    defaultErrorHandler what request res = Done tt res'
    ∧ HttpResponse.getStatusCode res' = HttpResponse.INTERNAL_SERVER_ERROR
    ∧ HttpResponse.getBody res' = "Internal Server Error"
    ∧ HttpResponse.getHeader "Content-Type" res' = "text/plain; charset=utf-8"
    ∧ HttpResponse.getHeader "Content-Length" res' = "21"
    ∧ HttpResponse.version_ res' = HttpResponse.version_ res.
Proof.
  eexists. split; [reflexivity|]. unfold HttpResponse.getHeader. cbn.
  rewrite lookup_insert_eq, lookup_insert_ne, lookup_insert_eq; done.
Qed.

Lemma runMiddlewares_app ms1 ms2 request res :
  runMiddlewares (ms1 ++ ms2)%list request res =
    match runMiddlewares ms1 request res with
    | Done true res1 => runMiddlewares ms2 request res1
    | other => other
    end.
Proof.
  revert res. induction ms1 as [|mw ms1 IH]; intros res; [done|].
  cbn [app runMiddlewares]. unfold bind.
  destruct (mw request res) as [[|] res1 | e res1]; [apply IH|done..].
Qed.

(** What a callback throws is what the body of the [try] block throws. *)
Lemma pipeline_raises srv request res e res' :
  raised' srv request res e res' → pipeline' srv request res = Raise e res'.
Proof.
  unfold pipeline, bind.
  intros [(ms1 & mw & ms2 & res1 & Hms & Hpre & Hmw) | (res1 & Hms & Hfind & Hrun)].
  - rewrite Hms, runMiddlewares_app, Hpre. cbn [runMiddlewares]. unfold bind.
    by rewrite Hmw.
  - rewrite Hms. cbn [negb]. rewrite Hfind, dispatch_first_match.
    destruct (first_match' (routes_ srv) request) as [r|]; [|done].
    unfold bind. by rewrite Hrun.
Qed.

(** C8, as the code has it.  Whatever a middleware that the chain comes
    to, the handler of the matched route or the not-found handler throws,
    if it is derived from [std::exception] it is caught: the error handler
    is called with it and with the response as mutated so far, and what
    the error handler does is what [processHttpRequest] does.  So when the
    error handler returns, [processHttpRequest] returns with the response
    that the error handler left, which serializes to a status line, header
    lines, a blank line and the body; and with the default error handler
    the response has status 500 and the plain-text body
    "Internal Server Error" with its content type and length.  Nothing is
    assumed of the callbacks that are not run. *)
Theorem processHttpRequest_catches_std
    (srv : t) (request : HttpRequest.t) (res res1 : HttpResponse.t) (what : string) :
  raised' srv request res (StdException what) res1 →
  processHttpRequest' srv request res = error_handler_ srv what request res1
  ∧ (∀ res', error_handler_ srv what request res1 = Done tt res' →
       processHttpRequest' srv request res = Done tt res'
       ∧ ∃ header_lines,
           HttpResponse.toString iterate res'
           = HttpResponse.status_line res' ++ header_lines ++ CRLF
               ++ HttpResponse.getBody res')
  ∧ (error_handler_ srv = defaultErrorHandler →
     ∃ res',
       processHttpRequest' srv request res = Done tt res'
       ∧ HttpResponse.getStatusCode res' = HttpResponse.INTERNAL_SERVER_ERROR
       ∧ HttpResponse.getBody res' = "Internal Server Error"
       ∧ HttpResponse.getHeader "Content-Type" res' = "text/plain; charset=utf-8"
       ∧ HttpResponse.getHeader "Content-Length" res' = "21"
       ∧ ∃ header_lines,
           HttpResponse.toString iterate res'
           = (HttpResponse.version_ res1 ++ " 500 Internal Server Error" ++ CRLF)
               ++ header_lines ++ CRLF ++ "Internal Server Error").
Proof.
  intros Hraised. apply pipeline_raises in Hraised.
  assert (processHttpRequest' srv request res = error_handler_ srv what request res1)
    as Hcaught.
  { unfold processHttpRequest, try_catch. by rewrite Hraised. }
  split; [done|]. split.
  - intros res' Hdone. split; [by rewrite Hcaught|]. by eexists.
  - intros Hdef. rewrite Hcaught, Hdef.
    destruct (defaultErrorHandler_response what request res1)
      as (res' & E1 & H1 & H2 & H3 & H4 & H5).
    exists res'. repeat (split; [done|]).
    eexists. unfold HttpResponse.toString, HttpResponse.status_line.
    unfold HttpResponse.getStatusText.
    unfold HttpResponse.getStatusCode in H1. unfold HttpResponse.getBody in H2.
    rewrite H1, H2, H5. reflexivity.
Qed.

End ServerFacts.

Section ServerExamples.

Import HttpServer.

Lemma dispatch_method_test_witness :
  dispatch Regex.regex_match [Scenario.options_x] Scenario.get_x
  = bind (handler Scenario.options_x Scenario.get_x) (λ _, ret true).
Proof.
  apply (proj2 (proj2 (proj2 (proj2
    (dispatch_method_test Regex.regex_match [] Scenario.get_x)))) Scenario.options_x);
    reflexivity.
Defined.

(** C4 as stated fails: with an OPTIONS route for "/x" as the only route,
    no route is registered for GET on "/x", and yet the OPTIONS route
    passes the method test for "GET /x" and its handler is the one that
    runs. *)
Lemma options_route_handles_unregistered_method :
  HttpRequest.getMethod Scenario.get_x = HttpRequest.GET
  ∧ considered Scenario.options_x Scenario.get_x = true
  ∧ first_match Regex.regex_match [Scenario.options_x] Scenario.get_x
    = Some Scenario.options_x
  ∧ ¬ considered_as_specified [Scenario.options_x] Scenario.options_x Scenario.get_x.
Proof.
  split; [reflexivity|]. split; [reflexivity|]. split; [reflexivity|].
  intros [H | [_ (r & Hin & Hm & _)]].
  - discriminate H.
  - apply list_elem_of_singleton in Hin. subst r. discriminate Hm.
Qed.

Lemma processHttpRequest_catches_std_witness :
  processHttpRequest Regex.regex_match Scenario.no_files map_to_list
    Scenario.failing_server Scenario.get_x HttpResponse.init
  = error_handler_ Scenario.failing_server "boom" Scenario.get_x
      (HttpResponse.setHeader "X-Step" "1" HttpResponse.init)
  ∧ ∃ res',
      processHttpRequest Regex.regex_match Scenario.no_files map_to_list
        Scenario.failing_server Scenario.get_x HttpResponse.init = Done tt res'
      ∧ HttpResponse.getStatusCode res' = HttpResponse.INTERNAL_SERVER_ERROR
      ∧ HttpResponse.getBody res' = "Internal Server Error"
      ∧ HttpResponse.getHeader "Content-Type" res' = "text/plain; charset=utf-8"
      ∧ HttpResponse.getHeader "Content-Length" res' = "21"
      ∧ ∃ header_lines,
          HttpResponse.toString map_to_list res'
          = (HttpResponse.version_ (HttpResponse.setHeader "X-Step" "1" HttpResponse.init)
               ++ " 500 Internal Server Error" ++ CRLF)
              ++ header_lines ++ CRLF ++ "Internal Server Error".
Proof.
  destruct (processHttpRequest_catches_std Regex.regex_match Scenario.no_files map_to_list
              Scenario.failing_server Scenario.get_x HttpResponse.init
              (HttpResponse.setHeader "X-Step" "1" HttpResponse.init) "boom")
    as (Hcaught & _ & Hdefault).
  - right. exists HttpResponse.init. split; [reflexivity|]. split; reflexivity.
  - split; [exact Hcaught|]. apply Hdefault. reflexivity.
Defined.

(** One of the orders in which the three headers can come. *)
Example failing_handler_response :
  handleRequest Regex.regex_match Scenario.no_files map_to_list Scenario.failing_server
    ("GET /x HTTP/1.1" ++ CRLF ++ CRLF)
  = inr ("HTTP/1.1 500 Internal Server Error" ++ CRLF
         ++ "Content-Length: 21" ++ CRLF
         ++ "Content-Type: text/plain; charset=utf-8" ++ CRLF
         ++ "X-Step: 1" ++ CRLF ++ CRLF ++ "Internal Server Error").
Proof. by vm_compute. Qed.

(** A handler of a route that does not match may throw what it likes: it
    is not run. *)
Example unmatched_route_plays_no_part :
  processHttpRequest Regex.regex_match Scenario.no_files map_to_list
    (get "/other" Scenario.throw_other Scenario.failing_server) Scenario.get_x
    HttpResponse.init
  = processHttpRequest Regex.regex_match Scenario.no_files map_to_list
      Scenario.failing_server Scenario.get_x HttpResponse.init.
Proof. by vm_compute. Qed.

(** C8 as stated fails: a handler that throws a value whose type is not
    derived from [std::exception] is not caught; the error handler does
    not run, and what was thrown leaves [processHttpRequest] and
    [handleRequest]. *)
Lemma non_std_failure_escapes :
  processHttpRequest Regex.regex_match Scenario.no_files map_to_list
    Scenario.escaping_server Scenario.get_x HttpResponse.init
  = Raise NonStdException HttpResponse.init
  ∧ handleRequest Regex.regex_match Scenario.no_files map_to_list Scenario.escaping_server
      ("GET /x HTTP/1.1" ++ CRLF ++ CRLF)
    = inl NonStdException.
Proof. by vm_compute. Qed.

End ServerExamples.

(** ** ThreadPool *)

Local Close Scope string_scope.

Section PoolFacts.

Import ThreadPool.

Context {Task : Type} `{!Behaviour Task}.
Implicit Types (p q : t Task) (l : list (option (worker Task))).
Implicit Types (task : Task) (ts : list Task).

(** *** Slots *)

Lemma held_insert_split l i x y :
  l !! i = Some x →
  ∃ A B,
    omap held_task l = A ++ option_list (held_task x) ++ B
    ∧ omap held_task (<[i:=y]> l) = A ++ option_list (held_task y) ++ B.
Proof.
  intros H. exists (omap held_task (take i l)), (omap held_task (drop (S i) l)).
  split.
  - rewrite <- (take_drop_middle l i x H) at 1.
    rewrite omap_app. cbn [omap list_omap]. by destruct (held_task x).
  - rewrite insert_take_drop by (by eapply lookup_lt_Some).
    rewrite omap_app. cbn [omap list_omap]. by destruct (held_task y).
Qed.

Lemma held_running l i task : l !! i = Some (Some (Running task)) → task ∈ omap held_task l.
Proof.
  intros H. apply list_elem_of_omap. exists (Some (Running task)).
  split; [by eapply list_elem_of_lookup_2|done].
Qed.

(** A worker whose task lets it go on can take the step of the call. *)
Lemma held_harmless p i task ts :
  Forall (λ task, harmless task = true) (held p ++ ts) →
  threads_ p !! i = Some (Some (Running task)) →
  call task ≠ ThrowsOther ∧ call task ≠ Diverges.
Proof.
  intros Hharm E. apply Forall_app in Hharm as [Hharm _].
  rewrite Forall_forall in Hharm. specialize (Hharm task (held_running _ _ _ E)).
  unfold harmless in Hharm. by destruct (call task).
Qed.

Lemma held_nonempty l :
  omap held_task l ≠ [] → ∃ i task, l !! i = Some (Some (Running task)).
Proof.
  intros H. destruct (omap held_task l) as [|task rest] eqn:E; [done|].
  assert (task ∈ omap held_task l) as Hin by (rewrite E; left).
  apply list_elem_of_omap in Hin as (th & Hin & Hth).
  apply list_elem_of_lookup in Hin as [i Hi]. exists i, task.
  destruct th as [[| | | task' |]|]; try done. by injection Hth as ->.
Qed.

Lemma held_same (f : option (worker Task) → option (worker Task)) l :
  (∀ th, held_task (f th) = held_task th) →
  omap held_task (f <$> l) = omap held_task l.
Proof.
  intros Hf. induction l as [|th l IH]; [done|].
  cbn [fmap list_fmap omap list_omap]. rewrite Hf.
  by destruct (held_task th); rewrite <- ?IH.
Qed.

Lemma held_wake l : omap held_task (wake <$> l) = omap held_task l.
Proof. apply held_same. by intros [[]|]. Qed.

Lemma held_settle l : omap held_task (settle <$> l) = omap held_task l.
Proof. apply held_same. by intros [[]|]. Qed.

Lemma held_started l :
  omap (@held_task Task) ((λ _, Some Idle) <$> l) = [].
Proof. by induction l. Qed.

Lemma held_no_thread n : omap (@held_task Task) (replicate n None) = [].
Proof. by induction n. Qed.

Lemma create_eq (num_threads : nat) :
  create (Task := Task) num_threads =
    {| threads_ := replicate (if Nat.eqb num_threads 0 then 1 else num_threads) None;
       tasks_ := []; is_running_ := false; executed := []; terminated := false;
       caller_ := Outside |}.
Proof. reflexivity. Qed.

Lemma replicate_nonempty {A} n (x : A) : replicate (if Nat.eqb n 0 then 1 else n) x ≠ [].
Proof. by destruct n. Qed.

(** *** Where the tasks are *)

(** A step of a worker moves a task from the queue to the worker, or from
    the worker to the record of calls, or drops an empty function object; a
    step of the client inside [stop] moves no task. *)
Lemma accounted_step p i p' :
  workerLoop_step i p = Some p' → accounted p' ⊆+ accounted p.
Proof.
  unfold workerLoop_step, accounted, held. destruct (terminated p); [done|].
  destruct (threads_ p !! i) as [[[| | |task|]|]|] eqn:E; try done.
  - destruct (is_running_ p); cbn [negb].
    + destruct (mutex_free p); [|done].
      destruct (tasks_ p) as [|task rest] eqn:Et.
      * intros [= <-]. cbn [set_thread threads_ tasks_ executed].
        destruct (held_insert_split _ _ _ (Some Committed) E) as (A & B & -> & ->).
        by rewrite Et.
      * unfold pop_task. rewrite Et. intros [= <-]. cbn [threads_ tasks_ executed].
        destruct (held_insert_split _ _ _ (Some (Running task)) E) as (A & B & -> & ->).
        cbn [held_task option_list option_rect].
        apply Permutation_submseteq. solve_Permutation.
    + intros [= <-]. cbn [set_thread threads_ tasks_ executed].
      by destruct (held_insert_split _ _ _ (Some Finished) E) as (A & B & -> & ->).
  - intros [= <-]. cbn [set_thread threads_ tasks_ executed].
    by destruct (held_insert_split _ _ _ (Some Blocked) E) as (A & B & -> & ->).
  - destruct (is_running_ p && mutex_free p); [|done].
    unfold pop_task. destruct (tasks_ p) as [|task rest] eqn:Et; [done|].
    intros [= <-]. cbn [threads_ tasks_ executed].
    destruct (held_insert_split _ _ _ (Some (Running task)) E) as (A & B & -> & ->).
    cbn [held_task option_list option_rect].
    apply Permutation_submseteq. solve_Permutation.
  - destruct (call task); intros [= <-];
      cbn [terminate set_thread record threads_ tasks_ executed].
    + destruct (held_insert_split _ _ _ (Some Idle) E) as (A & B & -> & ->).
      cbn [held_task option_list option_rect app].
      apply submseteq_skips_l, submseteq_skips_r, submseteq_skips_l.
      by apply submseteq_cons.
    + destruct (held_insert_split _ _ _ (Some Idle) E) as (A & B & -> & ->).
      cbn [held_task option_list option_rect].
      apply Permutation_submseteq. solve_Permutation.
    + destruct (held_insert_split _ _ _ (Some Idle) E) as (A & B & -> & ->).
      cbn [held_task option_list option_rect].
      apply Permutation_submseteq. solve_Permutation.
    + destruct (held_insert_split _ _ _ (Some Finished) E) as (A & B & -> & ->).
      cbn [held_task option_list option_rect].
      apply Permutation_submseteq. solve_Permutation.
Qed.

Lemma accounted_start p : accounted (start p) ⊆+ accounted p.
Proof.
  unfold start, accounted, held. destruct (is_running_ p); [done|].
  destruct (existsb joinable (threads_ p)); [done|].
  cbn [set_threads set_running threads_ tasks_ executed]. rewrite held_started.
  apply submseteq_skips_l. cbn [app]. by apply submseteq_inserts_l.
Qed.

Lemma accounted_stop_begin r p : accounted (stop_begin r p) = accounted p.
Proof.
  unfold stop_begin, accounted, held.
  cbn [set_caller set_threads set_running threads_ tasks_ executed].
  by rewrite held_wake.
Qed.

Lemma accounted_stop p : accounted (stop p) ⊆+ accounted p.
Proof.
  unfold stop. destruct (is_running_ p); cbn [negb]; [|done].
  by rewrite accounted_stop_begin.
Qed.

Lemma accounted_reset n p : accounted (reset_threads n p) ⊆+ accounted p.
Proof.
  unfold reset_threads, accounted, held.
  destruct (existsb joinable (threads_ p)); [done|].
  cbn [set_threads threads_ tasks_ executed].
  rewrite held_no_thread. apply submseteq_skips_l. cbn [app].
  by apply submseteq_inserts_l.
Qed.

Lemma accounted_resize n p : accounted (resize n p) ⊆+ accounted p.
Proof.
  unfold resize. destruct (is_running_ p).
  - by rewrite accounted_stop_begin.
  - apply accounted_reset.
Qed.

Lemma accounted_enqueue task p : accounted (enqueue task p) ⊆+ accounted p ++ [task].
Proof.
  unfold enqueue, accounted, held. destruct (is_running_ p); cbn [negb].
  - cbn [threads_ tasks_ executed]. rewrite held_settle.
    by rewrite <- !(assoc_L (++)).
  - by apply submseteq_inserts_r.
Qed.

Lemma accounted_join p p' : join_step p = Some p' → accounted p' ⊆+ accounted p.
Proof.
  unfold join_step. destruct (terminated p); [done|].
  destruct (caller_ p) as [|k r]; [done|].
  destruct (threads_ p !! k) as [[[| | |task|]|]|] eqn:E; try done.
  - intros [= <-]. unfold accounted, held.
    cbn [set_caller set_thread threads_ tasks_ executed].
    by destruct (held_insert_split _ _ _ None E) as (A & B & -> & ->).
  - by intros [= <-].
  - intros [= <-]. unfold stop_return. destruct r as [n|]; [|done].
    etrans; [apply accounted_start|]. etrans; [apply accounted_reset|]. done.
Qed.

Lemma accounted_move e p p' : move e p = Some p' → accounted p' ⊆+ accounted p.
Proof.
  destruct e as [| |task|n| |i]; try done.
  - apply accounted_join.
  - apply accounted_step.
Qed.

Lemma accounted_event e p :
  accounted (apply_event p e)
  ⊆+ accounted p ++ match e with Enqueue task => [task] | _ => [] end.
Proof.
  assert (accounted p ⊆+ accounted p ++ match e with Enqueue task => [task] | _ => [] end)
    as Hsame by (by apply submseteq_inserts_r).
  assert (∀ e', default p (move e' p) = p ∨ move e' p = Some (default p (move e' p)))
    as Hmove by (intros e'; destruct (move e' p); [by right|by left]).
  destruct e as [| |task|n| |i]; cbn [apply_event].
  - destruct (terminated p); [done|]. destruct (caller_ p); [|done].
    rewrite app_nil_r. apply accounted_start.
  - destruct (terminated p); [done|]. destruct (caller_ p); [|done].
    rewrite app_nil_r. apply accounted_stop.
  - destruct (terminated p); [done|]. destruct (caller_ p); [|done].
    apply accounted_enqueue.
  - destruct (terminated p); [done|]. destruct (caller_ p); [|done].
    rewrite app_nil_r. apply accounted_resize.
  - rewrite app_nil_r. destruct (Hmove Join) as [->|H]; [done|].
    by apply (accounted_move Join).
  - rewrite app_nil_r. destruct (Hmove (Worker i)) as [->|H]; [done|].
    by apply (accounted_move (Worker i)).
Qed.

Lemma accounted_run trace p ts :
  accounted p ⊆+ ts → accounted (run trace p) ⊆+ ts ++ enqueued trace.
Proof.
  revert p ts. induction trace as [|e trace IH]; intros p ts H.
  - by rewrite app_nil_r.
  - cbn [run foldl].
    assert (accounted (apply_event p e)
            ⊆+ ts ++ match e with Enqueue task => [task] | _ => [] end) as He.
    { etrans; [apply accounted_event|]. by apply submseteq_skips_r. }
    destruct e as [| |task|n| |i]; cbn [enqueued omap list_omap];
      rewrite ?app_nil_r in He; try (by apply IH).
    rewrite cons_middle, (assoc_L (++) ts [task]). by apply IH.
Qed.

(** *** Tasks handed over while the pool is stopped *)

Lemma absent_accounted task p : absent task p ↔ task ∉ accounted p.
Proof.
  unfold absent, accounted. rewrite !elem_of_app. tauto.
Qed.

Lemma absent_within task p q : accounted q ⊆+ accounted p → absent task p → absent task q.
Proof.
  rewrite !absent_accounted. intros Hsub Hp Hq. apply Hp.
  by apply (elem_of_submseteq _ _ _ Hq Hsub).
Qed.

Lemma absent_event task e p :
  absent task p → e ≠ Enqueue task → absent task (apply_event p e).
Proof.
  intros Hp He. rewrite absent_accounted in *. intros Hin.
  apply (λ H, elem_of_submseteq _ _ _ H (accounted_event e p)) in Hin.
  apply elem_of_app in Hin as [Hin|Hin]; [done|].
  destruct e as [| |task'|n| |i]; try by apply not_elem_of_nil in Hin.
  apply list_elem_of_singleton in Hin. congruence.
Qed.

Lemma absent_run task trace p :
  absent task p → Enqueue task ∉ trace → absent task (run trace p).
Proof.
  revert p. induction trace as [|e trace IH]; intros p Hp Htr; [done|].
  apply not_elem_of_cons in Htr as [He Htr]. cbn [run foldl].
  apply IH; [|done]. apply absent_event; [done|congruence].
Qed.

(** C7.  [enqueue] appends the task to the queue exactly when the pool is
    running, and otherwise leaves the pool as it was.  A task that is handed
    over while the pool is not running, and is not handed over again, is
    nowhere in the pool afterwards, whatever follows: starts, stops, resizes,
    other tasks, steps of the workers.  It is never executed and never
    queued. *)
Theorem enqueue_only_while_running (p : t Task) (task : Task) (trace : list event) :
  (tasks_ (enqueue task p) = tasks_ p ++ [task] ↔ is_running_ p = true)
  ∧ (is_running_ p = false → enqueue task p = p)
  ∧ (is_running_ p = false → absent task p → Enqueue task ∉ trace →
     absent task (run trace (enqueue task p))).
Proof.
  split; [|split].
  - unfold enqueue. destruct (is_running_ p); cbn [negb tasks_]; [done|].
    split; [|done]. intros H. apply (f_equal length) in H.
    rewrite length_app in H. cbn in H. lia.
  - intros Hp. unfold enqueue. by rewrite Hp.
  - intros Hp Ha Htr. unfold enqueue. rewrite Hp. by apply absent_run.
Qed.

(** Whatever the owner and the workers of a new pool do, in any order
    ([start], [stop], [resize], [enqueue], steps of workers), the record of
    executed tasks is, counting repetitions, within the tasks handed to
    [enqueue]: no task is run that was not handed over, and none is run more
    often than it was handed over. *)
Theorem executed_within_enqueued (num_threads : nat) (trace : list (@event Task)) :
  executed (run trace (create num_threads)) ⊆+ enqueued trace
  ∧ accounted (run trace (create num_threads)) ⊆+ enqueued trace.
Proof.
  assert (accounted (run trace (create (Task := Task) num_threads)) ⊆+ enqueued trace) as H.
  { change (enqueued trace) with ([] ++ enqueued trace).
    apply accounted_run. rewrite create_eq. unfold accounted, held.
    cbn [threads_ tasks_ executed]. by rewrite held_no_thread. }
  split; [|done]. etrans; [|apply H]. unfold accounted.
  by apply submseteq_inserts_r.
Qed.

End PoolFacts.

(** ** ThreadPool: what happens in the end *)

Section PoolProgress.

Import ThreadPool.

Context {Task : Type} `{!Behaviour Task}.
Implicit Types (p q : t Task) (l : list (option (worker Task))).
Implicit Types (task : Task) (ts : list Task).

Lemma eventually_mono (P Q : t Task → Prop) p :
  (∀ q, P q → Q q) → eventually P p → eventually Q p.
Proof.
  intros HPQ H. induction H as [p H|p Hex _ IH].
  - apply eventually_now. by apply HPQ.
  - by apply eventually_step.
Qed.

(** *** The measure *)

Lemma weight_insert l i x y :
  l !! i = Some x →
  sum_list_with slot_weight (<[i:=y]> l) + slot_weight x
  = sum_list_with slot_weight l + slot_weight y.
Proof.
  revert i. induction l as [|th l IH]; intros i H; [done|].
  destruct i as [|i]; simpl in *.
  - injection H as ->. lia.
  - specialize (IH i H). lia.
Qed.

Lemma weight_step p i p' :
  workerLoop_step i p = Some p' →
  weight p' < weight p ∧ caller_ p' = caller_ p ∧ length (threads_ p') = length (threads_ p).
Proof.
  unfold workerLoop_step, weight. destruct (terminated p); [done|].
  destruct (threads_ p !! i) as [[[| | |task|]|]|] eqn:E; try done.
  - pose proof (weight_insert _ _ _ (Some Committed) E) as Hw1.
    pose proof (weight_insert _ _ _ (Some Finished) E) as Hw3.
    destruct (is_running_ p); cbn [negb].
    + destruct (mutex_free p); [|done].
      destruct (tasks_ p) as [|task rest] eqn:Et.
      * intros [= <-]. cbn [set_thread threads_ tasks_ caller_]. rewrite Et.
        rewrite length_insert. cbn [slot_weight length] in *.
        split; [lia|done].
      * unfold pop_task. rewrite Et. intros [= <-]. cbn [threads_ tasks_ caller_].
        pose proof (weight_insert _ _ _ (Some (Running task)) E) as Hw2.
        rewrite length_insert. cbn [slot_weight length] in *.
        split; [lia|done].
    + intros [= <-]. cbn [set_thread threads_ tasks_ caller_].
      rewrite length_insert. cbn [slot_weight length] in *.
      split; [lia|done].
  - intros [= <-]. cbn [set_thread threads_ tasks_ caller_].
    pose proof (weight_insert _ _ _ (Some Blocked) E) as Hw.
    rewrite length_insert. cbn [slot_weight] in Hw. split; [lia|done].
  - destruct (is_running_ p && mutex_free p); [|done].
    unfold pop_task. destruct (tasks_ p) as [|task rest] eqn:Et; [done|].
    intros [= <-]. cbn [threads_ tasks_ caller_].
    pose proof (weight_insert _ _ _ (Some (Running task)) E) as Hw.
    rewrite length_insert. cbn [slot_weight length] in *. split; [lia|done].
  - pose proof (weight_insert _ _ _ (Some Idle) E) as Hw.
    pose proof (weight_insert _ _ _ (Some Finished) E) as Hw'.
    cbn [slot_weight] in Hw, Hw'.
    destruct (call task); intros [= <-];
      cbn [terminate set_thread record threads_ tasks_ caller_];
      rewrite length_insert; (split; [lia|done]).
Qed.

Lemma weight_join p p' :
  join_step p = Some p' → (∀ k n, caller_ p ≠ Joining k (Some n)) →
  weight p' < weight p.
Proof.
  unfold join_step, weight. destruct (terminated p); [done|].
  destruct (caller_ p) as [|k r] eqn:Ec; [done|]. intros H Hr.
  destruct r as [n|]; [by destruct (Hr k n)|].
  destruct (threads_ p !! k) as [[[| | |task|]|]|] eqn:E; try done.
  - injection H as <-. cbn [set_caller set_thread threads_ tasks_ caller_].
    pose proof (weight_insert _ _ _ None E) as Hw.
    apply lookup_lt_Some in E.
    rewrite length_insert. cbn [slot_weight caller_weight] in *. lia.
  - injection H as <-. cbn [set_caller threads_ tasks_ caller_].
    apply lookup_lt_Some in E. cbn [caller_weight]. lia.
  - injection H as <-. cbn [stop_return set_caller threads_ tasks_ caller_].
    cbn [caller_weight]. lia.
Qed.

Lemma quiescent_or_move p : quiescent p ∨ ∃ e, is_Some (move e p).
Proof.
  destruct (join_step p) as [p'|] eqn:Ej; [right; by exists Join|].
  destruct (decide (Exists (λ i, is_Some (workerLoop_step i p))
                           (seq 0 (length (threads_ p))))) as [Hex|Hno].
  - right. apply Exists_exists in Hex as (i & _ & Hi). by exists (Worker i).
  - left. intros [| |task|n| |i]; try done. cbn [move].
    destruct (workerLoop_step i p) as [p'|] eqn:E; [|done].
    exfalso. apply Hno, Exists_exists. exists i. split; [|by rewrite E].
    apply elem_of_seq. split; [lia|]. cbn.
    unfold workerLoop_step in E. destruct (terminated p); [done|].
    destruct (threads_ p !! i) eqn:El; [|done]. by apply lookup_lt_Some in El.
Qed.

(** A property that every step keeps, in a pool whose client is not inside
    a [stop] called by [resize], is kept until nobody can move, and that
    point is reached. *)
Lemma inevitable (I : t Task → Prop) p :
  (∀ q, I q → ∀ k n, caller_ q ≠ Joining k (Some n)) →
  (∀ q e q', I q → move e q = Some q' → I q') →
  I p → eventually (λ q, I q ∧ quiescent q) p.
Proof.
  intros Hcaller Hkeep.
  remember (weight p) as n eqn:En.
  assert (weight p ≤ n) as Hn by lia. clear En.
  revert p Hn. induction n as [|n IH]; intros p Hn Hp.
  - apply eventually_now. split; [done|].
    destruct (quiescent_or_move p) as [Hq|[e [p' He]]]; [done|].
    exfalso. destruct e as [| |task|m| |i]; try done.
    + apply weight_join in He; [lia|by apply Hcaller].
    + apply weight_step in He. lia.
  - destruct (quiescent_or_move p) as [Hq|Hex].
    + by apply eventually_now.
    + apply eventually_step; [done|]. intros e p' He.
      apply IH; [|by apply (Hkeep p e)].
      destruct e as [| |task|m| |i]; try done.
      * apply weight_join in He; [lia|by apply Hcaller].
      * apply weight_step in He. lia.
Qed.

End PoolProgress.

Section PoolService.

Import ThreadPool.

Context {Task : Type} `{!Behaviour Task}.
Implicit Types (p q : t Task) (l : list (option (worker Task))).
Implicit Types (task : Task) (ts : list Task).

Local Abbreviation to_call := (filter (λ task : Task, callable task = true)).
Local Abbreviation all_harmless := (Forall (λ task : Task, harmless task = true)).

Lemma to_call_one task : to_call [task] = if callable task then [task] else [].
Proof.
  unfold filter. cbn [list_filter]. destruct (callable task); by case_decide.
Qed.

Lemma insert_nonempty l i th : l ≠ [] → <[i:=th]> l ≠ [].
Proof. by destruct l, i. Qed.

Lemma no_mutex_holder l :
  forallb (λ th, negb (holds_mutex th)) l = false →
  ∃ i, l !! i = Some (Some Committed).
Proof.
  induction l as [|th l IH]; [done|]. cbn [forallb].
  destruct th as [[| | |task|]|]; cbn [holds_mutex negb andb];
    try (intros H; destruct (IH H) as [i Hi]; by exists (S i)).
  intros _. by exists 0.
Qed.

Lemma no_joinable l : Forall (λ th, th = None) l → existsb joinable l = false.
Proof. induction 1 as [|th l -> _ IH]; [done|]. by cbn. Qed.

(** *** A pool in service *)

(** What a worker does with the task at the front of the queue. *)
Lemma pop_task_held p i p' th :
  threads_ p !! i = Some th → held_task th = None → pop_task i p = Some p' →
  ∃ task rest,
    tasks_ p = task :: rest ∧ tasks_ p' = rest
    ∧ threads_ p' = <[i := Some (Running task)]> (threads_ p)
    ∧ held p' ++ tasks_ p' ≡ₚ held p ++ tasks_ p
    ∧ is_running_ p' = is_running_ p ∧ executed p' = executed p
    ∧ terminated p' = terminated p ∧ caller_ p' = caller_ p.
Proof.
  intros E Hth. unfold pop_task. destruct (tasks_ p) as [|task rest] eqn:Et; [done|].
  intros [= <-]. exists task, rest. cbn [threads_ tasks_ is_running_ executed].
  repeat (split; [done|]). split; [|done]. unfold held. cbn [threads_].
  destruct (held_insert_split _ _ _ (Some (Running task)) E) as (A & B & -> & ->).
  rewrite Hth. cbn [held_task option_list option_rect]. solve_Permutation.
Qed.

Lemma serving_step target p i p' :
  serving target p → workerLoop_step i p = Some p' → serving target p'.
Proof.
  intros (Hrun & Hterm & Hcaller & Hne & Hlive & Hharm & Hperm).
  unfold workerLoop_step. rewrite Hterm, Hrun. cbn [negb andb].
  destruct (threads_ p !! i) as [[[| | |task|]|]|] eqn:E; try done.
  - destruct (mutex_free p); [|done].
    destruct (tasks_ p) as [|task rest] eqn:Et.
    + intros [= <-]. unfold serving, held in *.
      cbn [set_thread threads_ tasks_ is_running_ executed terminated caller_].
      destruct (held_insert_split _ _ _ (Some Committed) E) as (A & B & HA & HB).
      cbn [held_task option_list option_rect] in HA, HB.
      rewrite HB, <- HA, Et.
      repeat (split; [done|]). split; [by apply insert_nonempty|].
      split; [by apply Forall_insert|]. done.
    + intros Hpop.
      destruct (pop_task_held p i p' _ E eq_refl Hpop)
        as (task' & rest' & _ & _ & Hth & Hheld & Hr & He & Ht & Hc).
      unfold serving. rewrite Hth, Hheld, Hr, He, Ht, Hc, Et.
      repeat (split; [done|]). split; [by apply insert_nonempty|].
      split; [by apply Forall_insert|]. done.
  - intros [= <-]. unfold serving, held in *.
    cbn [set_thread threads_ tasks_ is_running_ executed terminated caller_].
    destruct (held_insert_split _ _ _ (Some Blocked) E) as (A & B & HA & HB).
    cbn [held_task option_list option_rect] in HA, HB.
    rewrite HB, <- HA.
    repeat (split; [done|]). split; [by apply insert_nonempty|].
    split; [by apply Forall_insert|]. done.
  - destruct (mutex_free p); [|done]. intros Hpop.
    destruct (pop_task_held p i p' _ E eq_refl Hpop)
      as (task' & rest' & _ & _ & Hth & Hheld & Hr & He & Ht & Hc).
    unfold serving. rewrite Hth, Hheld, Hr, He, Ht, Hc.
    repeat (split; [done|]). split; [by apply insert_nonempty|].
    split; [by apply Forall_insert|]. done.
  - unfold serving, held in *.
    destruct (held_insert_split _ _ _ (Some Idle) E) as (A & B & HA & HB).
    rewrite HA in Hharm, Hperm. cbn [held_task option_list option_rect] in *.
    assert (harmless task = true) as Htask.
    { rewrite !Forall_app, Forall_singleton in Hharm. tauto. }
    assert (all_harmless ((A ++ [] ++ B) ++ tasks_ p)) as Hharm'.
    { rewrite !Forall_app in *. cbn [app]. rewrite Forall_nil. tauto. }
    rewrite !filter_app, to_call_one in Hperm.
    unfold harmless, callable in *.
    destruct (call task) eqn:Ecall; [| | |done|done]; intros [= <-];
      cbn [set_thread record threads_ tasks_ is_running_ executed terminated caller_];
      rewrite HB; cbn [held_task option_list option_rect];
      (repeat (split; [done|])); (split; [by apply insert_nonempty|]);
      (split; [by apply Forall_insert|]); (split; [done|]);
      rewrite !filter_app; cbn [filter list_filter app] in *;
      rewrite <- Hperm; solve_Permutation.
Qed.

Lemma serving_move target p e p' :
  serving target p → move e p = Some p' → serving target p'.
Proof.
  intros Hs. destruct e as [| |task|n| |i]; try done.
  - destruct Hs as (_ & _ & Hcaller & _). cbn [move]. unfold join_step.
    rewrite Hcaller. by destruct (terminated p).
  - by apply serving_step.
Qed.

(** With nobody able to move, every task has been taken and called. *)
Lemma serving_rest target p :
  serving target p → quiescent p → executed p ≡ₚ target ∧ tasks_ p = [] ∧ held p = [].
Proof.
  intros (Hrun & Hterm & Hcaller & Hne & Hlive & Hharm & Hperm) Hq.
  assert (∀ i, workerLoop_step i p = None) as Hno by (intros i; apply (Hq (Worker i))).
  assert (held p = []) as Hheld.
  { destruct (decide (held p = [])) as [|Hh]; [done|].
    apply held_nonempty in Hh as (i & task & E). specialize (Hno i).
    destruct (held_harmless _ _ _ _ Hharm E) as [_ Hback].
    unfold workerLoop_step in Hno. rewrite Hterm, E in Hno. by destruct (call task). }
  assert (mutex_free p = true) as Hfree.
  { destruct (mutex_free p) eqn:Hm; [done|].
    apply no_mutex_holder in Hm as [i E]. specialize (Hno i).
    unfold workerLoop_step in Hno. by rewrite Hterm, E in Hno. }
  assert (tasks_ p = []) as Htasks.
  { destruct (tasks_ p) as [|task rest] eqn:Et; [done|].
    destruct (threads_ p) as [|th l] eqn:El; [done|].
    apply Forall_cons in Hlive as [Hth _]. specialize (Hno 0).
    unfold workerLoop_step, pop_task in Hno.
    rewrite Hterm, Hrun, Hfree, El, Et in Hno. cbn [lookup list_lookup negb andb] in Hno.
    destruct th as [[| | |task'|]|]; try done.
    unfold held in Hheld. by rewrite El in Hheld. }
  rewrite Hheld, Htasks in Hperm. cbn [app filter list_filter] in Hperm.
  by rewrite app_nil_r in Hperm.
Qed.

Lemma serving_eventually target p :
  serving target p →
  eventually (λ q, executed q ≡ₚ target ∧ tasks_ q = [] ∧ held q = [] ∧ quiescent q) p.
Proof.
  intros Hs.
  apply (eventually_mono (λ q, serving target q ∧ quiescent q)).
  { intros q [Hq1 Hq2]. destruct (serving_rest _ _ Hq1 Hq2) as (? & ? & ?). done. }
  apply inevitable; [| |done].
  - intros q (_ & _ & Hcaller & _) k n. by rewrite Hcaller.
  - intros q e q'. apply serving_move.
Qed.

(** [start] on a stopped pool whose slots hold no thread puts a worker in
    every slot; the tasks still queued are the ones to call. *)
Lemma serving_start p :
  is_running_ p = false → terminated p = false → caller_ p = Outside →
  threads_ p ≠ [] → Forall (λ th, th = None) (threads_ p) →
  all_harmless (tasks_ p) →
  serving (executed p ++ to_call (tasks_ p)) (start p).
Proof.
  intros Hp Hterm Hcaller Hne Hnone Hharm. unfold start. rewrite Hp.
  rewrite (no_joinable _ Hnone).
  unfold serving, held.
  cbn [set_threads set_running threads_ tasks_ is_running_ executed terminated caller_].
  rewrite held_started. cbn [app].
  repeat (split; [done|]). split; [by destruct (threads_ p)|].
  split; [by apply Forall_fmap, Forall_true|]. done.
Qed.

Lemma serving_enqueue target p task :
  serving target p → harmless task = true →
  serving (target ++ to_call [task]) (enqueue task p).
Proof.
  intros (Hrun & Hterm & Hcaller & Hne & Hlive & Hharm & Hperm) Htask.
  unfold enqueue. rewrite Hrun. unfold serving, held in *.
  cbn [negb threads_ tasks_ is_running_ executed terminated caller_].
  rewrite held_settle. repeat (split; [done|]).
  split; [by destruct (threads_ p)|]. split.
  { apply Forall_fmap. eapply Forall_impl; [apply Hlive|]. by intros [[]|]. }
  split.
  { rewrite !Forall_app in *. rewrite Forall_singleton. tauto. }
  rewrite <- Hperm, !filter_app. solve_Permutation.
Qed.

Lemma serving_run target p trace :
  serving target p → in_service trace = true → all_harmless (enqueued trace) →
  serving (target ++ to_call (enqueued trace)) (run trace p).
Proof.
  revert target p. induction trace as [|e trace IH]; intros target p Hs Htr Hharm.
  - cbn [run foldl enqueued omap list_omap filter list_filter]. by rewrite app_nil_r.
  - cbn [in_service forallb] in Htr. apply andb_true_iff in Htr as [He Htr].
    pose proof Hs as (_ & Hterm & Hcaller & _).
    cbn [run foldl]. destruct e as [| |task|n| |i]; try done.
    + change (enqueued (Enqueue task :: trace)) with ([task] ++ enqueued trace) in *.
      apply Forall_app in Hharm as [Htask Hharm].
      rewrite Forall_singleton in Htask.
      rewrite (filter_app _ [task]), (assoc_L (++) target).
      apply IH; [|done|done]. cbn [apply_event]. rewrite Hterm, Hcaller.
      by apply serving_enqueue.
    + change (enqueued (Worker i :: trace)) with (enqueued trace) in *.
      apply IH; [|done|done].
      cbn [apply_event move].
      destruct (workerLoop_step i p) as [p'|] eqn:E; [|done].
      by apply (serving_step target p i p').
Qed.

(** *** One worker *)

Lemma alone_serving target p : serving_alone target p → serving target p.
Proof.
  intros (Hrun & Hterm & Hcaller & (w & Hw & Hlive) & Hharm & Hacc). unfold serving.
  repeat (split; [done|]). rewrite Hw. split; [done|].
  split; [by apply Forall_singleton|]. split; [done|]. by rewrite Hacc.
Qed.

Lemma alone_step target p i p' :
  serving_alone target p → workerLoop_step i p = Some p' → serving_alone target p'.
Proof.
  intros (Hrun & Hterm & Hcaller & (w & Hw & Hlive) & Hharm & Hacc).
  destruct p as [l tasks running done term c].
  unfold held in *. cbn [threads_ tasks_ is_running_ executed terminated caller_] in *.
  subst l running term c.
  unfold workerLoop_step, pop_task, mutex_free, set_thread, record, terminate.
  cbn [threads_ tasks_ is_running_ executed terminated caller_].
  destruct i as [|i]; [|done]. cbn [lookup list_lookup negb andb].
  unfold serving_alone, held.
  destruct w as [| | |task|]; cbn [forallb holds_mutex negb andb]; [| | | |done].
  - destruct tasks as [|task rest]; intros [= <-];
      cbn [threads_ tasks_ is_running_ executed terminated caller_ insert list_insert];
      (repeat (split; [done|])); (split; [by eexists|]); done.
  - intros [= <-].
    cbn [threads_ tasks_ is_running_ executed terminated caller_ insert list_insert].
    repeat (split; [done|]). split; [by eexists|]. done.
  - destruct tasks as [|task rest]; [done|]. intros [= <-].
    cbn [threads_ tasks_ is_running_ executed terminated caller_ insert list_insert].
    repeat (split; [done|]). split; [by eexists|]. done.
  - cbn [omap list_omap held_task app] in Hharm, Hacc.
    apply Forall_cons in Hharm as [Htask Hharm].
    change (task :: tasks) with ([task] ++ tasks) in Hacc.
    rewrite (filter_app _ [task]), to_call_one in Hacc.
    unfold harmless, callable in *.
    destruct (call task) eqn:Ecall; [| | |done|done]; intros [= <-];
      cbn [threads_ tasks_ is_running_ executed terminated caller_ insert list_insert
           omap list_omap held_task app] in *;
      (repeat (split; [done|])); (split; [by eexists|]); (split; [done|]);
      rewrite <- Hacc; by rewrite <- ?(assoc_L (++)).
Qed.

Lemma alone_enqueue target p task :
  serving_alone target p → harmless task = true →
  serving_alone (target ++ to_call [task]) (enqueue task p).
Proof.
  intros (Hrun & Hterm & Hcaller & (w & Hw & Hlive) & Hharm & Hacc) Htask.
  unfold enqueue. rewrite Hrun. unfold serving_alone, held in *.
  cbn [negb threads_ tasks_ is_running_ executed terminated caller_].
  rewrite held_settle. repeat (split; [done|]). split.
  { rewrite Hw. exists (default Idle (settle (Some w))).
    by destruct w. }
  split.
  { rewrite !Forall_app in *. rewrite Forall_singleton. tauto. }
  rewrite <- Hacc, !filter_app. by rewrite <- !(assoc_L (++)).
Qed.

Lemma alone_run target p trace :
  serving_alone target p → in_service trace = true → all_harmless (enqueued trace) →
  serving_alone (target ++ to_call (enqueued trace)) (run trace p).
Proof.
  revert target p. induction trace as [|e trace IH]; intros target p Hs Htr Hharm.
  - cbn [run foldl enqueued omap list_omap filter list_filter]. by rewrite app_nil_r.
  - cbn [in_service forallb] in Htr. apply andb_true_iff in Htr as [He Htr].
    pose proof Hs as (_ & Hterm & Hcaller & _).
    cbn [run foldl]. destruct e as [| |task|n| |i]; try done.
    + change (enqueued (Enqueue task :: trace)) with ([task] ++ enqueued trace) in *.
      apply Forall_app in Hharm as [Htask Hharm].
      rewrite Forall_singleton in Htask.
      rewrite (filter_app _ [task]), (assoc_L (++) target).
      apply IH; [|done|done]. cbn [apply_event]. rewrite Hterm, Hcaller.
      by apply alone_enqueue.
    + change (enqueued (Worker i :: trace)) with (enqueued trace) in *.
      apply IH; [|done|done].
      cbn [apply_event move].
      destruct (workerLoop_step i p) as [p'|] eqn:E; [|done].
      by apply (alone_step target p i p').
Qed.

Lemma alone_eventually target p :
  serving_alone target p →
  eventually (λ q, executed q = target ∧ tasks_ q = [] ∧ held q = [] ∧ quiescent q) p.
Proof.
  intros Hs.
  apply (eventually_mono (λ q, serving_alone target q ∧ quiescent q)).
  { intros q [Hq1 Hq2].
    destruct (serving_rest _ _ (alone_serving _ _ Hq1) Hq2) as (_ & Ht & Hh).
    destruct Hq1 as (_ & _ & _ & _ & _ & Hacc).
    rewrite Hh, Ht in Hacc. cbn [app filter list_filter] in Hacc.
    by rewrite app_nil_r in Hacc. }
  apply inevitable; [| |done].
  - intros q (_ & _ & Hcaller & _) k n. by rewrite Hcaller.
  - intros q e q' Hq. destruct e as [| |task|n| |i]; try done.
    + destruct Hq as (_ & _ & Hcaller & _). cbn [move]. unfold join_step.
      rewrite Hcaller. by destruct (terminated q).
    + by apply alone_step.
Qed.

End PoolService.

Section PoolStop.

Import ThreadPool.

Context {Task : Type} `{!Behaviour Task}.
Implicit Types (p q : t Task) (l : list (option (worker Task))).
Implicit Types (task : Task) (ts : list Task).

Local Abbreviation to_call := (filter (λ task : Task, callable task = true)).
Local Abbreviation all_harmless := (Forall (λ task : Task, harmless task = true)).

(** *** The joins of [stop] *)

(** A slot that holds a thread is not among the joined ones. *)
Lemma joined_insert p i w th :
  threads_ p !! i = Some (Some w) → joined p → joined (set_thread i th p).
Proof.
  intros E. unfold joined. cbn [set_thread threads_ caller_].
  destruct (caller_ p) as [|k [n|]]; [|done|]; intros Hj.
  - rewrite Forall_lookup in Hj. by specialize (Hj i _ E).
  - rewrite take_insert_ge; [done|].
    destruct (decide (k ≤ i)) as [|Hlt]; [done|]. exfalso.
    rewrite Forall_lookup in Hj. specialize (Hj i (Some w)).
    rewrite lookup_take_lt in Hj by lia. by specialize (Hj E).
Qed.

Lemma stopped_step n queue p i p' :
  stopped n queue p → workerLoop_step i p = Some p' → stopped n queue p'.
Proof.
  intros (Hrun & Htasks & Hlen & Hj). unfold workerLoop_step.
  destruct (terminated p); [done|]. rewrite Hrun. cbn [negb andb].
  destruct (threads_ p !! i) as [[[| | |task|]|]|] eqn:E; try done.
  - intros [= <-]. unfold stopped. cbn [set_thread tasks_ is_running_ threads_].
    rewrite length_insert. repeat (split; [done|]). by apply (joined_insert p i Idle).
  - intros [= <-]. unfold stopped. cbn [set_thread tasks_ is_running_ threads_].
    rewrite length_insert. repeat (split; [done|]).
    by apply (joined_insert p i Committed).
  - pose proof (joined_insert p i (Running task) (Some Idle) E Hj) as Hj1.
    pose proof (joined_insert p i (Running task) (Some Finished) E Hj) as Hj2.
    destruct (call task); intros [= <-]; unfold stopped;
      cbn [terminate set_thread record tasks_ is_running_ threads_];
      rewrite length_insert; (repeat (split; [done|])); done.
Qed.

Lemma stopped_join n queue p p' :
  stopped n queue p → join_step p = Some p' → stopped n queue p'.
Proof.
  intros (Hrun & Htasks & Hlen & Hj). unfold join_step.
  destruct (terminated p); [done|]. unfold joined in Hj.
  destruct (caller_ p) as [|k [m|]] eqn:Ec; [done|done|].
  destruct (threads_ p !! k) as [[[| | |task|]|]|] eqn:E; try done.
  - intros [= <-]. unfold stopped, joined.
    cbn [set_caller set_thread tasks_ is_running_ threads_ caller_].
    rewrite length_insert. repeat (split; [done|]).
    assert (k < length (threads_ p)) as Hk by (by eapply lookup_lt_Some).
    rewrite (take_S_r _ _ None) by (by rewrite list_lookup_insert_eq).
    rewrite take_insert_ge by lia. apply Forall_app. split; [done|].
    by apply Forall_singleton.
  - intros [= <-]. unfold stopped, joined.
    cbn [set_caller tasks_ is_running_ threads_ caller_].
    repeat (split; [done|]). rewrite (take_S_r _ _ None E).
    apply Forall_app. split; [done|]. by apply Forall_singleton.
  - intros [= <-]. unfold stopped, joined.
    cbn [stop_return set_caller tasks_ is_running_ threads_ caller_].
    repeat (split; [done|]). apply lookup_ge_None_1 in E.
    by rewrite take_ge in Hj.
Qed.

Lemma stopped_move n queue p e p' :
  stopped n queue p → move e p = Some p' → stopped n queue p'.
Proof.
  intros Hs. destruct e as [| |task|m| |i]; try done.
  - by apply stopped_join.
  - by apply stopped_step.
Qed.

Lemma stopped_run n queue p trace :
  stopped n queue p → no_call trace = true → stopped n queue (run trace p).
Proof.
  revert p. induction trace as [|e trace IH]; intros p Hs Htr; [done|].
  cbn [no_call forallb] in Htr. apply andb_true_iff in Htr as [He Htr].
  cbn [run foldl]. apply IH; [|done].
  destruct e as [| |task|m| |i]; try done; cbn [apply_event].
  - destruct (move Join p) as [p'|] eqn:E; [|done]. by apply (stopped_move _ _ p Join).
  - destruct (move (Worker i) p) as [p'|] eqn:E; [|done].
    by apply (stopped_move _ _ p (Worker i)).
Qed.

Lemma stop_stopped p :
  is_running_ p = true → stopped (length (threads_ p)) (tasks_ p) (stop p).
Proof.
  intros Hp. unfold stop, stop_begin, stopped, joined. rewrite Hp.
  cbn [negb set_caller set_threads set_running tasks_ is_running_ threads_ caller_ take].
  rewrite length_fmap. repeat (split; [done|]). apply Forall_nil_2.
Qed.

(** *** [stop] when every worker is reached *)

Lemma stopping_step n target queue p i p' :
  stopping n target queue p → workerLoop_step i p = Some p' →
  stopping n target queue p'.
Proof.
  intros (Hs & Hterm & Hawake & Hharm & Hperm) Hstep.
  split; [by apply (stopped_step _ _ p i)|].
  destruct Hs as (Hrun & _). revert Hstep. unfold workerLoop_step.
  rewrite Hterm, Hrun. cbn [negb andb]. unfold held in *.
  destruct (threads_ p !! i) as [[[| | |task|]|]|] eqn:E; try done.
  - intros [= <-]. cbn [set_thread threads_ executed terminated].
    destruct (held_insert_split _ _ _ (Some Finished) E) as (A & B & HA & HB).
    cbn [held_task option_list option_rect] in HA, HB. rewrite HB, <- HA.
    split; [done|]. split; [by apply Forall_insert|]. done.
  - rewrite Forall_lookup in Hawake. by destruct (Hawake i _ E).
  - destruct (held_insert_split _ _ _ (Some Idle) E) as (A & B & HA & HB).
    destruct (held_insert_split _ _ _ (Some Finished) E) as (A' & B' & HA' & HB').
    rewrite HA in Hharm, Hperm. cbn [held_task option_list option_rect] in *.
    assert (harmless task = true) as Htask.
    { rewrite !Forall_app, Forall_singleton in Hharm. tauto. }
    assert (all_harmless (A ++ B)) as Hharm'.
    { rewrite !Forall_app in *. tauto. }
    rewrite !filter_app, to_call_one in Hperm.
    unfold harmless, callable in *.
    destruct (call task) eqn:Ecall; [| | |done|done]; intros [= <-];
      cbn [set_thread record threads_ executed terminated];
      rewrite HB; (split; [done|]); (split; [by apply Forall_insert|]);
      (split; [done|]); rewrite !filter_app; cbn [app] in *;
      rewrite <- Hperm; solve_Permutation.
Qed.

Lemma stopping_join n target queue p p' :
  stopping n target queue p → join_step p = Some p' → stopping n target queue p'.
Proof.
  intros (Hs & Hterm & Hawake & Hharm & Hperm) Hstep.
  split; [by apply (stopped_join _ _ p)|].
  destruct Hs as (_ & _ & _ & Hj). revert Hstep. unfold join_step, joined in *.
  rewrite Hterm. destruct (caller_ p) as [|k [m|]]; [done|done|]. unfold held in *.
  destruct (threads_ p !! k) as [[[| | |task|]|]|] eqn:E; try done.
  - intros [= <-]. cbn [set_caller set_thread threads_ executed terminated].
    destruct (held_insert_split _ _ _ None E) as (A & B & HA & HB).
    cbn [held_task option_list option_rect] in HA, HB. rewrite HB, <- HA.
    split; [done|]. split; [by apply Forall_insert|]. done.
  - by intros [= <-].
  - by intros [= <-].
Qed.

Lemma stopping_move n target queue p e p' :
  stopping n target queue p → move e p = Some p' → stopping n target queue p'.
Proof.
  intros Hs. destruct e as [| |task|m| |i]; try done.
  - by apply stopping_join.
  - by apply stopping_step.
Qed.

(** With nobody able to move, [stop] has returned and every held task has
    been called. *)
Lemma stopping_rest n target queue p :
  stopping n target queue p → quiescent p →
  caller_ p = Outside ∧ Forall (λ th, th = None) (threads_ p) ∧ executed p ≡ₚ target.
Proof.
  intros ((Hrun & _ & _ & Hj) & Hterm & Hawake & Hharm & Hperm) Hq.
  assert (caller_ p = Outside) as Hc.
  { pose proof (Hq Join) as Hjoin. cbn [move] in Hjoin. unfold join_step, joined in *.
    rewrite Hterm in Hjoin. destruct (caller_ p) as [|k [m|]]; [done|done|].
    destruct (threads_ p !! k) as [[[| | |task|]|]|] eqn:E; try done.
    - specialize (Hq (Worker k)). cbn [move] in Hq. unfold workerLoop_step in Hq.
      by rewrite Hterm, E, Hrun in Hq.
    - rewrite Forall_lookup in Hawake. by destruct (Hawake k _ E).
    - rewrite Forall_lookup in Hawake. by destruct (Hawake k _ E).
    - specialize (Hq (Worker k)). cbn [move] in Hq. unfold workerLoop_step in Hq.
      rewrite <- (app_nil_r (held p)) in Hharm.
      destruct (held_harmless _ _ _ _ Hharm E) as [_ Hback].
      rewrite Hterm, E in Hq. by destruct (call task). }
  unfold joined in Hj. rewrite Hc in Hj. repeat (split; [done|]).
  assert (held p = []) as Hh.
  { destruct (decide (held p = [])) as [|Hh]; [done|].
    apply held_nonempty in Hh as (i & task & E).
    rewrite Forall_lookup in Hj. by specialize (Hj i _ E). }
  rewrite Hh in Hperm. cbn [filter list_filter] in Hperm. by rewrite app_nil_r in Hperm.
Qed.

Lemma stop_stopping p :
  is_running_ p = true → terminated p = false →
  Forall (λ th, th ≠ Some Committed) (threads_ p) → all_harmless (held p) →
  stopping (length (threads_ p)) (executed p ++ to_call (held p)) (tasks_ p) (stop p).
Proof.
  intros Hp Hterm Hfree Hharm. split; [by apply stop_stopped|].
  unfold stop, stop_begin, held in *. rewrite Hp.
  cbn [negb set_caller set_threads set_running threads_ executed terminated].
  rewrite held_wake. split; [done|]. split; [|done].
  apply Forall_fmap. eapply Forall_impl; [apply Hfree|].
  intros [[]|]; cbn [wake compose]; by split.
Qed.

(** [stop] on a running pool returns when no worker is about to block
    inside [wait] at the moment of the call and the call of every task that
    a worker holds returns or throws a [std::exception].  Every worker then
    finishes the task it holds, if any, in whatever order they come to it,
    and leaves its loop: when [stop] has returned nobody moves any more,
    every thread is joined, the number of slots and the queue are as they
    were, and the calls made are those made before together with the tasks
    that were held. *)
Theorem stop_completes_held_tasks (p : t Task) :
  is_running_ p = true → terminated p = false →
  Forall (λ th, th ≠ Some Committed) (threads_ p) →
  Forall (λ task, harmless task = true) (held p) →
  eventually
    (λ q, caller_ q = Outside
          ∧ isRunning q = false
          ∧ getThreadCount q = getThreadCount p
          ∧ Forall (λ th, th = None) (threads_ q)
          ∧ tasks_ q = tasks_ p
          ∧ executed q ≡ₚ executed p ++ filter (λ task, callable task = true) (held p)
          ∧ quiescent q)
    (stop p).
Proof.
  intros Hp Hterm Hfree Hharm.
  apply (eventually_mono
           (λ q, stopping (length (threads_ p)) (executed p ++ to_call (held p))
                          (tasks_ p) q ∧ quiescent q)).
  { intros q [Hq1 Hq2]. destruct (stopping_rest _ _ _ _ Hq1 Hq2) as (Hc & Hnone & Hex).
    destruct Hq1 as ((Hrun & Htasks & Hlen & _) & _). done. }
  apply inevitable; [| |by apply stop_stopping].
  - intros q ((_ & _ & _ & Hj) & _) k n Hc. unfold joined in Hj. by rewrite Hc in Hj.
  - intros q e q'. apply stopping_move.
Qed.

(** *** [resize] when every worker is reached *)





(** *** [stop] and the queue *)

(** C10, as the code has it.  From the moment [stop] clears the flag nobody
    takes a task: whatever the workers and the joining client do, the queue
    stays as it was when [stop] was called, and the pool is not running.
    Once [stop] has returned, a following [start] puts the workers to the
    retained tasks: provided the call of each of them returns or throws a
    [std::exception], on every way the workers can take the pool comes to
    rest with the queue empty and with each retained task called once,
    besides the calls made before, an empty function object being taken
    from the queue without a call. *)
Theorem stop_keeps_queue (p : t Task) (trace : list event) :
  is_running_ p = true → threads_ p ≠ [] → no_call trace = true →
  tasks_ (run trace (stop p)) = tasks_ p
  ∧ isRunning (run trace (stop p)) = false
  ∧ (caller_ (run trace (stop p)) = Outside →
     terminated (run trace (stop p)) = false →
     Forall (λ task, harmless task = true) (tasks_ p) →
     eventually
       (λ q, executed q
             ≡ₚ executed (run trace (stop p))
                ++ filter (λ task, callable task = true) (tasks_ p)
             ∧ tasks_ q = [] ∧ quiescent q)
       (start (run trace (stop p)))).
Proof.
  intros Hp Hne Htr.
  pose proof (stopped_run _ _ _ trace (stop_stopped p Hp) Htr) as (Hrun & Htasks & Hlen & Hj).
  split; [done|]. split; [done|]. intros Hc Hterm Hharm.
  unfold joined in Hj. rewrite Hc in Hj.
  apply (eventually_mono
           (λ q, executed q ≡ₚ executed (run trace (stop p)) ++ to_call (tasks_ p)
                 ∧ tasks_ q = [] ∧ held q = [] ∧ quiescent q)).
  { intros q (? & ? & _ & ?). done. }
  apply serving_eventually. rewrite <- Htasks.
  apply serving_start; try done.
  - intros Hnil. rewrite Hnil in Hlen. by destruct (threads_ p).
  - by rewrite Htasks.
Qed.

(** *** One worker *)

(** A pool with a single worker calls the tasks in the order in which they
    were handed to [enqueue]: provided the call of each of them returns or
    throws a [std::exception], however the calls of [enqueue] and the steps
    of the worker interleave, the pool comes to rest with the queue empty
    and the record of calls equal to the list of enqueued tasks, empty
    function objects left out. *)
Theorem single_worker_runs_in_order (trace : list (@event Task)) :
  in_service trace = true →
  Forall (λ task, harmless task = true) (enqueued trace) →
  eventually
    (λ q, executed q = filter (λ task, callable task = true) (enqueued trace)
          ∧ tasks_ q = [] ∧ quiescent q)
    (run trace (start (create 1))).
Proof.
  intros Htr Hharm.
  apply (eventually_mono
           (λ q, executed q = [] ++ to_call (enqueued trace)
                 ∧ tasks_ q = [] ∧ held q = [] ∧ quiescent q)).
  { intros q (? & ? & _ & ?). done. }
  apply alone_eventually. apply alone_run; [|done|done].
  repeat (split; [done|]). split; [by exists Idle|]. done.
Qed.

End PoolStop.

Section PoolExamples.

Import ThreadPool.

Lemma enqueued_no_call {Task : Type} (trace : list (@event Task)) :
  no_call trace = true → enqueued trace = [].
Proof.
  induction trace as [|e trace IH]; [done|]. cbn [no_call forallb].
  intros H. apply andb_true_iff in H as [He H]. destruct e; try done; by apply IH.
Qed.

(** C1: the code drops what the claim, and the repository's test
    [QueueSize], expect to be queued.  Ten tasks handed to a new pool of
    four leave the queue empty, as two tasks do; after [start] the pool
    runs with four workers and an empty queue, and whatever the workers do
    no task is ever called. *)
Lemma tasks_enqueued_before_start_are_dropped :
  getQueueSize (foldl (λ q task, enqueue task q) (create 4) (seq 1 10)) = 0
  ∧ getQueueSize (enqueue 12 (enqueue 11 (create 4))) = 0
  ∧ getThreadCount PoolScenario.started_late = 4
  ∧ isRunning PoolScenario.started_late = true
  ∧ getQueueSize PoolScenario.started_late = 0
  ∧ ∀ trace, no_call trace = true →
      executed (run trace PoolScenario.started_late) = []
      ∧ tasks_ (run trace PoolScenario.started_late) = [].
Proof.
  repeat (split; [done|]). intros trace Htr.
  pose proof (accounted_run trace PoolScenario.started_late [] (submseteq_nil_l _)) as H.
  rewrite (enqueued_no_call trace Htr) in H. apply submseteq_nil_r in H.
  unfold accounted in H. apply app_eq_nil in H as [H1 H2].
  apply app_eq_nil in H2 as [_ H2]. done.
Qed.

Lemma enqueue_only_while_running_witness :
  absent 7 (run PoolScenario.later (enqueue 7 (create 4))).
Proof.
  apply (proj2 (proj2 (enqueue_only_while_running (create 4) 7 PoolScenario.later))).
  - reflexivity.
  - repeat split; apply not_elem_of_nil.
  - unfold PoolScenario.later. rewrite !not_elem_of_cons.
    repeat (split; [discriminate|]). apply not_elem_of_nil.
Defined.

Example too_early_task_is_gone :
  executed (run PoolScenario.later (enqueue 7 (create 4))) = [1; 2]
  ∧ tasks_ (run PoolScenario.later (enqueue 7 (create 4))) = []
  ∧ getThreadCount (run PoolScenario.later (enqueue 7 (create 4))) = 2.
Proof. by vm_compute. Qed.

Example ten_tasks_progress :
  enqueued PoolScenario.ten_tasks = seq 1 10
  ∧ executed (run PoolScenario.ten_tasks (start (create 4))) = [1]
  ∧ held (run PoolScenario.ten_tasks (start (create 4))) = [4; 2; 5; 3]
  ∧ tasks_ (run PoolScenario.ten_tasks (start (create 4))) = [6; 7; 8; 9; 10].
Proof. by vm_compute. Qed.

(** C9: [resize] on a running pool can block for ever.  The worker of a
    pool of one has found the queue empty and is about to block inside
    [wait] when [resize(2)] is called: [stop] clears the flag and notifies
    nobody, the worker blocks, and the client waits in [join].  Nobody can
    move again: the pool stays stopped, with its one old thread, and never
    gets two workers. *)
Lemma resize_blocks_when_a_worker_misses_the_wakeup :
  isRunning PoolScenario.about_to_block = true
  ∧ threads_ PoolScenario.about_to_block = [Some Committed]
  ∧ PoolScenario.resized
    = {| threads_ := [Some Blocked]; tasks_ := []; is_running_ := false;
         executed := []; terminated := false; caller_ := Joining 0 (Some 2) |}
  ∧ quiescent PoolScenario.resized
  ∧ ∀ trace, no_call trace = true →
      run trace PoolScenario.resized = PoolScenario.resized.
Proof.
  assert (quiescent PoolScenario.resized) as Hq.
  { intros [| |task|n| |[|i]]; reflexivity. }
  repeat (split; [done|]). intros trace. induction trace as [|e trace IH]; [done|].
  cbn [no_call forallb]. intros H. apply andb_true_iff in H as [He H].
  cbn [run foldl]. destruct e as [| |task|n| |i]; try done; cbn [apply_event].
  - rewrite (Hq Join). by apply IH.
  - rewrite (Hq (Worker i)). by apply IH.
Qed.

Example resize_without_the_race :
  run [Resize 2; Worker 0; Worker 0; Join; Join]
      (run [Worker 0; Worker 0] (start (create (Task := nat) 1)))
  = start (create 2).
Proof. reflexivity. Qed.

(** C10 as stated fails: the pool [left_over] is one on which [stop] has
    returned with two tasks in the queue, the first of which throws an
    [int].  After [start] the worker takes and calls the first task, which
    ends the process: the second task stays in the queue and is never
    called. *)
Lemma retained_task_is_never_called :
  caller_ PoolScenario.left_over = Outside
  ∧ isRunning PoolScenario.left_over = false
  ∧ tasks_ PoolScenario.left_over = [101; 2]
  ∧ run [Worker 0; Worker 0] (start PoolScenario.left_over)
    = {| threads_ := [Some Finished]; tasks_ := [2]; is_running_ := true;
         executed := [1; 101]; terminated := true; caller_ := Outside |}
  ∧ quiescent (run [Worker 0; Worker 0] (start PoolScenario.left_over))
  ∧ ¬ eventually (λ q, 2 ∈ executed q) (start PoolScenario.left_over).
Proof.
  assert (start PoolScenario.left_over
          = {| threads_ := [Some Idle]; tasks_ := [101; 2]; is_running_ := true;
               executed := [1]; terminated := false; caller_ := Outside |}) as E0
    by (by vm_compute).
  split; [by vm_compute|]. split; [by vm_compute|]. split; [by vm_compute|].
  rewrite E0. split; [by vm_compute|]. split.
  { intros [| |task|n| |i]; reflexivity. }
  assert (∀ l : list nat, l = [1] ∨ l = [1; 101] → 2 ∉ l) as Hnot.
  { intros l [-> | ->]; rewrite !not_elem_of_cons;
      repeat (split; [discriminate|]); apply not_elem_of_nil. }
  intros [Hin | _ Hnext].
  { revert Hin. apply Hnot. by left. }
  specialize (Hnext (Worker 0) _ eq_refl) as [Hin | _ Hnext'].
  { revert Hin. apply Hnot. by left. }
  specialize (Hnext' (Worker 0) _ eq_refl) as [Hin | [e [q He]] _].
  { revert Hin. apply Hnot. by right. }
  revert He. by destruct e as [| |task|n| |i].
Qed.

Lemma stop_keeps_queue_witness :
  tasks_ (run [Worker 0; Join; Worker 0; Worker 1; Join; Join; Join]
            (stop PoolScenario.busy))
  = tasks_ PoolScenario.busy
  ∧ isRunning (run [Worker 0; Join; Worker 0; Worker 1; Join; Join; Join]
                 (stop PoolScenario.busy)) = false
  ∧ eventually
      (λ q, executed q
            ≡ₚ executed (run [Worker 0; Join; Worker 0; Worker 1; Join; Join; Join]
                           (stop PoolScenario.busy))
               ++ filter (λ task, callable task = true) (tasks_ PoolScenario.busy)
            ∧ tasks_ q = [] ∧ quiescent q)
      (start (run [Worker 0; Join; Worker 0; Worker 1; Join; Join; Join]
                (stop PoolScenario.busy))).
Proof.
  destruct (stop_keeps_queue PoolScenario.busy
              [Worker 0; Join; Worker 0; Worker 1; Join; Join; Join])
    as (Htasks & Hrun & Hlater); [reflexivity|discriminate|reflexivity|].
  split; [exact Htasks|]. split; [exact Hrun|].
  apply Hlater; [reflexivity|reflexivity|]. vm_compute. repeat constructor.
Defined.

Example busy_pool_stopped :
  tasks_ PoolScenario.busy = [2; 3]
  ∧ held PoolScenario.busy = [1]
  ∧ run [Worker 0; Join; Worker 0; Worker 1; Join; Join; Join] (stop PoolScenario.busy)
    = {| threads_ := [None; None]; tasks_ := [2; 3]; is_running_ := false;
         executed := [1]; terminated := false; caller_ := Outside |}
  ∧ executed (run [Worker 0; Worker 1; Worker 1; Worker 0]
                (start (run [Worker 0; Join; Worker 0; Worker 1; Join; Join; Join]
                          (stop PoolScenario.busy)))) = [1; 3; 2].
Proof. by vm_compute. Qed.

Lemma single_worker_runs_in_order_witness :
  eventually
    (λ q, executed q = filter (λ task, callable task = true) (enqueued PoolScenario.ten_tasks)
          ∧ tasks_ q = [] ∧ quiescent q)
    (run PoolScenario.ten_tasks (start (create 1))).
Proof.
  apply (single_worker_runs_in_order PoolScenario.ten_tasks); [reflexivity|].
  vm_compute. repeat constructor.
Defined.

Lemma stop_completes_held_tasks_witness :
  eventually
    (λ q, caller_ q = Outside
          ∧ isRunning q = false
          ∧ getThreadCount q = getThreadCount PoolScenario.busy
          ∧ Forall (λ th, th = None) (threads_ q)
          ∧ tasks_ q = tasks_ PoolScenario.busy
          ∧ executed q
            ≡ₚ executed PoolScenario.busy
               ++ filter (λ task, callable task = true) (held PoolScenario.busy)
          ∧ quiescent q)
    (stop PoolScenario.busy).
Proof.
  apply (stop_completes_held_tasks PoolScenario.busy); [reflexivity|reflexivity| |].
  - vm_compute. repeat constructor; discriminate.
  - vm_compute. repeat constructor.
Defined.


(** On a pool that is not running [resize] only changes the number of
    slots, with 0 taken as 1. *)
Example resize_of_a_stopped_pool :
  resize 0 (create (Task := nat) 4) = create 1
  ∧ getThreadCount (resize 3 (create (Task := nat) 4)) = 3
  ∧ isRunning (resize 3 (create (Task := nat) 4)) = false
  ∧ live_workers (resize 3 (create (Task := nat) 4)) = 0
  ∧ live_workers (start (resize 0 (create (Task := nat) 4))) = 1.
Proof. by vm_compute. Qed.

(** A task that does not come back keeps its worker, and with it the client
    that calls [stop]. *)
Example stop_waits_for_a_task_that_does_not_return :
  run [Enqueue 102; Worker 0; Stop; Worker 0; Join] (start (create 1))
  = {| threads_ := [Some (Running 102)]; tasks_ := []; is_running_ := false;
       executed := []; terminated := false; caller_ := Joining 0 None |}
  ∧ quiescent (run [Enqueue 102; Worker 0; Stop; Worker 0; Join] (start (create 1))).
Proof.
  split; [reflexivity|]. intros [| |task|n| |[|i]]; reflexivity.
Qed.

Example single_worker_order :
  executed (run [Enqueue 3; Enqueue 1; Worker 0; Enqueue 2; Worker 0; Worker 0; Worker 0;
                 Worker 0; Worker 0]
              (start (create 1)))
  = [3; 1; 2].
Proof. reflexivity. Qed.

Example two_workers_may_reorder :
  executed (run [Enqueue 1; Enqueue 2; Worker 0; Worker 1; Worker 1; Worker 0]
              (start (create 2)))
  = [2; 1].
Proof. reflexivity. Qed.

(** An empty function object is taken from the queue and not called; a task
    that throws a [std::exception] is called and the worker goes on; a task
    that throws anything else ends the process with the tasks behind it
    still in the queue. *)
Example what_tasks_do :
  run [Enqueue 0; Enqueue 100; Enqueue 101; Enqueue 5;
       Worker 0; Worker 0; Worker 0; Worker 0; Worker 0; Worker 0; Worker 0; Enqueue 6]
      (start (create 1))
  = {| threads_ := [Some Finished]; tasks_ := [5]; is_running_ := true;
       executed := [100; 101]; terminated := true; caller_ := Outside |}.
Proof. reflexivity. Qed.

End PoolExamples.

(** * Further properties *)

Local Open Scope string_scope.

(** ** HttpRequest: request line, methods, decoding *)

Section RequestLine.

Import HttpRequest.

Lemma extract_nonempty stream tok rest : extract stream = Some (tok, rest) → tok ≠ "".
Proof.
  unfold extract. destruct (read_token (skip_space stream)) as [[|c t] r]; [done|].
  by intros [= <- <-].
Qed.

Lemma tokens_three line m p v rest :
  tokens line = m :: p :: v :: rest →
  ∃ s1 s2 s3,
    extract line = Some (m, s1) ∧ extract s1 = Some (p, s2) ∧ extract s2 = Some (v, s3).
Proof.
  rewrite tokens_extract. destruct (extract line) as [[m' s1]|] eqn:E1; [|done].
  rewrite tokens_extract. destruct (extract s1) as [[p' s2]|] eqn:E2; [|done].
  rewrite tokens_extract. destruct (extract s2) as [[v' s3]|] eqn:E3; [|done].
  intros [= -> -> -> _]. by exists s1, s2, s3.
Qed.

Lemma first_line_tokens raw :
  tokens (first_line raw) ≠ [] →
  ∃ l0 ls, getlines "010" raw = l0 :: ls ∧ first_line raw = pop_back_if "013" l0
           ∧ String.eqb raw "" = false.
Proof.
  unfold first_line. destruct raw as [|c raw]; [done|]. intros _.
  destruct (getlines "010" (String c raw)) as [|l0 ls] eqn:E.
  - by apply getlines_nonempty in E.
  - by exists l0, ls.
Qed.

(** The request that [parse] builds from a request line with three tokens
    and an HTTP version. *)
Lemma parse_accepts raw r m p v rest :
  tokens (first_line raw) = m :: p :: v :: rest →
  starts_with "HTTP/" v = true →
  ∃ l0 ls,
    getlines "010" raw = l0 :: ls
    ∧ parse raw r =
        (true,
         {| method_ := stringToMethod m;
            path_ := urlDecode (from_option fst p (split_first "?" p));
            version_ := v;
            body_ := read_body (read_header_lines ls).2;
            headers_ := parseHeaders (read_header_lines ls).1 (headers_ r);
            query_params_ :=
              from_option (λ pq, parseQueryParams pq.2 (query_params_ r))
                          (query_params_ r) (split_first "?" p);
            is_valid_ := true |}).
Proof.
  intros Ht Hv.
  destruct (first_line_tokens raw) as (l0 & ls & Hl & Hf & Hraw); [by rewrite Ht|].
  exists l0, ls. split; [done|].
  rewrite Hf in Ht. apply tokens_three in Ht as (s1 & s2 & s3 & E1 & E2 & E3).
  unfold parse. rewrite Hraw, Hl, E1, E2, E3, Hv.
  apply extract_nonempty, String.eqb_neq in E1, E2, E3. rewrite E1, E2, E3.
  cbn [orb negb]. destruct (split_first "?" p) as [[p' q]|];
    cbn [from_option fst snd]; by destruct (read_header_lines ls).
Qed.

(** A request is valid exactly when its first line, without the carriage
    return, starts with three white-space separated tokens of which the
    third begins with "HTTP/"; what follows the third token is not read. *)
Theorem parse_valid_iff (raw : string) :
  isValid (of_raw raw) = true
  ↔ ∃ m p v rest,
      tokens (first_line raw) = m :: p :: v :: rest ∧ starts_with "HTTP/" v = true.
Proof.
  split.
  - unfold of_raw, isValid, parse, first_line.
    destruct (String.eqb raw ""); [done|].
    destruct (getlines "010" raw) as [|l0 ls]; [done|].
    rewrite (tokens_extract (pop_back_if "013" l0)).
    destruct (extract (pop_back_if "013" l0)) as [[m s1]|]; [|done].
    rewrite (tokens_extract s1). destruct (extract s1) as [[p s2]|]; [|done].
    rewrite (tokens_extract s2). destruct (extract s2) as [[v s3]|]; [|done].
    destruct (String.eqb m "" || String.eqb p "" || String.eqb v ""); [done|].
    destruct (starts_with "HTTP/" v) eqn:Hv; [|done].
    intros _. by exists m, p, v, (tokens s3).
  - intros (m & p & v & rest & Ht & Hv).
    destruct (parse_accepts raw init m p v rest Ht Hv) as (l0 & ls & _ & E).
    unfold of_raw, isValid. by rewrite E.
Qed.

Lemma parse_valid_iff_witness : isValid (of_raw "get /a?x=1 HTTP/1.0 trailing words") = true.
Proof.
  apply (proj2 (parse_valid_iff "get /a?x=1 HTTP/1.0 trailing words")).
  exists "get", "/a?x=1", "HTTP/1.0", ["trailing"; "words"]. by vm_compute.
Defined.

(** A valid request carries the method named by the first token, the third
    token as its version, and as its path the decoding of the second token
    up to its first question mark; what follows the question mark fills the
    query parameters. *)
Theorem parse_request_line (raw m p v : string) (rest : list string) :
  tokens (first_line raw) = m :: p :: v :: rest →
  starts_with "HTTP/" v = true →
  getMethod (of_raw raw) = stringToMethod m
  ∧ getVersion (of_raw raw) = v
  ∧ getPath (of_raw raw) = urlDecode (from_option fst p (split_first "?" p))
  ∧ query_params_ (of_raw raw)
    = from_option (λ pq, parseQueryParams pq.2 ∅) ∅ (split_first "?" p).
Proof.
  intros Ht Hv.
  destruct (parse_accepts raw init m p v rest Ht Hv) as (l0 & ls & _ & E).
  unfold of_raw, getMethod, getVersion, getPath. by rewrite E.
Qed.

Lemma parse_request_line_witness :
  getMethod (of_raw "get /a%20b?x=1 HTTP/1.0") = stringToMethod "get"
  ∧ getVersion (of_raw "get /a%20b?x=1 HTTP/1.0") = "HTTP/1.0"
  ∧ getPath (of_raw "get /a%20b?x=1 HTTP/1.0")
    = urlDecode (from_option fst "/a%20b?x=1" (split_first "?" "/a%20b?x=1"))
  ∧ query_params_ (of_raw "get /a%20b?x=1 HTTP/1.0")
    = from_option (λ pq, parseQueryParams pq.2 ∅) ∅ (split_first "?" "/a%20b?x=1").
Proof.
  apply (parse_request_line "get /a%20b?x=1 HTTP/1.0" "get" "/a%20b?x=1" "HTTP/1.0" []);
    by vm_compute.
Defined.

(** *** Methods *)

(** Every method is read back from its name, in whatever case the name is
    written: a string whose upper-casing is the name of [m] denotes [m]. *)
Theorem stringToMethod_of_name (m : Method) (s : string) :
  string_map toupper s = methodToString m → stringToMethod s = m.
Proof. intros H. unfold stringToMethod. rewrite H. by destruct m. Qed.

Lemma stringToMethod_of_name_witness : stringToMethod "oPtIoNs" = OPTIONS.
Proof. apply (stringToMethod_of_name OPTIONS "oPtIoNs"). reflexivity. Defined.

End RequestLine.

(** ** HttpRequest: percent-decoding *)

Section Decoding.

Import HttpRequest.

(** Decoding never makes a string longer. *)
Theorem urlDecode_length (s : string) :
  (String.length (urlDecode s) ≤ String.length s)%nat.
Proof. by apply (urlDecode_length_upto (String.length s)). Qed.

Lemma hex_digit_char c v :
  hex_digit c = Some v →
  isspace c = false ∧ Ascii.eqb c "-" = false ∧ Ascii.eqb c "+" = false
  ∧ (0 ≤ v ≤ 15)%Z.
Proof.
  intros H. destruct c as [[] [] [] [] [] [] [] []]; vm_compute in H;
    (discriminate H || (injection H as <-; vm_compute; repeat split; discriminate)).
Qed.

Lemma stoi16_two_hex a b va vb :
  hex_digit a = Some va → hex_digit b = Some vb →
  stoi16 (String a (String b "")) = Some (16 * va + vb)%Z.
Proof.
  intros Ha Hb.
  destruct (hex_digit_char a va Ha) as (Hs & Hm & Hp & Hva).
  destruct (hex_digit_char b vb Hb) as (_ & _ & _ & Hvb).
  unfold stoi16. cbn [skip_space]. rewrite Hs, Hm, Hp.
  cbn [strip_0x hex_digits]. rewrite Ha, Hb. cbn [default from_option]. unfold id.
  replace (16 * (16 * 0 + va) + vb)%Z with (16 * va + vb)%Z by lia.
  destruct (Z.leb_spec (-2147483648) (16 * va + vb)); [|lia].
  destruct (Z.leb_spec (16 * va + vb) 2147483647); [done|lia].
Qed.

(** A percent sign followed by two hexadecimal digits decodes to the one
    byte they denote, and decoding goes on after the second digit. *)
Theorem urlDecode_escape (a b : ascii) (va vb : Z) (rest : string) :
  hex_digit a = Some va → hex_digit b = Some vb →
  urlDecode (String "%" (String a (String b rest)))
  = String (char_of_int (16 * va + vb)) (urlDecode rest)
  ∧ byte_val (char_of_int (16 * va + vb)) = (16 * va + vb)%Z.
Proof.
  intros Ha Hb. split.
  - cbn [urlDecode]. change (Ascii.eqb "%" "%") with true. cbv iota.
    by rewrite (stoi16_two_hex a b va vb).
  - destruct (hex_digit_char a va Ha) as (_ & _ & _ & Hva).
    destruct (hex_digit_char b vb Hb) as (_ & _ & _ & Hvb).
    unfold byte_val, char_of_int. rewrite N_ascii_embedding.
    + rewrite Z2N.id; [|apply Z.mod_pos_bound; lia]. apply Z.mod_small. lia.
    + apply N2Z.inj_lt. rewrite Z2N.id; [|apply Z.mod_pos_bound; lia].
      apply Z.mod_pos_bound. lia.
Qed.

Lemma urlDecode_escape_witness :
  urlDecode (String "%" (String "4" (String "f" "k")))
  = String (char_of_int (16 * 4 + 15)) (urlDecode "k")
  ∧ byte_val (char_of_int (16 * 4 + 15)) = (16 * 4 + 15)%Z.
Proof. apply (urlDecode_escape "4" "f" 4 15 "k"); reflexivity. Defined.

End Decoding.

(** ** HttpRequest: query parameters and headers *)

Section QueryAndHeaders.

Import HttpRequest.

Lemma contains_app c s1 s2 : contains c (s1 ++ s2) = contains c s1 || contains c s2.
Proof.
  induction s1 as [|a s1 IH]; [done|].
  change (String a s1 ++ s2) with (String a (s1 ++ s2)). cbn [contains].
  by destruct (Ascii.eqb a c).
Qed.

Lemma split_first_app c k v :
  contains c k = false → split_first c (k ++ String c v) = Some (k, v).
Proof.
  induction k as [|a k IH]; intros Hk.
  - change ("" ++ String c v) with (String c v). cbn [split_first].
    by rewrite Ascii.eqb_refl.
  - change (String a k ++ String c v) with (String a (k ++ String c v)).
    cbn [contains split_first] in *. destruct (Ascii.eqb a c); [done|].
    by rewrite IH.
Qed.

Lemma split_first_none c s : contains c s = false → split_first c s = None.
Proof.
  induction s as [|a s IH]; [done|]. cbn [contains split_first].
  destruct (Ascii.eqb a c); [done|]. intros H. by rewrite IH.
Qed.

Lemma getlines_plain delim s :
  s ≠ "" → contains delim s = false → getlines delim s = [s].
Proof.
  induction s as [|c s IH]; [done|]. intros _. cbn [contains getlines].
  destruct (Ascii.eqb c delim); [done|]. intros Hs.
  destruct s as [|c' s']; [done|]. by rewrite IH.
Qed.

(** The text after the last delimiter is the last line that [getline]
    delivers. *)
Lemma getlines_last delim q s :
  s ≠ "" → contains delim s = false →
  ∃ l0 L, getlines delim (q ++ String delim s) = l0 :: L ++ [s].
Proof.
  intros Hs Hc. induction q as [|c q (l0 & L & IH)].
  - change ("" ++ String delim s) with (String delim s). cbn [getlines].
    rewrite Ascii.eqb_refl, getlines_plain by done. by exists "", [].
  - change (String c q ++ String delim s) with (String c (q ++ String delim s)).
    cbn [getlines]. rewrite IH. destruct (Ascii.eqb c delim).
    + by exists "", (l0 :: L).
    + by exists (String c l0), L.
Qed.

(** The last pair of a query string decides the value of its name: a pair
    [k=v] stores the decoding of [v] under the decoding of [k], whatever the
    pairs before it stored, and a last pair without an equals sign stores
    the empty string. *)
Theorem query_last_pair_wins (q k v : string) (qp : gmap string string) :
  contains "=" k = false → contains "&" k = false → contains "&" v = false →
  parseQueryParams (q ++ "&" ++ k ++ "=" ++ v) qp !! urlDecode k = Some (urlDecode v)
  ∧ parseQueryParams (k ++ "=" ++ v) qp !! urlDecode k = Some (urlDecode v)
  ∧ (k ≠ "" → parseQueryParams (q ++ "&" ++ k) qp !! urlDecode k = Some "").
Proof.
  intros Hk1 Hk2 Hv.
  assert (k ++ "=" ++ v ≠ "") as Hne by (by destruct k).
  assert (contains "&" (k ++ "=" ++ v) = false) as Hpair.
  { rewrite contains_app, Hk2. by cbn [contains orb Ascii.eqb]. }
  assert (∀ m, add_query_pair m (k ++ "=" ++ v) !! urlDecode k = Some (urlDecode v))
    as Hadd.
  { intros m. unfold add_query_pair.
    change (k ++ "=" ++ v) with (k ++ String "=" v).
    rewrite split_first_app by done. apply lookup_insert_eq. }
  unfold parseQueryParams. split; [|split].
  - change (q ++ "&" ++ k ++ "=" ++ v) with (q ++ String "&" (k ++ "=" ++ v)).
    destruct (getlines_last "&" q (k ++ "=" ++ v) Hne Hpair) as (l0 & L & ->).
    rewrite app_comm_cons, foldl_app. apply Hadd.
  - rewrite getlines_plain by done. apply Hadd.
  - intros Hk. change (q ++ "&" ++ k) with (q ++ String "&" k).
    destruct (getlines_last "&" q k Hk Hk2) as (l0 & L & ->).
    rewrite app_comm_cons, foldl_app. cbn [foldl]. unfold add_query_pair.
    rewrite split_first_none by done. apply lookup_insert_eq.
Qed.

Lemma query_last_pair_wins_witness :
  parseQueryParams ("a=1&a=2" ++ "&" ++ "a" ++ "=" ++ "x%20y") ∅ !! urlDecode "a"
  = Some (urlDecode "x%20y")
  ∧ parseQueryParams ("a" ++ "=" ++ "x%20y") ∅ !! urlDecode "a" = Some (urlDecode "x%20y")
  ∧ ("a" ≠ "" → parseQueryParams ("a=1&a=2" ++ "&" ++ "a") ∅ !! urlDecode "a" = Some "").
Proof. apply (query_last_pair_wins "a=1&a=2" "a" "x%20y" ∅); reflexivity. Defined.

(** The last header line decides the value of its name: a line [name:value]
    stores the trimmed value under the trimmed name, whatever the lines
    before it stored; a line without a colon stores nothing. *)
Theorem header_last_line_wins
    (lines : list string) (name value line : string) (hs : gmap string string) :
  contains ":" name = false → contains ":" line = false →
  parseHeaders (lines ++ [name ++ ":" ++ value]) hs !! trim name = Some (trim value)
  ∧ parseHeaders (lines ++ [line]) hs = parseHeaders lines hs.
Proof.
  intros Hn Hl. unfold parseHeaders. rewrite !foldl_app. cbn [foldl].
  unfold add_header_line at 1 3. split.
  - change (name ++ ":" ++ value) with (name ++ String ":" value).
    rewrite split_first_app by done. apply lookup_insert_eq.
  - by rewrite split_first_none.
Qed.

Lemma header_last_line_wins_witness :
  parseHeaders (["Host: a"; "Host: b"] ++ [" Host " ++ ":" ++ "  c : d  "]) ∅ !! trim " Host "
  = Some (trim "  c : d  ")
  ∧ parseHeaders (["Host: a"; "Host: b"] ++ ["no colon here"]) ∅
    = parseHeaders ["Host: a"; "Host: b"] ∅.
Proof.
  apply (header_last_line_wins ["Host: a"; "Host: b"] " Host " "  c : d  " "no colon here" ∅);
    reflexivity.
Defined.

Example trim_examples :
  trim " Host " = "Host" ∧ trim "  c : d  " = "c : d" ∧ trim "   " = "" ∧ trim "" = "".
Proof. by vm_compute. Qed.

End QueryAndHeaders.

(** ** HttpRequest: the declared content length *)

Section ContentLength.

Import HttpRequest.

Lemma digit_cases (m : N) : (m < 10)%N → ∃ k : nat, (k < 10)%nat ∧ m = N.of_nat k.
Proof. intros H. exists (N.to_nat m). lia. Qed.

Lemma dec_digit_pretty m :
  (m < 10)%N →
  dec_digit (pretty_N_char m) = Some (Z.of_N m)
  ∧ isspace (pretty_N_char m) = false
  ∧ Ascii.eqb (pretty_N_char m) "-" = false
  ∧ Ascii.eqb (pretty_N_char m) "+" = false.
Proof.
  intros H. destruct (digit_cases m H) as (k & Hk & ->).
  do 10 (destruct k as [|k]; [by vm_compute|]). lia.
Qed.

(** Reading the digits that [std::to_string] writes for [x] in front of [s]
    shifts what was read before and adds [x]. *)
Lemma dec_digits_pretty_go x :
  (0 < x)%N →
  ∀ s acc, ∃ k : nat,
    dec_digits acc (pretty_N_go x s)
    = dec_digits (Some (default 0 acc * 10 ^ Z.of_nat k + Z.of_N x)%Z) s.
Proof.
  induction (N.lt_wf_0 x) as [x _ IH]. intros Hx s acc.
  rewrite pretty_N_go_step by done.
  pose proof (N.div_mod x 10 ltac:(done)) as Hdm.
  assert (x `mod` 10 < 10)%N as Hd by (by apply N.mod_lt).
  destruct (dec_digit_pretty _ Hd) as (Hdigit & _).
  destruct (decide (x `div` 10 = 0)%N) as [H0|H0].
  - rewrite H0, pretty_N_go_0. cbn [dec_digits]. rewrite Hdigit.
    exists 1%nat. do 2 f_equal. change (10 ^ Z.of_nat 1)%Z with 10%Z. lia.
  - destruct (IH (x `div` 10)%N) with
      (s := String (pretty_N_char (x `mod` 10)) s) (acc := acc) as [k Hk].
    { apply N.div_lt; lia. }
    { lia. }
    rewrite Hk. cbn [dec_digits]. rewrite Hdigit. cbn [default from_option]. unfold id.
    exists (S k). do 2 f_equal. rewrite Nat2Z.inj_succ, Z.pow_succ_r by lia. lia.
Qed.

Lemma pretty_go_head x s :
  (0 < x)%N → ∃ m s', (m < 10)%N ∧ pretty_N_go x s = String (pretty_N_char m) s'.
Proof.
  revert s. induction (N.lt_wf_0 x) as [x _ IH]. intros s Hx.
  rewrite pretty_N_go_step by done.
  destruct (decide (x `div` 10 = 0)%N) as [H0|H0].
  - rewrite H0, pretty_N_go_0. eexists _, _. split; [|done]. by apply N.mod_lt.
  - assert (x `div` 10 < x)%N as Hlt by (apply N.div_lt; lia).
    assert (0 < x `div` 10)%N as Hpos by (by apply N.neq_0_lt_0).
    apply (IH _ Hlt _ Hpos).
Qed.

(** What [std::stoull] reads from the decimal representation of [x]. *)
Lemma stoull_pretty (x : N) :
  pretty x ≠ ""
  ∧ stoull (pretty x)
    = if (Z.of_N x <=? 18446744073709551615)%Z then Some (Z.of_N x) else None.
Proof.
  unfold pretty, pretty_N. destruct (decide (x = 0)%N) as [->|Hx]; [done|].
  assert (0 < x)%N as Hpos by lia.
  destruct (pretty_go_head x "" Hpos) as (m & s' & Hm & Hhead).
  destruct (dec_digit_pretty m Hm) as (_ & Hs & Hminus & Hplus).
  split; [by rewrite Hhead|].
  unfold stoull. rewrite Hhead. cbn [skip_space]. rewrite Hs, Hminus, Hplus.
  rewrite <- Hhead.
  destruct (dec_digits_pretty_go x Hpos "" None) as [k ->].
  cbn [dec_digits default from_option]. by rewrite Z.mul_0_l, Z.add_0_l.
Qed.

(** A Content-Length header that holds the decimal representation of a
    number below 2^64 is read back as that number; a larger number, like a
    missing header, reads as 0. *)
Theorem getContentLength_reads_decimal (x : N) (r : t) :
  ((Z.of_N x < 2 ^ 64)%Z →
   getContentLength (setHeader "Content-Length" (pretty x) r) = Z.of_N x)
  ∧ ((2 ^ 64 ≤ Z.of_N x)%Z →
     getContentLength (setHeader "Content-Length" (pretty x) r) = 0%Z)
  ∧ (headers_ r !! "Content-Length" = None → getContentLength r = 0%Z).
Proof.
  destruct (stoull_pretty x) as [Hne Hx].
  assert (getContentLength (setHeader "Content-Length" (pretty x) r)
          = if (Z.of_N x <=? 18446744073709551615)%Z then Z.of_N x else 0%Z) as Hget.
  { unfold getContentLength, getHeader, setHeader. cbn [headers_].
    rewrite lookup_insert_eq. cbn [default from_option]. unfold id.
    apply String.eqb_neq in Hne. rewrite Hne, Hx.
    by destruct (Z.of_N x <=? 18446744073709551615)%Z. }
  split; [|split].
  - intros H. rewrite Hget. destruct (Z.leb_spec (Z.of_N x) 18446744073709551615); lia.
  - intros H. rewrite Hget. destruct (Z.leb_spec (Z.of_N x) 18446744073709551615); lia.
  - intros H. unfold getContentLength, getHeader. by rewrite H.
Qed.

Lemma getContentLength_reads_decimal_witness :
  getContentLength (setHeader "Content-Length" (pretty 1234%N) init) = 1234%Z.
Proof.
  apply (proj1 (getContentLength_reads_decimal 1234 init)). reflexivity.
Defined.

Example getContentLength_odd_values :
  getContentLength (setHeader "Content-Length" "12abc" init) = 12%Z
  ∧ getContentLength (setHeader "Content-Length" " +7" init) = 7%Z
  ∧ getContentLength (setHeader "Content-Length" "abc" init) = 0%Z
  ∧ getContentLength (setHeader "Content-Length" "-1" init) = 18446744073709551615%Z.
Proof. by vm_compute. Qed.

End ContentLength.

(** ** HttpResponse: headers, bodies and the serialized form *)

Section ResponseMore.

Import HttpResponse.

Context (fs : string → option string).

Lemma setBody_declares body r : length_declared (setBody body r).
Proof. unfold length_declared. cbn. apply lookup_insert_eq. Qed.

Lemma sets_length_declares c r :
  sets_length c = true → length_declared (apply_call fs r c).
Proof.
  destruct c; try done; intros _; cbn [apply_call]; try apply setBody_declares.
  unfold setFileContent. destruct (fs file_path); apply setBody_declares.
Qed.

Lemma leaves_length_keeps c r :
  leaves_length c = true → length_declared r → length_declared (apply_call fs r c).
Proof.
  destruct (sets_length c) eqn:Hs; [intros _ _; by apply sets_length_declares|].
  destruct c; try done; unfold length_declared; cbn.
  - intros Hn Hr. apply negb_true_iff, String.eqb_neq in Hn.
    by rewrite lookup_insert_ne.
  - intros _ Hr. by rewrite !lookup_insert_ne.
Qed.

(** The declared length follows the body.  After any sequence of calls in
    which no [setHeader] names Content-Length, the header states the length
    of the body, provided it did so at the start or some call of the
    sequence set the body. *)
Theorem content_length_follows_body (calls : list call) (r : t) :
  forallb leaves_length calls = true →
  length_declared r ∨ existsb sets_length calls = true →
  length_declared (foldl (apply_call fs) r calls).
Proof.
  revert r. induction calls as [|c calls IH]; intros r Hl Hs.
  - by destruct Hs.
  - cbn [forallb existsb foldl] in *. apply andb_true_iff in Hl as [Hc Hl].
    apply IH; [done|]. destruct (sets_length c) eqn:Hset.
    + left. by apply sets_length_declares.
    + destruct Hs as [Hr|Hs]; [left; by apply leaves_length_keeps|by right].
Qed.

(** *** Headers *)

(** A header that was set is read back, other names are not touched, and a
    name that was never set reads as the empty string; status and body are
    left alone. *)
Theorem setHeader_getHeader (name name' value : string) (r : t) :
  getHeader name (setHeader name value r) = value
  ∧ (name' ≠ name → getHeader name' (setHeader name value r) = getHeader name' r)
  ∧ (headers_ r !! name' = None → getHeader name' r = "")
  ∧ getStatusCode (setHeader name value r) = getStatusCode r
  ∧ getBody (setHeader name value r) = getBody r.
Proof.
  unfold getHeader, setHeader. cbn [headers_]. repeat split.
  - by rewrite lookup_insert_eq.
  - intros H. by rewrite lookup_insert_ne.
  - by intros ->.
Qed.

Lemma setHeader_getHeader_witness :
  getHeader "X-B" (setHeader "X-A" "1" init) = getHeader "X-B" init.
Proof.
  apply (proj1 (proj2 (setHeader_getHeader "X-A" "X-B" "1" init))). discriminate.
Defined.

(** [enableCors] sets its three headers and nothing else; calling it again
    replaces the allowed origin, so the last call decides. *)
Theorem enableCors_last_origin (origin origin' name : string) (r : t) :
  enableCors origin (enableCors origin' r) = enableCors origin r
  ∧ getHeader "Access-Control-Allow-Origin" (enableCors origin r) = origin
  ∧ getHeader "Access-Control-Allow-Methods" (enableCors origin r)
    = "GET, POST, PUT, DELETE, OPTIONS"
  ∧ getHeader "Access-Control-Allow-Headers" (enableCors origin r)
    = "Content-Type, Authorization"
  ∧ (name ≠ "Access-Control-Allow-Origin" →
     name ≠ "Access-Control-Allow-Methods" →
     name ≠ "Access-Control-Allow-Headers" →
     getHeader name (enableCors origin r) = getHeader name r)
  ∧ getStatusCode (enableCors origin r) = getStatusCode r
  ∧ getBody (enableCors origin r) = getBody r.
Proof.
  unfold enableCors, getHeader, setHeader. cbn [headers_ status_code_ body_ version_].
  split; [|repeat split].
  - f_equal. apply map_eq. intros k. rewrite !lookup_insert.
    repeat case_decide; congruence.
  - by rewrite lookup_insert_ne, lookup_insert_ne, lookup_insert_eq.
  - by rewrite lookup_insert_ne, lookup_insert_eq.
  - by rewrite lookup_insert_eq.
  - intros H1 H2 H3. by rewrite !lookup_insert_ne.
Qed.

Lemma enableCors_last_origin_witness :
  getHeader "Content-Type" (enableCors "*" (setTextContent "hi" init))
  = getHeader "Content-Type" (setTextContent "hi" init).
Proof.
  apply (proj1 (proj2 (proj2 (proj2 (proj2
    (enableCors_last_origin "*" "" "Content-Type" (setTextContent "hi" init)))))));
    discriminate.
Defined.

(** *** Files *)

Lemma after_last_dot_none s : contains "." s = false → after_last_dot s = None.
Proof.
  induction s as [|a s IH]; [done|]. cbn [contains after_last_dot].
  destruct (Ascii.eqb a "."); [done|]. intros H. by rewrite IH.
Qed.

(** The extension is what follows the last dot of the path. *)
Lemma after_last_dot_app stem ext :
  contains "." ext = false → after_last_dot (stem ++ String "." ext) = Some ext.
Proof.
  intros Hext. induction stem as [|a stem IH].
  - change ("" ++ String "." ext) with (String "." ext). cbn [after_last_dot].
    by rewrite after_last_dot_none.
  - change (String a stem ++ String "." ext) with (String a (stem ++ String "." ext)).
    cbn [after_last_dot]. by rewrite IH.
Qed.

(** [setFileContent] on a file that cannot be opened makes the response a
    plain-text 404.  On a file that can, the body is the content of the
    file, with its length declared and the status left alone; the content
    type is looked up under what follows the last dot of the path, and is
    the generic binary type when the path has no dot. *)
Theorem setFileContent_outcomes (file_path stem ext content : string) (r : t) :
  (fs file_path = None →
   getStatusCode (setFileContent fs file_path r) = NOT_FOUND
   ∧ getBody (setFileContent fs file_path r) = "File not found"
   ∧ getHeader "Content-Type" (setFileContent fs file_path r)
     = "text/plain; charset=utf-8")
  ∧ (fs file_path = Some content →
     getStatusCode (setFileContent fs file_path r) = getStatusCode r
     ∧ getBody (setFileContent fs file_path r) = content
     ∧ getHeader "Content-Length" (setFileContent fs file_path r)
       = pretty (String.length content)
     ∧ (file_path = stem ++ "." ++ ext → contains "." ext = false →
        getHeader "Content-Type" (setFileContent fs file_path r) = getMimeType ext)
     ∧ (contains "." file_path = false →
        getHeader "Content-Type" (setFileContent fs file_path r)
        = "application/octet-stream")).
Proof.
  unfold setFileContent. split; intros ->.
  - unfold getHeader. cbn. by rewrite lookup_insert_ne, lookup_insert_eq.
  - unfold getHeader. cbn [setBody setContentLength setHeader getStatusCode getBody
                           status_code_ body_ headers_].
    rewrite lookup_insert_eq. repeat (split; [done|]).
    rewrite lookup_insert_ne, lookup_insert_eq by done. split.
    + intros -> Hext. change (stem ++ "." ++ ext) with (stem ++ String "." ext).
      by rewrite after_last_dot_app.
    + intros Hp. by rewrite after_last_dot_none.
Qed.

Example getMimeType_table :
  getMimeType "html" = "text/html" ∧ getMimeType "wasm" = "application/wasm"
  ∧ getMimeType "HTML" = "application/octet-stream"
  ∧ getMimeType "" = "application/octet-stream".
Proof. by vm_compute. Qed.

(** *** The serialized form *)

Lemma block_ends_with_crlf (l : list string) (pre : string) :
  (∃ h, pre = h ++ CRLF) →
  (∀ x, x ∈ l → ∃ h, x = h ++ CRLF) →
  ∃ h, pre ++ String.concat "" l = h ++ CRLF.
Proof.
  revert pre. induction l as [|x l IH]; intros pre Hpre Hl.
  - destruct Hpre as [h ->]. exists h. by rewrite append_nil_r.
  - rewrite concat_cons, <- append_assoc. apply IH.
    + destruct (Hl x) as [h ->]; [left|]. exists (pre ++ h). by rewrite append_assoc.
    + intros y Hy. apply Hl. by right.
Qed.

(** In the serialized response the body comes right after an empty line:
    the text before it ends with two line ends. *)
Theorem toString_blank_line_before_body (iterate : iteration) (r : t) :
  ∃ head, toString iterate r = head ++ CRLF ++ CRLF ++ body_ r.
Proof.
  destruct (block_ends_with_crlf (header_line <$> iterate (headers_ r)) (status_line r))
    as [h Hh].
  - unfold status_line.
    exists (version_ r ++ " " ++ pretty (code_value (status_code_ r)) ++ " "
              ++ getStatusText r).
    by rewrite !append_assoc.
  - intros x Hx. apply list_elem_of_fmap in Hx as ([n v] & -> & _).
    unfold header_line. cbn [fst snd]. eexists (n ++ ": " ++ v). by rewrite !append_assoc.
  - exists h. unfold toString. by rewrite <- append_assoc, Hh, append_assoc.
Qed.

(** Read with the tokenizer of the request parser, the status line gives
    back the version, the decimal status code and the words of the reason
    phrase; and statuses with the same code or the same reason phrase are
    the same status. *)
Theorem status_line_round_trip (r : t) (code : StatusCode) :
  version_ r = "HTTP/1.1" →
  (∃ words,
     tokens (status_line r)
     = "HTTP/1.1" :: pretty (code_value (status_code_ r)) :: words
     ∧ String.concat " " words = statusCodeToString (status_code_ r))
  ∧ (code_value code = code_value (status_code_ r) → code = status_code_ r)
  ∧ (statusCodeToString code = statusCodeToString (status_code_ r) →
     code = status_code_ r).
Proof.
  intros Hv. unfold status_line, getStatusText. rewrite Hv. split; [|split].
  - destruct (status_code_ r); eexists; by vm_compute.
  - destruct code, (status_code_ r); by vm_compute.
  - destruct code, (status_code_ r); by vm_compute.
Qed.

End ResponseMore.

Section ResponseExamples.

Import HttpResponse.

Lemma content_length_follows_body_witness :
  length_declared
    (foldl (apply_call Scenario.no_files) init
       [SetHeader "X-A" "1"; SetStatusCode CREATED; SetJsonContent "{}";
        EnableCors "*"; SetFileContent "missing.txt"; SetHeader "X-B" "2"]).
Proof.
  apply (content_length_follows_body Scenario.no_files
           [SetHeader "X-A" "1"; SetStatusCode CREATED; SetJsonContent "{}";
            EnableCors "*"; SetFileContent "missing.txt"; SetHeader "X-B" "2"] init).
  - reflexivity.
  - right. reflexivity.
Defined.

Lemma setFileContent_outcomes_witness :
  getHeader "Content-Type" (setFileContent Fixtures.one_page "./public/index.html" init)
  = getMimeType "html".
Proof.
  apply (proj1 (proj2 (proj2 (proj2 (proj2
    (setFileContent_outcomes Fixtures.one_page "./public/index.html" "./public/index" "html"
       "<h1>hello</h1>" init) eq_refl))))); reflexivity.
Defined.

Lemma status_line_round_trip_witness :
  (∃ words,
     tokens (status_line (setStatusCode METHOD_NOT_ALLOWED init))
     = "HTTP/1.1"
         :: pretty (code_value (status_code_ (setStatusCode METHOD_NOT_ALLOWED init)))
         :: words
     ∧ String.concat " " words
       = statusCodeToString (status_code_ (setStatusCode METHOD_NOT_ALLOWED init)))
  ∧ (code_value NOT_FOUND
     = code_value (status_code_ (setStatusCode METHOD_NOT_ALLOWED init)) →
     NOT_FOUND = status_code_ (setStatusCode METHOD_NOT_ALLOWED init))
  ∧ (statusCodeToString NOT_FOUND
     = statusCodeToString (status_code_ (setStatusCode METHOD_NOT_ALLOWED init)) →
     NOT_FOUND = status_code_ (setStatusCode METHOD_NOT_ALLOWED init)).
Proof.
  apply (status_line_round_trip (setStatusCode METHOD_NOT_ALLOWED init) NOT_FOUND).
  reflexivity.
Defined.

End ResponseExamples.

(** ** HttpServer: the order of the pipeline *)

Section PipelineOrder.

Import HttpServer.

Context (regex_match : string → string → option bool).
Context (fs : string → option string).
Context (iterate : iteration) (Hiterate : faithful iterate).

Local Abbreviation matchRoute' := (matchRoute regex_match).
Local Abbreviation first_match' := (first_match regex_match).
Local Abbreviation pipeline' := (pipeline regex_match fs iterate).
Local Abbreviation processHttpRequest' := (processHttpRequest regex_match fs iterate).

(** *** Patterns without a wildcard *)

Lemma matchRoute_same pattern : matchRoute' pattern pattern = true.
Proof. unfold matchRoute. by rewrite String.eqb_refl. Qed.

(** A pattern without an asterisk matches its own text and nothing else,
    whatever the regular-expression engine does; a pattern always matches
    its own text. *)
Theorem matchRoute_literal (pattern p : string) :
  matchRoute' pattern pattern = true
  ∧ (contains "*" pattern = false → (matchRoute' pattern p = true ↔ pattern = p)).
Proof.
  split; [apply matchRoute_same|]. unfold matchRoute.
  intros ->. destruct (String.eqb_spec pattern p); split; done.
Qed.

(** *** Middlewares *)

(** A middleware that returns false ends the processing: the response is
    the one it left, and neither the middlewares after it nor the static
    mappings, the routes, the not-found handler or the error handler run. *)
Theorem middleware_halts
    (srv : t) (ms1 ms2 : list MiddlewareFunction) (mw : MiddlewareFunction)
    (request : HttpRequest.t) (res res1 res2 : HttpResponse.t) :
  middlewares_ srv = (ms1 ++ mw :: ms2)%list →
  runMiddlewares ms1 request res = Done true res1 →
  mw request res1 = Done false res2 →
  processHttpRequest' srv request res = Done tt res2.
Proof.
  intros Hms H1 H2. unfold processHttpRequest, try_catch, pipeline, bind.
  rewrite Hms, runMiddlewares_app, H1. cbn [runMiddlewares]. unfold bind.
  by rewrite H2.
Qed.

(** *** Static mappings and routes *)

Lemma static_found (m : gmap string string) (p : string) sp :
  List.find (λ sp, starts_with sp.1 p) (iterate m) = Some sp →
  m !! sp.1 = Some sp.2 ∧ starts_with sp.1 p = true.
Proof.
  intros H. apply List.find_some in H as [Hin H]. split; [|done].
  apply elem_of_map_to_list. rewrite <- (Hiterate m), list_elem_of_In. by destruct sp.
Qed.

Lemma static_not_found (m : gmap string string) (p : string) :
  (∀ k d, m !! k = Some d → starts_with k p = false) →
  List.find (λ sp, starts_with sp.1 p) (iterate m) = None.
Proof.
  intros H. destruct (List.find _ _) as [sp|] eqn:E; [|done].
  apply static_found in E as [E1 E2]. by rewrite (H _ _ E1) in E2.
Qed.

(** Static mappings come before the routes.  When the middlewares have all
    continued and some mapped prefix starts the path, the response is that
    of the file under the directory of such a prefix, read at the rest of
    the path: a plain-text 404 when it cannot be opened.  No route and no
    not-found handler runs. *)
Theorem static_prefix_shadows_routes
    (srv : t) (request : HttpRequest.t) (res res1 : HttpResponse.t)
    (prefix directory : string) :
  runMiddlewares (middlewares_ srv) request res = Done true res1 →
  static_paths_ srv !! prefix = Some directory →
  starts_with prefix (HttpRequest.getPath request) = true →
  ∃ k d,
    static_paths_ srv !! k = Some d
    ∧ starts_with k (HttpRequest.getPath request) = true
    ∧ processHttpRequest' srv request res
      = Done tt
          (HttpResponse.setFileContent fs
             (d ++ string_drop (String.length k) (HttpRequest.getPath request)) res1).
Proof.
  intros Hm Hk Hp. unfold processHttpRequest, try_catch, pipeline, bind. rewrite Hm.
  cbn [negb].
  destruct (List.find _ (iterate (static_paths_ srv))) as [[k d]|] eqn:E.
  - apply static_found in E as [E1 E2]. exists k, d. split; [done|]. split; [done|].
    unfold handleStaticFile, lift, HttpResponse.setFileContent. cbn [fst snd].
    by destruct (fs _).
  - pose proof (List.find_none _ _ E (prefix, directory)) as H. cbn [fst] in H.
    rewrite H in Hp; [done|]. apply list_elem_of_In. rewrite (Hiterate _).
    by apply elem_of_map_to_list.
Qed.

(** When the middlewares have all continued and no mapped prefix starts the
    path, the first route in registration order that passes the method and
    the path test serves the request, on the response the middlewares left;
    when there is none, the not-found handler does.  The default not-found
    handler answers with a plain-text 404 that names the path. *)
Theorem routes_after_static
    (srv : t) (request : HttpRequest.t) (res res1 : HttpResponse.t) :
  runMiddlewares (middlewares_ srv) request res = Done true res1 →
  (∀ k d, static_paths_ srv !! k = Some d →
          starts_with k (HttpRequest.getPath request) = false) →
  pipeline' srv request res
  = match first_match' (routes_ srv) request with
    | Some r => handler r request res1
    | None => not_found_handler_ srv request res1
    end
  ∧ defaultNotFoundHandler request res1
    = Done tt
        (HttpResponse.setTextContent ("404 Not Found: " ++ HttpRequest.getPath request)
           (HttpResponse.setStatusCode HttpResponse.NOT_FOUND res1)).
Proof.
  intros Hm Hs. split; [|done]. unfold pipeline, bind. rewrite Hm. cbn [negb].
  rewrite static_not_found by done. rewrite dispatch_first_match.
  destruct (first_match' (routes_ srv) request) as [r|]; [|done].
  unfold bind, ret. by destruct (handler r request res1) as [[] ?|].
Qed.

Lemma find_append {A} (f : A → bool) (l1 l2 : list A) :
  List.find f (l1 ++ l2)%list
  = match List.find f l1 with
    | Some x => Some x
    | None => List.find f l2
    end.
Proof.
  induction l1 as [|x l1 IH]; [done|]. cbn [app List.find]. by destruct (f x).
Qed.

(** Registration order decides.  A new route is appended to the table, so it
    serves a request only when no earlier route does; a request that an
    earlier route serves is served by that route as before. *)
Theorem route_appends
    (srv : t) (m : HttpRequest.Method) (p : string) (h : RequestHandler)
    (request : HttpRequest.t) :
  (∀ r, first_match' (routes_ srv) request = Some r →
        first_match' (routes_ (route m p h srv)) request = Some r)
  ∧ (first_match' (routes_ srv) request = None →
     m = HttpRequest.getMethod request → p = HttpRequest.getPath request →
     ∃ r, first_match' (routes_ (route m p h srv)) request = Some r
          ∧ handler r = h ∧ method r = m ∧ path r = p)
  ∧ middlewares_ (route m p h srv) = middlewares_ srv
  ∧ static_paths_ (route m p h srv) = static_paths_ srv.
Proof.
  unfold route, first_match. cbn [routes_ middlewares_ static_paths_].
  split; [|split; [|done]].
  - intros r Hr. by rewrite find_append, Hr.
  - intros Hnone -> ->. rewrite find_append, Hnone. cbn [List.find].
    unfold considered at 1. cbn [method path].
    rewrite bool_decide_eq_true_2 by done.
    rewrite matchRoute_same. cbn [orb andb]. by eexists.
Qed.

End PipelineOrder.

(** ** HttpServer: a wildcard at the end of a pattern *)

Section TrailingWildcard.

Import HttpServer.

Lemma ordinary_char c :
  Regex.ordinary c = true →
  Ascii.eqb c "*" = false ∧ Regex.atom_of c = Some (Regex.Lit c).
Proof.
  unfold Regex.ordinary, Regex.atom_of. intros H%negb_true_iff. rewrite H.
  split.
  - destruct (Ascii.eqb_spec c "*") as [->|]; [done|done].
  - destruct (Ascii.eqb_spec c ".") as [->|]; [done|done].
Qed.

Lemma string_map_app f s1 s2 : string_map f (s1 ++ s2) = string_map f s1 ++ string_map f s2.
Proof.
  induction s1 as [|c s1 IH]; [done|].
  change (String c s1 ++ s2) with (String c (s1 ++ s2)). cbn [string_map].
  rewrite IH. done.
Qed.

Lemma wildcard_to_regex_trailing pre :
  string_forall Regex.ordinary pre = true →
  wildcard_to_regex (pre ++ "*") = pre ++ ".*".
Proof.
  intros Hpre. unfold wildcard_to_regex. rewrite string_map_app.
  change (string_map _ "*") with ".". rewrite append_assoc. f_equal.
  induction pre as [|c pre IH]; [done|]. cbn [string_forall string_map] in *.
  apply andb_true_iff in Hpre as [Hc Hpre].
  destruct (ordinary_char c Hc) as [-> _]. by rewrite IH.
Qed.

Lemma parse_items_trailing pre :
  string_forall Regex.ordinary pre = true →
  Regex.parse_items (pre ++ ".*")
  = Some (((λ c, Regex.One (Regex.Lit c)) <$> list_ascii_of_string pre)
            ++ [Regex.Star Regex.AnyChar])%list.
Proof.
  induction pre as [|c pre IH]; [done|]. cbn [string_forall].
  intros [Hc Hpre]%andb_true_iff. specialize (IH Hpre).
  destruct (ordinary_char c Hc) as [_ Hatom].
  change (String c pre ++ ".*") with (String c (pre ++ ".*")).
  cbn [Regex.parse_items list_ascii_of_string fmap list_fmap app]. rewrite Hatom.
  destruct pre as [|c' pre'].
  - by vm_compute.
  - change (String c' pre' ++ ".*") with (String c' (pre' ++ ".*")) in *.
    cbn [string_forall] in Hpre. apply andb_true_iff in Hpre as [Hc' _].
    destruct (ordinary_char c' Hc') as [-> _]. by rewrite IH.
Qed.

Lemma star_any s :
  Regex.star Regex.AnyChar (Regex.matches []) s
  = string_forall (Regex.atom_ok Regex.AnyChar) s.
Proof.
  induction s as [|c s IH]; [done|]. cbn [Regex.star string_forall]. by rewrite IH.
Qed.

Lemma matches_trailing pre p :
  Regex.matches (((λ c, Regex.One (Regex.Lit c)) <$> list_ascii_of_string pre)
                   ++ [Regex.Star Regex.AnyChar])%list p = true
  ↔ ∃ rest, p = pre ++ rest ∧ string_forall (Regex.atom_ok Regex.AnyChar) rest = true.
Proof.
  revert p. induction pre as [|c pre IH]; intros p.
  - cbn [list_ascii_of_string fmap list_fmap app Regex.matches]. rewrite star_any.
    split; [by exists p|]. by intros (rest & -> & H).
  - cbn [list_ascii_of_string fmap list_fmap app Regex.matches Regex.atom_ok].
    destruct p as [|d p].
    + split; [done|]. by intros (rest & H & _).
    + rewrite andb_true_iff, IH. split.
      * intros [->%Ascii.eqb_eq (rest & -> & H)]. by exists rest.
      * intros (rest & H & Hr).
        change (String c pre ++ rest) with (String c (pre ++ rest)) in H.
        injection H as -> ->. split; [apply Ascii.eqb_refl|]. by exists rest.
Qed.

(** A pattern of ordinary characters followed by one asterisk matches a
    path exactly when the path starts with those characters and goes on
    without a line end. *)
Theorem matchRoute_trailing_wildcard_iff (pre p : string) :
  string_forall Regex.ordinary pre = true →
  matchRoute Regex.regex_match (pre ++ "*") p = true
  ↔ ∃ rest, p = pre ++ rest ∧ string_forall (Regex.atom_ok Regex.AnyChar) rest = true.
Proof.
  intros Hpre. unfold matchRoute.
  rewrite contains_app. change (contains "*" "*") with true. rewrite orb_true_r.
  rewrite wildcard_to_regex_trailing by done. unfold Regex.regex_match.
  rewrite parse_items_trailing by done. cbn [fmap option_fmap option_map].
  destruct (String.eqb_spec (pre ++ "*") p) as [<-|Hne].
  - split; [|done]. intros _. by exists "*".
  - apply matches_trailing.
Qed.

Lemma matchRoute_trailing_wildcard_iff_witness :
  matchRoute Regex.regex_match ("/api/" ++ "*") "/api/users/42?x=1" = true.
Proof.
  apply (proj2 (matchRoute_trailing_wildcard_iff "/api/" "/api/users/42?x=1" eq_refl)).
  by exists "users/42?x=1".
Defined.

End TrailingWildcard.

(** ** HttpServer: a server without routes, and examples *)

Section DefaultServer.

Import HttpServer.

Context (regex_match : string → string → option bool).
Context (fs : string → option string).
Context (iterate : iteration).

Lemma two_headers (length_value : string) :
  map_to_list (<["Content-Length" := length_value]>
                 (<["Content-Type" := "text/plain; charset=utf-8"]> (∅ : gmap string string)))
  = [("Content-Length", length_value); ("Content-Type", "text/plain; charset=utf-8")].
Proof. reflexivity. Qed.

(** A server on which nothing was registered answers every input, a
    malformed request included, with a plain-text 404 that names the path
    it parsed (the empty path for a malformed request): the status line,
    the two header lines Content-Length and Content-Type in one order or
    the other, the blank line, and the body. *)
Theorem default_server_answers_404 (raw_request : string) :
  faithful iterate →
  (∃ header_lines,
     handleRequest regex_match fs iterate init raw_request
     = inr ("HTTP/1.1 404 Not Found" ++ CRLF ++ header_lines ++ CRLF
            ++ "404 Not Found: " ++ HttpRequest.getPath (HttpRequest.of_raw raw_request))
     ∧ (header_lines
        = ("Content-Length: "
           ++ pretty (String.length
                        ("404 Not Found: "
                         ++ HttpRequest.getPath (HttpRequest.of_raw raw_request)))
           ++ CRLF)
          ++ "Content-Type: text/plain; charset=utf-8" ++ CRLF
        ∨ header_lines
          = ("Content-Type: text/plain; charset=utf-8" ++ CRLF)
            ++ "Content-Length: "
            ++ pretty (String.length
                         ("404 Not Found: "
                          ++ HttpRequest.getPath (HttpRequest.of_raw raw_request)))
            ++ CRLF))
  ∧ (HttpRequest.isValid (HttpRequest.of_raw raw_request) = false →
     HttpRequest.getPath (HttpRequest.of_raw raw_request) = "").
Proof.
  intros Hiterate. split.
  - unfold handleRequest, processHttpRequest, try_catch, pipeline, bind.
    cbn [init middlewares_ runMiddlewares ret negb static_paths_ routes_ dispatch
         not_found_handler_].
    assert (iterate ∅ = []) as ->.
    { apply Permutation_nil_r. by rewrite (Hiterate ∅), map_to_list_empty. }
    cbn [List.find]. unfold defaultNotFoundHandler, lift.
    unfold HttpResponse.toString, HttpResponse.status_line.
    cbn [HttpResponse.setTextContent HttpResponse.setBody HttpResponse.setContentLength
         HttpResponse.setHeader HttpResponse.setStatusCode HttpResponse.init
         HttpResponse.headers_ HttpResponse.body_ HttpResponse.version_
         HttpResponse.status_code_ HttpResponse.getStatusText].
    generalize (HttpRequest.getPath (HttpRequest.of_raw raw_request)). intros p.
    pose proof (Hiterate
                  (<["Content-Length" := pretty (String.length ("404 Not Found: " ++ p))]>
                     (<["Content-Type" := "text/plain; charset=utf-8"]> ∅))) as Hperm.
    rewrite two_headers in Hperm. symmetry in Hperm.
    generalize dependent (pretty (String.length ("404 Not Found: " ++ p))). intros v Hperm.
    apply Permutation_length_2_inv in Hperm as [-> | ->];
      cbn [fmap list_fmap String.concat]; unfold HttpResponse.header_line; cbn [fst snd];
      eexists; (split; [f_equal; rewrite !append_assoc; by vm_compute|]).
    + left. by rewrite !append_assoc.
    + right. by rewrite !append_assoc.
  - unfold HttpRequest.of_raw, HttpRequest.isValid, HttpRequest.getPath, HttpRequest.parse.
    repeat (case_match; try done).
Qed.

End DefaultServer.

Section PipelineExamples.

Import HttpServer.

Lemma default_server_answers_404_witness :
  (∃ header_lines,
     handleRequest Regex.regex_match Scenario.no_files map_to_list init "no request at all"
     = inr ("HTTP/1.1 404 Not Found" ++ CRLF ++ header_lines ++ CRLF
            ++ "404 Not Found: " ++ HttpRequest.getPath (HttpRequest.of_raw "no request at all"))
     ∧ (header_lines
        = ("Content-Length: "
           ++ pretty (String.length
                        ("404 Not Found: "
                         ++ HttpRequest.getPath (HttpRequest.of_raw "no request at all")))
           ++ CRLF)
          ++ "Content-Type: text/plain; charset=utf-8" ++ CRLF
        ∨ header_lines
          = ("Content-Type: text/plain; charset=utf-8" ++ CRLF)
            ++ "Content-Length: "
            ++ pretty (String.length
                         ("404 Not Found: "
                          ++ HttpRequest.getPath (HttpRequest.of_raw "no request at all")))
            ++ CRLF))
  ∧ HttpRequest.getPath (HttpRequest.of_raw "no request at all") = "".
Proof.
  destruct (default_server_answers_404 Regex.regex_match Scenario.no_files map_to_list
              "no request at all") as [Hout Hpath].
  - intros m. reflexivity.
  - split; [exact Hout|]. apply Hpath. reflexivity.
Defined.

Lemma matchRoute_literal_witness :
  matchRoute Regex.regex_match "/api/users/:id" "/api/users/7" = true
  ↔ "/api/users/:id" = "/api/users/7".
Proof.
  apply (proj2 (matchRoute_literal Regex.regex_match "/api/users/:id" "/api/users/7")).
  reflexivity.
Defined.

Lemma middleware_halts_witness :
  processHttpRequest Regex.regex_match Scenario.no_files map_to_list
    Fixtures.guarded_server Scenario.get_x HttpResponse.init
  = Done tt
      (HttpResponse.setTextContent "denied"
         (HttpResponse.setStatusCode HttpResponse.FORBIDDEN
            (HttpResponse.enableCors "*" HttpResponse.init))).
Proof.
  apply (middleware_halts Regex.regex_match Scenario.no_files map_to_list
           Fixtures.guarded_server
           [Fixtures.cors] [Fixtures.mark] Fixtures.deny Scenario.get_x
           HttpResponse.init (HttpResponse.enableCors "*" HttpResponse.init));
    reflexivity.
Defined.

Lemma static_prefix_shadows_routes_witness :
  ∃ k d,
    static_paths_ Fixtures.static_server !! k = Some d
    ∧ starts_with k (HttpRequest.getPath Fixtures.get_page) = true
    ∧ processHttpRequest Regex.regex_match Fixtures.one_page map_to_list
        Fixtures.static_server Fixtures.get_page HttpResponse.init
      = Done tt
          (HttpResponse.setFileContent Fixtures.one_page
             (d ++ string_drop (String.length k) (HttpRequest.getPath Fixtures.get_page))
             HttpResponse.init).
Proof.
  apply (static_prefix_shadows_routes Regex.regex_match Fixtures.one_page map_to_list
           (λ m, Permutation_refl (map_to_list m))
           Fixtures.static_server Fixtures.get_page HttpResponse.init HttpResponse.init
           "/static" "./public"); reflexivity.
Defined.

Example static_file_served :
  handleRequest Regex.regex_match Fixtures.one_page map_to_list Fixtures.static_server
    ("GET /static/index.html HTTP/1.1" ++ CRLF ++ CRLF)
  = inr ("HTTP/1.1 200 OK" ++ CRLF ++ "Content-Length: 14" ++ CRLF
         ++ "Content-Type: text/html" ++ CRLF ++ CRLF ++ "<h1>hello</h1>")
  ∧ handleRequest Regex.regex_match Fixtures.one_page map_to_list Fixtures.static_server
      ("GET /static/other.css HTTP/1.1" ++ CRLF ++ CRLF)
    = inr ("HTTP/1.1 404 Not Found" ++ CRLF ++ "Content-Length: 14" ++ CRLF
           ++ "Content-Type: text/plain; charset=utf-8" ++ CRLF ++ CRLF
           ++ "File not found").
Proof. by vm_compute. Qed.

Lemma routes_after_static_witness :
  pipeline Regex.regex_match Scenario.no_files map_to_list Scenario.failing_server
    Scenario.get_x HttpResponse.init
  = match first_match Regex.regex_match (routes_ Scenario.failing_server) Scenario.get_x with
    | Some r => handler r Scenario.get_x HttpResponse.init
    | None => not_found_handler_ Scenario.failing_server Scenario.get_x HttpResponse.init
    end
  ∧ defaultNotFoundHandler Scenario.get_x HttpResponse.init
    = Done tt
        (HttpResponse.setTextContent ("404 Not Found: " ++ HttpRequest.getPath Scenario.get_x)
           (HttpResponse.setStatusCode HttpResponse.NOT_FOUND HttpResponse.init)).
Proof.
  apply (routes_after_static Regex.regex_match Scenario.no_files map_to_list
           (λ m, Permutation_refl (map_to_list m)) Scenario.failing_server
           Scenario.get_x HttpResponse.init HttpResponse.init).
  - reflexivity.
  - intros k d H.
    change (static_paths_ Scenario.failing_server) with (∅ : gmap string string) in H.
    by rewrite lookup_empty in H.
Defined.

Lemma route_appends_witness :
  ∃ r, first_match Regex.regex_match
         (routes_ (route HttpRequest.GET "/x" (Scenario.say "x") init)) Scenario.get_x
       = Some r
       ∧ handler r = Scenario.say "x" ∧ method r = HttpRequest.GET ∧ path r = "/x".
Proof.
  apply (proj1 (proj2 (route_appends Regex.regex_match init HttpRequest.GET "/x"
                         (Scenario.say "x") Scenario.get_x))); reflexivity.
Defined.

End PipelineExamples.

(** ** HttpServer: the connection handler *)

Section ConnectionFacts.

Import HttpServer.

Context (regex_match : string → string → option bool).
Context (fs : string → option string).
Context (iterate : iteration).

Lemma read_request_upto (incoming : list string) (raw : string) :
  ∃ n, (n ≤ length incoming)%nat
    ∧ read_request incoming raw
      = foldl (λ acc buffer, acc ++ c_str buffer) raw (take n incoming)
    ∧ (∀ k, (0 < k < n)%nat →
         occurs (CRLF ++ CRLF)
           (foldl (λ acc buffer, acc ++ c_str buffer) raw (take k incoming)) = false)
    ∧ (n = length incoming
       ∨ incoming !! n = Some ""
       ∨ ((0 < n)%nat ∧ occurs (CRLF ++ CRLF) (read_request incoming raw) = true)).
Proof.
  revert raw. induction incoming as [|buffer rest IH]; intros raw.
  - exists 0%nat. cbn [read_request take foldl length]. repeat split; lia.
  - destruct buffer as [|c b].
    + exists 0%nat. cbn [read_request take foldl length]. repeat split; try lia.
      right. by left.
    + cbn [read_request].
      destruct (occurs (CRLF ++ CRLF) (raw ++ c_str (String c b))) eqn:E.
      * exists 1%nat. cbn [take foldl length]. repeat split; try lia.
        right. right. split; [lia|done].
      * destruct (IH (raw ++ c_str (String c b))) as (n & Hn & Hread & Hless & Hend).
        exists (S n). cbn [take foldl length]. split; [lia|]. split; [done|]. split.
        -- intros [|k] Hk; [lia|]. cbn [take foldl].
           destruct k as [|k]; [done|]. apply Hless. lia.
        -- destruct Hend as [->|[Hend|[Hpos Hend]]]; [by left|right; by left|].
           right. right. split; [lia|done].
Qed.

(** [handleConnection] reads up to the blank line and no further.  The text
    it parses is what the first [n] calls of [recv] delivered (each cut at
    its first zero byte), where no shorter run of deliveries already held
    the blank line, and reading ended because the deliveries ended, because
    [recv] delivered nothing, or because the blank line was there.  What
    arrives after the delivery that completes the blank line is never
    read. *)
Theorem handleConnection_reads_to_blank_line (incoming : list string) :
  ∃ n, (n ≤ length incoming)%nat
    ∧ read_request incoming ""
      = foldl (λ acc buffer, acc ++ c_str buffer) "" (take n incoming)
    ∧ (∀ k, (k < n)%nat →
         occurs (CRLF ++ CRLF)
           (foldl (λ acc buffer, acc ++ c_str buffer) "" (take k incoming)) = false)
    ∧ (n = length incoming
       ∨ incoming !! n = Some ""
       ∨ occurs (CRLF ++ CRLF) (read_request incoming "") = true).
Proof.
  destruct (read_request_upto incoming "") as (n & Hn & Hread & Hless & Hend).
  exists n. split; [done|]. split; [done|]. split.
  - intros [|k] Hk; [by rewrite take_0|]. apply Hless. lia.
  - destruct Hend as [?|[?|[_ ?]]]; tauto.
Qed.

Lemma processHttpRequest_std_only srv request :
  (∀ mw, mw ∈ middlewares_ srv → raises_std_only (mw request)) →
  (∀ r, r ∈ routes_ srv → raises_std_only (handler r request)) →
  raises_std_only (not_found_handler_ srv request) →
  (∀ what, raises_std_only (error_handler_ srv what request)) →
  raises_std_only (processHttpRequest regex_match fs iterate srv request).
Proof.
  intros Hm Hr Hn He res e res' H.
  pose proof (pipeline_std_only regex_match fs iterate srv request Hm Hr Hn) as Hstd.
  unfold processHttpRequest, try_catch in H.
  destruct (pipeline regex_match fs iterate srv request res) as [[] res1 | e1 res1] eqn:E; [done|].
  destruct (Hstd _ _ _ E) as [what ->]. by apply (He what res1 e res').
Qed.

(** [handleConnection] closes the socket on every path on which it returns,
    and it returns unless something that is not a [std::exception] leaves
    request processing.  So when the middlewares, the handlers and the
    error handler throw nothing but [std::exception]s, the socket is closed
    whatever was received; nothing is sent when nothing was received; and
    when moreover the error handler does not throw, whatever else was
    received is answered with the serialized response. *)
Theorem handleConnection_closes_socket (srv : t) (incoming : list string) :
  let request := HttpRequest.of_raw (read_request incoming "") in
  (∀ mw, mw ∈ middlewares_ srv → raises_std_only (mw request)) →
  (∀ r, r ∈ routes_ srv → raises_std_only (handler r request)) →
  raises_std_only (not_found_handler_ srv request) →
  (∀ what, raises_std_only (error_handler_ srv what request)) →
  closed (handleConnection regex_match fs iterate srv incoming) = true
  ∧ returned (handleConnection regex_match fs iterate srv incoming) = true
  ∧ (read_request incoming "" = "" →
     sent (handleConnection regex_match fs iterate srv incoming) = None)
  ∧ ((∀ what, never_raises (error_handler_ srv what request)) →
     read_request incoming "" ≠ "" →
     ∃ response,
       processHttpRequest regex_match fs iterate srv request HttpResponse.init = Done tt response
       ∧ sent (handleConnection regex_match fs iterate srv incoming)
         = Some (HttpResponse.toString iterate response)).
Proof.
  intros request Hm Hr Hn He.
  pose proof (processHttpRequest_std_only srv request Hm Hr Hn He) as Hstd.
  pose proof (pipeline_std_only regex_match fs iterate srv request Hm Hr Hn) as Hpipe.
  unfold handleConnection. subst request.
  destruct (read_request incoming "") as [|c raw] eqn:Eraw; [done|].
  destruct (processHttpRequest regex_match fs iterate srv (HttpRequest.of_raw (String c raw))
              HttpResponse.init) as [[] response | e res1] eqn:E.
  - repeat (split; [done|]). intros _ _. by exists response.
  - destruct (Hstd _ _ _ E) as [what ->]. repeat (split; [done|]).
    intros Hnever _. exfalso.
    unfold processHttpRequest, try_catch in E.
    destruct (pipeline regex_match fs iterate srv (HttpRequest.of_raw (String c raw))
                HttpResponse.init) as [[] res2 | e2 res2] eqn:E2; [done|].
    destruct (Hpipe _ _ _ E2) as [what2 ->].
    destruct (Hnever what2 res2) as (a & res3 & E3). by rewrite E3 in E.
Qed.

End ConnectionFacts.

Section ConnectionExamples.

Import HttpServer.

Lemma handleConnection_closes_socket_witness :
  closed (handleConnection Regex.regex_match Scenario.no_files map_to_list Scenario.failing_server
            ["GET /x HTTP/1.1" ++ CRLF ++ CRLF]) = true
  ∧ returned (handleConnection Regex.regex_match Scenario.no_files map_to_list Scenario.failing_server
                ["GET /x HTTP/1.1" ++ CRLF ++ CRLF]) = true.
Proof.
  destruct (handleConnection_closes_socket Regex.regex_match Scenario.no_files map_to_list
              Scenario.failing_server ["GET /x HTTP/1.1" ++ CRLF ++ CRLF])
    as (Hclosed & Hreturned & _).
  - intros mw Hin. cbn in Hin. by apply not_elem_of_nil in Hin.
  - intros r Hin. cbn in Hin. apply list_elem_of_singleton in Hin. subst r.
    intros res e res' [= <- _]. by eexists.
  - intros res e res' E. discriminate E.
  - intros what res e res' E. discriminate E.
  - by split.
Defined.

(** The body of a request that arrives after its head is not read: the
    request is processed with an empty body although it announces five
    bytes. *)
Example late_body_is_not_read :
  read_request Fixtures.split_post ""
  = "POST /x HTTP/1.1" ++ CRLF ++ "Content-Length: 5" ++ CRLF ++ CRLF
  ∧ HttpRequest.getBody (HttpRequest.of_raw (read_request Fixtures.split_post "")) = ""
  ∧ HttpRequest.getContentLength (HttpRequest.of_raw (read_request Fixtures.split_post ""))
    = 5%Z.
Proof. by vm_compute. Qed.

(** What is not a [std::exception] leaves [handleConnection] before it
    closes the socket. *)
Example escaping_failure_leaves_socket_open :
  handleConnection Regex.regex_match Scenario.no_files map_to_list Scenario.escaping_server
    ["GET /x HTTP/1.1" ++ CRLF ++ CRLF]
  = {| sent := None; closed := false; returned := false |}.
Proof. by vm_compute. Qed.

End ConnectionExamples.

(** ** SocketServer *)

Section SocketFacts.

Import SocketServer.

Lemma closeSocket_socket s : (server_socket_ (closeSocket s) < 0)%Z.
Proof.
  unfold closeSocket. destruct (0 <=? server_socket_ s)%Z eqn:E; cbn [server_socket_]; lia.
Qed.

Lemma listen_no_socket listened s :
  (server_socket_ s < 0)%Z → listen listened s = (false, s).
Proof. intros H. unfold listen. by rewrite (proj2 (Z.ltb_lt _ _) H). Qed.

(** [listen] succeeds only on a socket that [bind] has left in place.  On a
    new server, on a server whose [bind] failed (whichever of [socket],
    [inet_pton] and [::bind] failed; no descriptor is then left open), and
    on a stopped server, [listen] fails and changes nothing: the server
    does not count as running, and [accept] returns at once. *)
Theorem listen_requires_bound_socket
    (fd pton bound port listened : Z) (host : string) (turns : list turn) (s s' : t) :
  bind fd pton bound port host init = (false, s') →
  listen listened init = (false, init)
  ∧ listen listened s' = (false, s')
  ∧ open_ s' = []
  ∧ isRunning s' = false
  ∧ accept s' turns = []
  ∧ listen listened (stop s) = (false, stop s)
  ∧ isRunning (stop s) = false
  ∧ accept (stop s) turns = [].
Proof.
  intros Hbind. split; [done|].
  assert ((server_socket_ s' < 0)%Z ∧ open_ s' = [] ∧ is_running_ s' = false)
    as (Hs & Ho & Hr).
  { unfold bind, createSocket in Hbind. cbn [init server_socket_ port_ host_ is_running_ open_] in Hbind.
    destruct (fd <? 0)%Z eqn:Efd; cbn [negb] in Hbind.
    - injection Hbind as <-. cbn [server_socket_ open_ is_running_].
      apply Z.ltb_lt in Efd. by rewrite (proj2 (Z.leb_gt _ _) Efd).
    - apply Z.ltb_ge in Efd. rewrite (proj2 (Z.leb_le _ _) Efd) in Hbind.
      assert (∀ p h,
                let s2 := {| server_socket_ := fd; port_ := p; host_ := h;
                             is_running_ := false; open_ := [fd] |} in
                (server_socket_ (closeSocket s2) < 0)%Z
                ∧ open_ (closeSocket s2) = [] ∧ is_running_ (closeSocket s2) = false)
        as Hclose.
      { intros p h s2. split; [apply closeSocket_socket|].
        unfold closeSocket. subst s2. cbn [server_socket_ open_ is_running_].
        rewrite (proj2 (Z.leb_le _ _) Efd). cbn [open_ is_running_].
        split; [|done]. rewrite filter_cons_False by (intros H; by apply H).
        done. }
      destruct (negb (String.eqb host "0.0.0.0" || String.eqb host "") && (pton <=? 0)%Z).
      + injection Hbind as <-. apply Hclose.
      + destruct (bound <? 0)%Z; [|done]. injection Hbind as <-. apply Hclose. }
  split; [by apply listen_no_socket|]. split; [done|]. split; [done|].
  split.
  { unfold accept. by rewrite Hr. }
  split; [apply listen_no_socket, closeSocket_socket|].
  assert (is_running_ (stop s) = false) as Hstop.
  { unfold stop, closeSocket. cbn [server_socket_ is_running_].
    by destruct (0 <=? server_socket_ s)%Z. }
  split; [done|]. unfold accept. by rewrite Hstop.
Qed.

(** The life of a listening socket: after a successful [bind] and [listen]
    on a new server the server is running on the descriptor that [socket]
    returned, the only one open; [stop] closes it and clears the flag, and a
    second [stop] changes nothing. *)
Theorem stop_releases_socket
    (fd pton bound port listened : Z) (host : string) (s1 s2 : t) :
  bind fd pton bound port host init = (true, s1) →
  listen listened s1 = (true, s2) →
  server_socket_ s2 = fd ∧ (0 ≤ fd)%Z
  ∧ getPort s2 = port ∧ getHost s2 = host
  ∧ isRunning s2 = true
  ∧ open_ s2 = [fd]
  ∧ open_ (stop s2) = []
  ∧ server_socket_ (stop s2) = (-1)%Z
  ∧ isRunning (stop s2) = false
  ∧ stop (stop s2) = stop s2.
Proof.
  intros Hbind Hlisten.
  unfold bind, createSocket in Hbind.
  cbn [init server_socket_ port_ host_ is_running_ open_] in Hbind.
  destruct (fd <? 0)%Z eqn:Efd; cbn [negb] in Hbind; [done|].
  apply Z.ltb_ge in Efd. rewrite (proj2 (Z.leb_le _ _) Efd) in Hbind.
  destruct (negb (String.eqb host "0.0.0.0" || String.eqb host "") && (pton <=? 0)%Z);
    [done|].
  destruct (bound <? 0)%Z; [done|]. injection Hbind as <-.
  unfold listen in Hlisten. cbn [server_socket_ port_ host_ is_running_ open_] in Hlisten.
  rewrite (proj2 (Z.ltb_ge _ _) Efd) in Hlisten.
  destruct (listened <? 0)%Z; [done|]. injection Hlisten as <-.
  unfold stop, closeSocket, getPort, getHost, isRunning.
  cbn [server_socket_ port_ host_ is_running_ open_].
  rewrite (proj2 (Z.leb_le _ _) Efd). cbn [server_socket_ port_ host_ is_running_ open_].
  rewrite filter_cons_False by (intros H; by apply H).
  repeat (split; [done|]). done.
Qed.

Lemma accept_loop_handles turns client :
  Handle client ∈ accept_loop turns →
  (0 ≤ client)%Z
  ∧ ∃ tn, tn ∈ turns ∧ client_socket tn = client
          ∧ at_head tn = true ∧ after_accept tn = true.
Proof.
  induction turns as [|tn turns IH]; cbn [accept_loop].
  - intros H. by apply not_elem_of_nil in H.
  - destruct (at_head tn) eqn:Eh; cbn [negb];
      [|intros H; by apply not_elem_of_nil in H].
    destruct (client_socket tn <? 0)%Z eqn:Ec.
    + destruct (after_accept tn); [|intros H; by apply not_elem_of_nil in H].
      intros H. destruct (IH H) as (Hpos & tn' & Hin & Htn').
      split; [done|]. exists tn'. split; [by right|done].
    + destruct (after_accept tn) eqn:Ea.
      * intros H. apply elem_of_cons in H as [[= ->]|H].
        -- apply Z.ltb_ge in Ec. split; [done|]. exists tn. split; [by left|done].
        -- destruct (IH H) as (Hpos & tn' & Hin & Htn').
           split; [done|]. exists tn'. split; [by right|done].
      * intros H. apply list_elem_of_singleton in H. discriminate H.
Qed.

Lemma accept_loop_stops pre tn post :
  at_head tn = false ∨ after_accept tn = false →
  accept_loop (pre ++ tn :: post) = accept_loop (pre ++ [tn]).
Proof.
  intros H. induction pre as [|tn' pre IH]; cbn [app accept_loop].
  - destruct (at_head tn); cbn [negb]; [|done].
    destruct H as [H|H]; [done|]. rewrite H. by destruct (client_socket tn <? 0)%Z.
  - by rewrite IH.
Qed.

(** [accept] hands a connection to the handler only while the server
    counts as running: the server is running with a socket when [accept] is
    called, the descriptor is one that [::accept] returned without error,
    and the flag was set both in the loop condition and after [::accept]
    returned.  The first read of a cleared flag ends the loop: whatever
    [::accept] would return afterwards plays no part. *)
Theorem accept_hands_over_while_running (s : t) (turns : list turn) :
  (∀ client, Handle client ∈ accept s turns →
     is_running_ s = true ∧ (0 ≤ server_socket_ s)%Z ∧ (0 ≤ client)%Z
     ∧ ∃ tn, tn ∈ turns ∧ client_socket tn = client
             ∧ at_head tn = true ∧ after_accept tn = true)
  ∧ (∀ pre tn post,
       turns = (pre ++ tn :: post)%list →
       at_head tn = false ∨ after_accept tn = false →
       accept s turns = accept s (pre ++ [tn])%list).
Proof.
  split.
  - intros client. unfold accept.
    destruct (is_running_ s); cbn [negb orb]; [|intros H; by apply not_elem_of_nil in H].
    destruct (server_socket_ s <? 0)%Z eqn:E; [intros H; by apply not_elem_of_nil in H|].
    intros H. apply Z.ltb_ge in E. split; [done|]. split; [done|].
    by apply accept_loop_handles.
  - intros pre tn post -> H. unfold accept.
    destruct (negb (is_running_ s) || (server_socket_ s <? 0)%Z); [done|].
    by apply accept_loop_stops.
Qed.

End SocketFacts.

Section SocketExamples.

Import SocketServer.

Lemma listen_requires_bound_socket_witness :
  listen 0 init = (false, init)
  ∧ listen 0 (bind 3 1 (-1) 8080 "127.0.0.1" init).2
    = (false, (bind 3 1 (-1) 8080 "127.0.0.1" init).2)
  ∧ open_ (bind 3 1 (-1) 8080 "127.0.0.1" init).2 = []
  ∧ isRunning (bind 3 1 (-1) 8080 "127.0.0.1" init).2 = false
  ∧ accept (bind 3 1 (-1) 8080 "127.0.0.1" init).2 Fixtures.stopped_at_third = []
  ∧ listen 0 (stop init) = (false, stop init)
  ∧ isRunning (stop init) = false
  ∧ accept (stop init) Fixtures.stopped_at_third = [].
Proof.
  apply (listen_requires_bound_socket 3 1 (-1) 8080 0 "127.0.0.1"
           Fixtures.stopped_at_third init
           (bind 3 1 (-1) 8080 "127.0.0.1" init).2).
  reflexivity.
Defined.

Lemma stop_releases_socket_witness :
  server_socket_ (listen 0 (bind 3 1 0 8080 "0.0.0.0" init).2).2 = 3%Z ∧ (0 ≤ 3)%Z
  ∧ getPort (listen 0 (bind 3 1 0 8080 "0.0.0.0" init).2).2 = 8080%Z
  ∧ getHost (listen 0 (bind 3 1 0 8080 "0.0.0.0" init).2).2 = "0.0.0.0"
  ∧ isRunning (listen 0 (bind 3 1 0 8080 "0.0.0.0" init).2).2 = true
  ∧ open_ (listen 0 (bind 3 1 0 8080 "0.0.0.0" init).2).2 = [3%Z]
  ∧ open_ (stop (listen 0 (bind 3 1 0 8080 "0.0.0.0" init).2).2) = []
  ∧ server_socket_ (stop (listen 0 (bind 3 1 0 8080 "0.0.0.0" init).2).2) = (-1)%Z
  ∧ isRunning (stop (listen 0 (bind 3 1 0 8080 "0.0.0.0" init).2).2) = false
  ∧ stop (stop (listen 0 (bind 3 1 0 8080 "0.0.0.0" init).2).2)
    = stop (listen 0 (bind 3 1 0 8080 "0.0.0.0" init).2).2.
Proof.
  apply (stop_releases_socket 3 1 0 8080 0 "0.0.0.0"
           (bind 3 1 0 8080 "0.0.0.0" init).2
           (listen 0 (bind 3 1 0 8080 "0.0.0.0" init).2).2); reflexivity.
Defined.

Lemma accept_hands_over_while_running_witness :
  accept (listen 0 (bind 3 1 0 8080 "0.0.0.0" init).2).2 Fixtures.stopped_at_third
  = accept (listen 0 (bind 3 1 0 8080 "0.0.0.0" init).2).2
      [mkTurn true 7 true; mkTurn true (-1) true; mkTurn true 8 false].
Proof.
  apply (proj2 (accept_hands_over_while_running
                  (listen 0 (bind 3 1 0 8080 "0.0.0.0" init).2).2
                  Fixtures.stopped_at_third)
           [mkTurn true 7 true; mkTurn true (-1) true] (mkTurn true 8 false)
           [mkTurn true 9 true]).
  - reflexivity.
  - by right.
Defined.

Example accept_until_stopped :
  accept (listen 0 (bind 3 1 0 8080 "0.0.0.0" init).2).2 Fixtures.stopped_at_third
  = [Handle 7; Close 8].
Proof. reflexivity. Qed.

End SocketExamples.
